(** * Resume parser: a shallow embedding of [resume_final.py]

    The development follows the source file section by section:
    the text normaliser, the name extractor's entry, the skill extractor,
    the column-aware section segmenter, the experience duration calculator
    and the result assembler [process_resume]; then the text extraction
    of the PyMuPDF engine, the contact extractors, the shape of a name and
    the file name of the batch driver.

    Python strings are sequences of Unicode code points; they are modelled
    as lists of code points ([N]).  The white-space table ([str.isspace],
    the regular expression class [\s]), the decimal digits ([\d], [int];
    Unicode 14.0, the tables of Python 3.11) and the matching of an ASCII
    letter under IGNORECASE are complete.  The tables of letters and of
    case ([str.lower], [str.isupper], the letters of [\w]) are given for
    U+0000..U+00FF; above that range the word characters are the decimal
    digits and the four letters that IGNORECASE equates with ASCII
    letters, and no code point has a case. *)

From Stdlib Require Import String Ascii.
From Stdlib Require Import NArith ZArith QArith Bool Lia Arith List.
From Stdlib Require Import Sorting.Sorted Sorting.Permutation.
Import ListNotations.
Close Scope Q_scope.

(* ================================================================== *)
(** ** Characters and strings *)
(* ================================================================== *)

Definition char := N.
Definition text := list char.

(** A Python string literal made of ASCII characters. *)
Definition str (s : string) : text := map N_of_ascii (list_ascii_of_string s).

Definition NL : char := 10%N.      (* "\n" *)
Definition TAB : char := 9%N.      (* "\t" *)
Definition CR : char := 13%N.      (* "\r" *)
Definition SP : char := 32%N.      (* " " *)
Definition NBSP : char := 160%N.   (* U+00A0 *)
Definition BULLET : char := 8226%N.    (* U+2022 *)
Definition EN_DASH : char := 8211%N.   (* U+2013 *)
Definition EM_DASH : char := 8212%N.   (* U+2014 *)

Definition in_range (lo hi c : N) : bool := (N.leb lo c) && (N.leb c hi).

(** [str.isspace] on one character, the class [\s] of [re] on [str]. *)
Definition isspace (c : char) : bool :=
  in_range 9 13 c || in_range 28 32 c || N.eqb c 133 || N.eqb c 160
  || N.eqb c 5760 || in_range 8192 8202 c || N.eqb c 8232 || N.eqb c 8233
  || N.eqb c 8239 || N.eqb c 8287 || N.eqb c 12288.

(** The digit zero of every script of Unicode 14 that has decimal digits
    (general category Nd); the ten digits of a script are consecutive code
    points, in increasing order of value. *)
Definition decimal_zeros : list N :=
  [48; 1632; 1776; 1984; 2406; 2534; 2662; 2790; 2918; 3046; 3174; 3302;
   3430; 3558; 3664; 3792; 3872; 4160; 4240; 6112; 6160; 6470; 6608; 6784;
   6800; 6992; 7088; 7232; 7248; 42528; 43216; 43264; 43472; 43504; 43600;
   44016; 65296; 66720; 68912; 69734; 69872; 69942; 70096; 70384; 70736;
   70864; 71248; 71360; 71472; 71904; 72016; 72784; 73040; 73120; 92768;
   92864; 93008; 120782; 120792; 120802; 120812; 120822; 123200; 123632;
   125264; 130032]%N.

(** The zero of the script of a decimal digit. *)
Definition decimal_zero (c : char) : option N :=
  find (fun z => in_range z (z + 9) c) decimal_zeros.

(** [\d], [str.isdecimal]: the decimal digits of every script. *)
Definition isdecimal (c : char) : bool :=
  match decimal_zero c with Some _ => true | None => false end.

(** The value of a decimal digit, as [int] reads it. *)
Definition digit_value (c : char) : Z :=
  match decimal_zero c with Some z => Z.of_N (c - z) | None => 0%Z end.

Definition isupper_c (c : char) : bool :=
  in_range 65 90 c || in_range 192 214 c || in_range 216 222 c.

Definition islower_c (c : char) : bool :=
  in_range 97 122 c || N.eqb c 170 || N.eqb c 181 || N.eqb c 186
  || in_range 223 246 c || in_range 248 255 c.

Definition isalpha_c (c : char) : bool := isupper_c c || islower_c c.

(** [\w]: alphanumeric (letters, digits, other numerics) or underscore.
    Above U+00FF the table has the decimal digits and the four letters
    that IGNORECASE equates with an ASCII letter (U+0130, U+0131, U+017F,
    U+212A). *)
Definition isword (c : char) : bool :=
  isalpha_c c || isdecimal c || N.eqb c 95
  || N.eqb c 178 || N.eqb c 179 || N.eqb c 185 || in_range 188 190 c
  || N.eqb c 304 || N.eqb c 305 || N.eqb c 383 || N.eqb c 8490.

Definition lower_c (c : char) : char :=
  if isupper_c c then (c + 32)%N else c.

(** Upper-casing may change the length (U+00DF) or leave Latin-1. *)
Definition upper_c (c : char) : text :=
  if in_range 97 122 c || in_range 224 246 c || in_range 248 254 c
  then [(c - 32)%N]
  else if N.eqb c 223 then [83%N; 83%N]
  else if N.eqb c 255 then [376%N]
  else if N.eqb c 181 then [924%N]
  else [c].

Definition lower (s : text) : text := map lower_c s.
Definition upper (s : text) : text := flat_map upper_c s.

(** [str.title]: the first cased character of every run of cased characters
    is upper-cased (title-cased), the others are lower-cased. *)
Fixpoint title_from (prev_cased : bool) (s : text) : text :=
  match s with
  | [] => []
  | c :: t =>
      let cased := isalpha_c c in
      (if cased then (if prev_cased then [lower_c c] else
                        (if N.eqb c 223 then [83%N; 115%N] else upper_c c))
       else [c]) ++ title_from cased t
  end.
Definition title (s : text) : text := title_from false s.

(** [str.isupper], [str.islower]: no cased character of the other case and
    at least one cased character; [str.isalpha]: non-empty, letters only. *)
Definition str_isupper (s : text) : bool :=
  negb (existsb islower_c s) && existsb isupper_c s.
Definition str_islower (s : text) : bool :=
  negb (existsb isupper_c s) && existsb islower_c s.
Definition str_isalpha (s : text) : bool :=
  match s with [] => false | _ => forallb isalpha_c s end.
Definition str_isdigit_c (c : char) : bool :=
  isdecimal c || N.eqb c 178 || N.eqb c 179 || N.eqb c 185.

Fixpoint text_eqb (a b : text) : bool :=
  match a, b with
  | [], [] => true
  | x :: a', y :: b' => N.eqb x y && text_eqb a' b'
  | _, _ => false
  end.

(** [x in xs] for a list or set of strings. *)
Definition mem (x : text) (xs : list text) : bool := existsb (text_eqb x) xs.

Definition is_some {A : Type} (o : option A) : bool :=
  match o with Some _ => true | None => false end.

(** [sep.join(parts)] *)
Fixpoint join (sep : text) (parts : list text) : text :=
  match parts with
  | [] => []
  | [p] => p
  | p :: rest => p ++ sep ++ join sep rest
  end.

(** [s.split(sep)] for a one-character separator: never returns [[]]. *)
Fixpoint split_on (sep : char) (s : text) : list text :=
  match s with
  | [] => [[]]
  | c :: t =>
      if N.eqb c sep then [] :: split_on sep t
      else match split_on sep t with
           | [] => [[c]]
           | p :: ps => (c :: p) :: ps
           end
  end.

(** [str.lstrip], [str.rstrip], [str.strip] without argument. *)
Fixpoint lstrip_by (p : char -> bool) (s : text) : text :=
  match s with
  | [] => []
  | c :: t => if p c then lstrip_by p t else s
  end.
Definition rstrip_by (p : char -> bool) (s : text) : text :=
  rev (lstrip_by p (rev s)).
Definition strip_by (p : char -> bool) (s : text) : text :=
  rstrip_by p (lstrip_by p s).

Definition lstrip := lstrip_by isspace.
Definition rstrip := rstrip_by isspace.
Definition strip := strip_by isspace.

(** [s.strip(chars)] *)
Definition strip_chars (chars : text) : text -> text :=
  strip_by (fun c => existsb (N.eqb c) chars).
Definition rstrip_chars (chars : text) : text -> text :=
  rstrip_by (fun c => existsb (N.eqb c) chars).

(** [s.split()]: the maximal runs of non-white-space characters. *)
Fixpoint split_ws_from (cur : text) (s : text) : list text :=
  match s with
  | [] => match cur with [] => [] | _ => [rev cur] end
  | c :: t =>
      if isspace c
      then match cur with [] => split_ws_from [] t
                     | _ => rev cur :: split_ws_from [] t end
      else split_ws_from (c :: cur) t
  end.
Definition split_ws (s : text) : list text := split_ws_from [] s.

(** [needle in hay] *)
Fixpoint starts_with (p s : text) : bool :=
  match p, s with
  | [], _ => true
  | x :: p', y :: s' => N.eqb x y && starts_with p' s'
  | _ :: _, [] => false
  end.
Fixpoint contains (needle hay : text) : bool :=
  starts_with needle hay ||
  match hay with
  | [] => false
  | _ :: t => contains needle t
  end.
Definition ends_with (p s : text) : bool := starts_with (rev p) (rev s).

(* ================================================================== *)
(** ** Regular expressions

    A backtracking matcher with the semantics of Python's [re]: ordered
    alternation, greedy and lazy repetition, anchors, word boundary and
    capture groups.  Flags are resolved when a pattern is written down:
    [lit_i] compares case-insensitively, [Bol]/[Eol] carry MULTILINE. *)
(* ================================================================== *)

Module Re.

Inductive regex : Type :=
| Eps
| Cls (p : char -> bool)
| Seq (r1 r2 : regex)
| Alt (r1 r2 : regex)
| Star (r : regex)
| LazyStar (r : regex)
| Bol (multiline : bool)
| Eol (multiline : bool)
| WordB
| Group (name : nat) (r : regex).

(** Matcher state: the character before the cursor, the text from the
    cursor on, and the groups captured so far (latest first). *)
Record mstate : Type := MState {
  prev : option char;
  rest : text;
  caps : list (nat * text)
}.

Definition advance (c : char) (t : text) (st : mstate) : mstate :=
  MState (Some c) t (caps st).

Definition is_word_opt (o : option char) : bool :=
  match o with Some c => isword c | None => false end.

Definition at_bol (multiline : bool) (st : mstate) : bool :=
  match prev st with
  | None => true
  | Some c => multiline && N.eqb c NL
  end.

Definition at_eol (multiline : bool) (st : mstate) : bool :=
  match rest st with
  | [] => true
  | c :: t => N.eqb c NL && (multiline || match t with [] => true | _ => false end)
  end.

Definition at_wordb (st : mstate) : bool :=
  xorb (is_word_opt (prev st)) (is_word_opt (hd_error (rest st))).

Section Matcher.
Variable A : Type.

Fixpoint rmatch (r : regex) (st : mstate) (k : mstate -> option A) {struct r}
  : option A :=
  match r with
  | Eps => k st
  | Cls p =>
      match rest st with
      | c :: t => if p c then k (advance c t st) else None
      | [] => None
      end
  | Seq r1 r2 => rmatch r1 st (fun st' => rmatch r2 st' k)
  | Alt r1 r2 =>
      match rmatch r1 st k with
      | Some a => Some a
      | None => rmatch r2 st k
      end
  | Star r1 =>
      (fix loop (fuel : nat) (st : mstate) {struct fuel} : option A :=
         match fuel with
         | O => k st
         | S f =>
             match rmatch r1 st (fun st' =>
                     if Nat.ltb (length (rest st')) (length (rest st))
                     then loop f st' else None) with
             | Some a => Some a
             | None => k st
             end
         end) (length (rest st)) st
  | LazyStar r1 =>
      (fix loop (fuel : nat) (st : mstate) {struct fuel} : option A :=
         match k st with
         | Some a => Some a
         | None =>
             match fuel with
             | O => None
             | S f =>
                 rmatch r1 st (fun st' =>
                     if Nat.ltb (length (rest st')) (length (rest st))
                     then loop f st' else None)
             end
         end) (length (rest st)) st
  | Bol ml => if at_bol ml st then k st else None
  | Eol ml => if at_eol ml st then k st else None
  | WordB => if at_wordb st then k st else None
  | Group n r1 =>
      rmatch r1 st (fun st' =>
        k (MState (prev st') (rest st')
             ((n, firstn (length (rest st) - length (rest st')) (rest st))
                :: caps st')))
  end.
End Matcher.
Arguments rmatch {A} r st k.

(** *** Pattern combinators *)

Definition chr (c : char) : regex := Cls (N.eqb c).
(** A literal character under IGNORECASE: the text character has the same
    lower case, or is one of the letters of other scripts that [re] equates
    with [i], [k] and [s] (U+0130 and U+0131, U+212A, U+017F). *)
Definition chr_i (c : char) : regex :=
  Cls (fun x => N.eqb (lower_c x) (lower_c c)
                || (N.eqb (lower_c c) 105 && (N.eqb x 304 || N.eqb x 305))
                || (N.eqb (lower_c c) 107 && N.eqb x 8490)
                || (N.eqb (lower_c c) 115 && N.eqb x 383)).
Fixpoint seqs (rs : list regex) : regex :=
  match rs with
  | [] => Eps
  | [r] => r
  | r :: rs' => Seq r (seqs rs')
  end.
Fixpoint alts (rs : list regex) : regex :=
  match rs with
  | [] => Cls (fun _ => false)
  | [r] => r
  | r :: rs' => Alt r (alts rs')
  end.
Definition lit (s : text) : regex := seqs (map chr s).
Definition lit_i (s : text) : regex := seqs (map chr_i s).
Definition Opt (r : regex) : regex := Alt r Eps.
Definition Plus (r : regex) : regex := Seq r (Star r).
Fixpoint rep (n : nat) (r : regex) : regex :=
  match n with
  | O => Eps
  | S O => r
  | S n' => Seq r (rep n' r)
  end.
(** [r{0,n}], greedy *)
Fixpoint upto (n : nat) (r : regex) : regex :=
  match n with
  | O => Eps
  | S n' => Opt (Seq r (upto n' r))
  end.
Definition rep_range (m n : nat) (r : regex) : regex :=
  match m with
  | O => upto n r
  | _ => Seq (rep m r) (upto (n - m) r)
  end.
Definition rep_min (m : nat) (r : regex) : regex :=
  match m with
  | O => Star r
  | _ => Seq (rep m r) (Star r)
  end.
Definition one_of (cs : text) : regex := Cls (fun c => existsb (N.eqb c) cs).
Definition none_of (cs : text) : regex := Cls (fun c => negb (existsb (N.eqb c) cs)).
Definition ws : regex := Cls isspace.
Definition digit : regex := Cls isdecimal.
(** [.] without DOTALL *)
Definition dot : regex := Cls (fun c => negb (N.eqb c NL)).

(** *** Matching entry points *)

Definition start_state (p : option char) (s : text) : mstate := MState p s [].

(** The match starting exactly at the cursor, if any. *)
Definition match_here (r : regex) (p : option char) (s : text) : option mstate :=
  rmatch r (start_state p s) (fun st => Some st).

(** [re.match(r, s)] *)
Definition re_match (r : regex) (s : text) : option mstate := match_here r None s.

(** [re.fullmatch(r, s)] *)
Definition fullmatch (r : regex) (s : text) : option mstate :=
  rmatch r (start_state None s)
    (fun st => match rest st with [] => Some st | _ => None end).

(** [re.search(r, s)]: the leftmost match. *)
Fixpoint search_from (r : regex) (p : option char) (s : text) : option mstate :=
  match match_here r p s with
  | Some st => Some st
  | None =>
      match s with
      | [] => None
      | c :: t => search_from r (Some c) t
      end
  end.
Definition search (r : regex) (s : text) : option mstate := search_from r None s.
Definition found (r : regex) (s : text) : bool :=
  match search r s with Some _ => true | None => false end.

(** [m.group(name)] *)
Fixpoint group (n : nat) (cs : list (nat * text)) : option text :=
  match cs with
  | [] => None
  | (m, t) :: cs' => if Nat.eqb n m then Some t else group n cs'
  end.

(** [re.sub(r, repl, s)] for a constant replacement: matches are taken
    left to right without overlap; after an empty match one character is
    copied. *)
Fixpoint sub_loop (r : regex) (repl : text) (fuel : nat)
    (p : option char) (s : text) : text :=
  match fuel with
  | O => s
  | S f =>
      match match_here r p s with
      | Some st =>
          if Nat.ltb (length (rest st)) (length s)
          then repl ++ sub_loop r repl f (prev st) (rest st)
          else match s with
               | [] => repl
               | c :: t => repl ++ c :: sub_loop r repl f (Some c) t
               end
      | None =>
          match s with
          | [] => []
          | c :: t => c :: sub_loop r repl f (Some c) t
          end
      end
  end.
Definition sub (r : regex) (repl : text) (s : text) : text :=
  sub_loop r repl (S (length s)) None s.

(** [re.finditer(r, s)]: the capture lists of the successive matches. *)
Fixpoint finditer_loop (r : regex) (fuel : nat) (p : option char) (s : text)
  : list (list (nat * text)) :=
  match fuel with
  | O => []
  | S f =>
      match match_here r p s with
      | Some st =>
          if Nat.ltb (length (rest st)) (length s)
          then caps st :: finditer_loop r f (prev st) (rest st)
          else match s with
               | [] => [caps st]
               | c :: t => caps st :: finditer_loop r f (Some c) t
               end
      | None =>
          match s with
          | [] => []
          | c :: t => finditer_loop r f (Some c) t
          end
      end
  end.
Definition finditer (r : regex) (s : text) : list (list (nat * text)) :=
  finditer_loop r (S (length s)) None s.

(** [re.split(r, s)] for a pattern without groups that matches no empty
    string. *)
Fixpoint split_loop (r : regex) (fuel : nat) (cur : text)
    (p : option char) (s : text) : list text :=
  match fuel with
  | O => [rev cur ++ s]
  | S f =>
      match s with
      | [] => [rev cur]
      | c :: t =>
          match match_here r p s with
          | Some st =>
              if Nat.ltb (length (rest st)) (length s)
              then rev cur :: split_loop r f [] (prev st) (rest st)
              else split_loop r f (c :: cur) (Some c) t
          | None => split_loop r f (c :: cur) (Some c) t
          end
      end
  end.
Definition split (r : regex) (s : text) : list text :=
  split_loop r (S (length s)) [] None s.

End Re.

(* ================================================================== *)
(** ** Text normalisation ([_normalize_text_block], lines 24-35) *)
(* ================================================================== *)

Import Re.

(** [r"\s+\n"] *)
Definition RE_TRAILING_WS : regex := Seq (Plus ws) (chr NL).
(** [r"\n{3,}"] *)
Definition RE_BLANK_LINES : regex := rep_min 3 (chr NL).
(** [r"[\t\r]"] *)
Definition RE_TAB_CR : regex := one_of [TAB; CR].
(** [r"\s{2,}"] *)
Definition RE_SPACES : regex := rep_min 2 ws.
(** [r"^\s*Page\s+\d+\s+(of|/)\s*\d+\s*$"], IGNORECASE | MULTILINE *)
Definition RE_PAGE_FOOTER : regex :=
  seqs [Bol true; Star ws; lit_i (str "Page"); Plus ws; Plus digit; Plus ws;
        Group 1 (Alt (lit_i (str "of")) (chr 47%N)); Star ws; Plus digit;
        Star ws; Eol true].

(** [txt.replace(NBSP, SP)], line 28 *)
Definition replace_nbsp (txt : text) : text :=
  map (fun c => if N.eqb c NBSP then SP else c) txt.

(** The five white-space rules of lines 28-32, in order. *)
Definition normalize_ws (txt : text) : text :=
  let txt := replace_nbsp txt in
  let txt := sub RE_TRAILING_WS [NL] txt in
  let txt := sub RE_BLANK_LINES [NL; NL] txt in
  let txt := sub RE_TAB_CR [SP] txt in
  sub RE_SPACES [SP] txt.


(** The page-footer rule of line 34. *)
Definition remove_page_footer (txt : text) : text := sub RE_PAGE_FOOTER [] txt.

Definition _normalize_text_block (txt : text) : text :=
  match txt with
  | [] => []
  | _ => strip (remove_page_footer (normalize_ws txt))
  end.

(* ================================================================== *)
(** ** Name extraction ([extract_name], lines 533-587) *)
(* ================================================================== *)

Definition is_empty (s : text) : bool :=
  match s with [] => true | _ => false end.

Section NameExtractor.

(** The layered heuristics of lines 540-587 (first line with role, labelled
    block, scored preface, loose fallback), applied to the non-empty
    stripped lines. *)
Variable name_heuristics : list text -> text.

(** Lines 535-536: [raw_lines] and [lines]. *)
Definition name_lines (txt : text) : list text :=
  let raw_lines := map rstrip (split_on NL txt) in
  filter (fun ln => negb (is_empty ln)) (map strip raw_lines).

Definition extract_name (txt : text) : text :=
  match name_lines txt with
  | [] => str "Unknown"
  | lines => name_heuristics lines
  end.

End NameExtractor.

(** [verify_and_select_name], lines 589-594 *)
Definition verify_and_select_name (name1 name2 : text) : text :=
  if text_eqb name1 name2 || text_eqb name2 (str "Unknown") then name1
  else if text_eqb name1 (str "Unknown") then name2
  else if Nat.leb (length name2) (length name1) then name1 else name2.

(* ================================================================== *)
(** ** Experience duration ([calculate_total_experience], lines 1013-1075) *)
(* ================================================================== *)

(** *** [datetime] and [dateutil.relativedelta] *)

Open Scope Z_scope.

Record datetime : Type := DateTime {
  year : Z; month : Z; day : Z;
  hour : Z; minute : Z; second : Z; microsecond : Z
}.

Definition dt_fields (d : datetime) : list Z :=
  [year d; month d; day d; hour d; minute d; second d; microsecond d].

Fixpoint lex_compare (a b : list Z) : comparison :=
  match a, b with
  | [], [] => Eq
  | [], _ :: _ => Lt
  | _ :: _, [] => Gt
  | x :: a', y :: b' =>
      match Z.compare x y with
      | Eq => lex_compare a' b'
      | c => c
      end
  end.

Definition dt_compare (a b : datetime) : comparison :=
  lex_compare (dt_fields a) (dt_fields b).
(** [a <= b], [a < b] on datetimes *)
Definition dt_leb (a b : datetime) : bool :=
  match dt_compare a b with Gt => false | _ => true end.
Definition dt_ltb (a b : datetime) : bool :=
  match dt_compare a b with Lt => true | _ => false end.

(** [datetime(y, m, 1)]: what [strptime] returns for a month and a year. *)
Definition first_of_month (y m : Z) : datetime := DateTime y m 1 0 0 0 0.

Definition is_leap (y : Z) : bool :=
  (Z.eqb (y mod 4) 0 && negb (Z.eqb (y mod 100) 0)) || Z.eqb (y mod 400) 0.

Definition days_in_month (y m : Z) : Z :=
  if Z.eqb m 2 then (if is_leap y then 29 else 28)
  else if Z.eqb m 4 || Z.eqb m 6 || Z.eqb m 9 || Z.eqb m 11 then 30
  else 31.

(** [dt + relativedelta(months=n)]: the month moves by [n], the day is
    clipped to the length of the target month. *)
Definition add_months (dt : datetime) (n : Z) : datetime :=
  let total := year dt * 12 + (month dt - 1) + n in
  let y := total / 12 in
  let m := total mod 12 + 1 in
  DateTime y m (Z.min (day dt) (days_in_month y m))
           (hour dt) (minute dt) (second dt) (microsecond dt).

(** The signed number of whole months of [relativedelta(dt1, dt2)]: the
    difference of the calendar months, moved one month towards zero when
    [dt2] plus that many months passes [dt1]. *)
Definition whole_months (dt1 dt2 : datetime) : Z :=
  let months := (year dt1 - year dt2) * 12 + (month dt1 - month dt2) in
  let dtm := add_months dt2 months in
  if dt_ltb dt1 dt2
  then (if dt_ltb dtm dt1 then months + 1 else months)
  else (if dt_ltb dt1 dtm then months - 1 else months).

(** The fields [years] and [months] of [relativedelta(dt1, dt2)]; both carry
    the sign of the difference. *)
Record relativedelta_t : Type := RelDelta { years : Z; months : Z }.
Definition relativedelta (dt1 dt2 : datetime) : relativedelta_t :=
  let n := whole_months dt1 dt2 in
  RelDelta (Z.quot n 12) (Z.rem n 12).

(** *** Decimal numbers *)

Fixpoint N_digits (fuel : nat) (n : N) (acc : text) : text :=
  match fuel with
  | O => acc
  | S f =>
      let acc' := (48 + n mod 10)%N :: acc in
      if N.eqb (n / 10) 0%N then acc' else N_digits f (n / 10)%N acc'
  end.
(** [str(n)] *)
Definition N_to_text (n : N) : text := N_digits (S (N.to_nat (N.log2 n))) n [].
Definition Z_to_text (z : Z) : text :=
  if Z.ltb z 0 then 45%N :: N_to_text (Z.to_N (- z)) else N_to_text (Z.to_N z).
(** [int(s)] on decimal digits *)
Definition int_of_digits (s : text) : Z :=
  fold_left (fun acc c => acc * 10 + digit_value c) s 0.

(** *** The date-range pattern (lines 1014-1021, IGNORECASE) *)

Definition month_alternatives : list regex :=
  [ Seq (lit_i (str "Jan")) (Opt (lit_i (str "uary")));
    Seq (lit_i (str "Feb")) (Opt (lit_i (str "ruary")));
    Seq (lit_i (str "Mar")) (Opt (lit_i (str "ch")));
    Seq (lit_i (str "Apr")) (Opt (lit_i (str "il")));
    lit_i (str "May");
    Seq (lit_i (str "Jun")) (Opt (lit_i (str "e")));
    Seq (lit_i (str "Jul")) (Opt (lit_i (str "y")));
    Seq (lit_i (str "Aug")) (Opt (lit_i (str "ust")));
    seqs [lit_i (str "Sep"); Opt (lit_i (str "t")); Opt (lit_i (str "ember"))];
    Seq (lit_i (str "Oct")) (Opt (lit_i (str "ober")));
    Seq (lit_i (str "Nov")) (Opt (lit_i (str "ember")));
    Seq (lit_i (str "Dec")) (Opt (lit_i (str "ember")));
    (* \d{1,2}[-/] *)
    Seq (rep_range 1%nat 2%nat digit) (one_of (str "-/")) ].

Definition G_START : nat := 1%nat.
Definition G_END : nat := 2%nat.

Definition date_range_pattern : regex :=
  seqs [
    Group G_START
      (Alt (seqs [alts month_alternatives; Star ws; rep 4%nat digit]) (rep 4%nat digit));
    Star ws;
    alts [lit_i (str "to"); chr EN_DASH; chr 45%N; chr EM_DASH;
          lit_i (str "until"); lit_i (str "upto"); lit_i (str "through")];
    Star ws;
    Group G_END
      (alts [seqs [alts (lit_i (str "Present") :: lit_i (str "Now")
                         :: month_alternatives);
                   Star ws; rep 4%nat digit];
             rep 4%nat digit; lit_i (str "Present"); lit_i (str "Now")]) ].

(** *** [parse_date] (lines 1023-1030) and [datetime.strptime] *)

Definition abbr_months : list text :=
  map str ["jan"; "feb"; "mar"; "apr"; "may"; "jun";
           "jul"; "aug"; "sep"; "oct"; "nov"; "dec"]%string.
Definition full_months : list text :=
  map str ["january"; "february"; "march"; "april"; "may"; "june"; "july";
           "august"; "september"; "october"; "november"; "december"]%string.

(** The directives [%b], [%B], [%m], [%Y] and the blank of a format, as the
    patterns [strptime] compiles them to (IGNORECASE). *)
Definition G_MONTH : nat := 1%nat.
Definition G_YEAR : nat := 2%nat.
Definition dir_names (names : list text) : regex := Group G_MONTH (alts (map lit_i names)).
Definition dir_m : regex :=
  Group G_MONTH (alts [Seq (chr 49%N) (Cls (in_range 48 50));
                       Seq (chr 48%N) (Cls (in_range 49 57));
                       Cls (in_range 49 57)]).
Definition dir_Y : regex := Group G_YEAR (rep 4%nat digit).

Fixpoint index_of (x : text) (xs : list text) (i : Z) : option Z :=
  match xs with
  | [] => None
  | y :: ys => if text_eqb x y then Some i else index_of x ys (i + 1)
  end.

Inductive month_reading : Type :=
| ByName (names : list text)   (* %b, %B *)
| ByNumber                     (* %m *)
| NoMonth.                     (* month defaults to 1 *)

(** [datetime.strptime(s, fmt)] for a format made of one optional month
    directive and [%Y]: the pattern must match at the start and consume
    the whole string, and the year must be at least 1; [None] stands for
    the [ValueError]. *)
Definition strptime (fmt : regex) (how : month_reading) (s : text) : option datetime :=
  match re_match fmt s with
  | Some st =>
      if is_empty (rest st) then
        match group G_YEAR (caps st) with
        | Some ytxt =>
            let y := int_of_digits ytxt in
            if Z.ltb y 1 then None else
            match how with
            | NoMonth => Some (first_of_month y 1)
            | ByNumber =>
                match group G_MONTH (caps st) with
                | Some mtxt => Some (first_of_month y (int_of_digits mtxt))
                | None => None
                end
            | ByName names =>
                match group G_MONTH (caps st) with
                | Some mtxt =>
                    match index_of (lower mtxt) names 1 with
                    | Some m => Some (first_of_month y m)
                    | None => None
                    end
                | None => None
                end
            end
        | None => None
        end
      else None
  | None => None
  end.

(** [r"\bSept\b"], IGNORECASE *)
Definition RE_SEPT : regex := seqs [WordB; lit_i (str "Sept"); WordB].

Definition date_formats : list (regex * month_reading) :=
  [ (seqs [dir_names abbr_months; Plus ws; dir_Y], ByName abbr_months);   (* "%b %Y" *)
    (seqs [dir_names full_months; Plus ws; dir_Y], ByName full_months);   (* "%B %Y" *)
    (seqs [dir_m; chr 47%N; dir_Y], ByNumber);                            (* "%m/%Y" *)
    (seqs [dir_m; chr 45%N; dir_Y], ByNumber);                            (* "%m-%Y" *)
    (dir_Y, NoMonth) ].                                                   (* "%Y" *)

Fixpoint first_format (fmts : list (regex * month_reading)) (s : text) : option datetime :=
  match fmts with
  | [] => None
  | (fmt, how) :: rest =>
      match strptime fmt how s with
      | Some d => Some d
      | None => first_format rest s
      end
  end.

Definition parse_date (date_str : text) : option datetime :=
  let s := strip (sub RE_SEPT (str "Sep") date_str) in
  first_format date_formats s.

(** *** The intervals (lines 1032-1045) *)

(** [r'present|now'], IGNORECASE *)
Definition RE_PRESENT : regex := Alt (lit_i (str "present")) (lit_i (str "now")).

Definition interval : Type := (datetime * datetime)%type.

(** The two named groups of every match of the pattern, stripped. *)
Definition date_ranges (experience_text : text) : list (text * text) :=
  map (fun cs =>
         (strip (match group G_START cs with Some t => t | None => [] end),
          strip (match group G_END cs with Some t => t | None => [] end)))
      (finditer date_range_pattern experience_text).

(** Lines 1038-1039 *)
Definition parse_range (now : datetime) (r : text * text)
  : option datetime * option datetime :=
  let (start_str, end_str) := r in
  (parse_date start_str,
   if found RE_PRESENT end_str then Some now else parse_date end_str).

(** Lines 1040-1045: the interval is kept when both ends parsed, the end
    is not before the start, the start year is at least 1980 and the years
    are at most 20 apart. *)
Definition keep_interval (p : option datetime * option datetime) : option interval :=
  match p with
  | (Some start_dt, Some end_dt) =>
      if dt_leb start_dt end_dt then
        if Z.ltb (year start_dt) 1980 then None
        else if Z.ltb 20 (year end_dt - year start_dt) then None
        else Some (start_dt, end_dt)
      else None
  | _ => None
  end.

Fixpoint collect_intervals (now : datetime) (rs : list (text * text)) : list interval :=
  match rs with
  | [] => []
  | r :: rs' =>
      match keep_interval (parse_range now r) with
      | Some iv => iv :: collect_intervals now rs'
      | None => collect_intervals now rs'
      end
  end.

(** *** Sorting and merging (lines 1050-1060) *)

(** [list.sort(key=...)] is stable: an element is inserted before the
    first element of the sorted tail whose key is not smaller. *)
Fixpoint insert_by_start (x : interval) (l : list interval) : list interval :=
  match l with
  | [] => [x]
  | y :: l' =>
      if dt_leb (fst x) (fst y) then x :: l else y :: insert_by_start x l'
  end.
Fixpoint sort_by_start (l : list interval) : list interval :=
  match l with
  | [] => []
  | x :: l' => insert_by_start x (sort_by_start l')
  end.

(** The state of the merging loop: [merged], [cur_s], [cur_e]. *)
Definition merge_step (st : list interval * datetime * datetime) (iv : interval)
  : list interval * datetime * datetime :=
  let '(merged, cur_s, cur_e) := st in
  let (s, e) := iv in
  if dt_leb s cur_e
  then (if dt_ltb cur_e e then (merged, cur_s, e) else (merged, cur_s, cur_e))
  else (merged ++ [(cur_s, cur_e)], s, e).

(** Lines 1051-1060, for a non-empty sorted list. *)
Definition merge_intervals (first : interval) (others : list interval) : list interval :=
  let '(merged, cur_s, cur_e) :=
    fold_left merge_step others ([], fst first, snd first) in
  merged ++ [(cur_s, cur_e)].

(** *** The total (lines 1062-1075) *)

Definition delta_months (e s : datetime) : Z :=
  let delta := relativedelta e s in years delta * 12 + months delta.

Definition sum_months (merged : list interval) : Z :=
  fold_left (fun total iv => total + delta_months (snd iv) (fst iv)) merged 0.

(** [f"{years} years and {months} months"] *)
Definition format_experience (y m : Z) : text :=
  Z_to_text y ++ str " years and " ++ Z_to_text m ++ str " months".

(** Lines 1067-1075: the two caps, then floor division and remainder. *)
Definition capped_months (now : datetime) (merged : list interval) : Z :=
  match merged with
  | [] => 0
  | (earliest, _) :: _ =>
      let total_months := sum_months merged in
      let max_months := delta_months now earliest in
      let total_months := Z.min total_months max_months in
      Z.min total_months (50 * 12)
  end.

(** Lines 1050-1060: [merged] for a non-empty list of intervals. *)
Definition merged_of (intervals : list interval) : list interval :=
  match sort_by_start intervals with
  | [] => []
  | first :: others => merge_intervals first others
  end.

Definition total_from_intervals (now : datetime) (intervals : list interval) : text :=
  match intervals with
  | [] => str "0 years and 0 months"
  | _ :: _ =>
      let total_months := capped_months now (merged_of intervals) in
      format_experience (total_months / 12) (total_months mod 12)
  end.

Definition experience_intervals (now : datetime) (experience_text : text) : list interval :=
  collect_intervals now (date_ranges experience_text).

(** [now] stands for [datetime.now()]. *)
Definition calculate_total_experience (now : datetime) (experience_text : text) : text :=
  total_from_intervals now (experience_intervals now experience_text).

Close Scope Z_scope.

(* ================================================================== *)
(** ** Skill extraction ([extract_skills], lines 732-839) *)
(* ================================================================== *)

Definition junk_keywords : list text := map str [
  "skills"; "tools"; "technologies"; "services"; "languages"; "systems"; "expertise";
  "responsibilities"; "projects"; "summary"; "roles"; "role"; "team"; "teams"; "functional";
  "applications"; "application"; "platforms"; "frameworks"; "experience"; "methodologies";
  "used"; "use"; "using"; "proficient"; "knowledge"; "worked"; "responsible"; "designing";
  "developing"; "testing"; "managing"; "created"; "performed"; "maintaining"; "executing";
  "engineer"; "engineered"; "helped"; "understanding"; "done"; "skills.";
  "communication"; "problem"; "teamwork"; "collaboration"; "leadership"; "interpersonal";
  "thinking"; "adaptability"; "attention"; "critical"; "self"; "fast"; "quick"; "learning";
  "and"; "between"; "to"; "from"; "till"; "since"; "before"; "after"; "year"; "years";
  "etc"; "etc."; "version"; "control"; "expert"; "company"; "client"; "project";
  "organization"; "details"; "working"; "environment"; "task"; "responsibility"; "objective"; "goal";
  "pune"; "mumbai"; "delhi"; "bangalore"; "hyderabad"; "chennai"; "kolkata"; "india";
  "maharashtra"; "karnataka"; "gujarat"; "rajasthan"; "tamil nadu"; "west bengal";
  "lecturer"; "professor"; "manager"; "developer"; "analyst"; "consultant"; "engineer";
  "coordinator"; "specialist"; "executive"; "officer"; "director"; "lead"; "senior"; "junior";
  "bank"; "coordination"; "organizational"; "confidently"; "typing"; "wpm";
  "english"; "hindi"; "marathi"; "tamil"; "telugu"; "gujarati"; "bengali" ]%string.

Definition TECH_TERMS : list text := map str [
  "aws"; "azure"; "gcp"; "docker"; "kubernetes"; "helm"; "terraform"; "ansible"; "jenkins"; "git"; "gitlab";
  "python"; "java"; "javascript"; "typescript"; "node.js"; "go"; "golang"; "ruby"; "php"; "c"; "c++"; "c#";
  "react"; "angular"; "vue"; "next.js"; "nuxt"; "redux"; "html"; "css"; "sass"; "less"; "bootstrap";
  "sql"; "mysql"; "postgresql"; "postgres"; "oracle"; "mongodb"; "hive"; "spark"; "hadoop"; "pyspark";
  "selenium"; "pytest"; "junit"; "testng"; "cypress"; "playwright"; "jmeter";
  "rest"; "rest api"; "graphql"; "soap"; "microservices"; "ci/cd"; "api";
  "pandas"; "numpy"; "scikit-learn"; "sklearn"; "tensorflow"; "pytorch"; "nlp"; "eda";
  "linux"; "windows"; "macos"; "bash"; "shell"; "powershell"; "jira"; "confluence";
  "sap"; "abap"; "hana"; "s/4hana"; "fico"; "mm"; "sd"; "pp"; "tableau"; "power bi";
  "spring"; "hibernate"; "maven"; "gradle"; "junit"; "mockito"; "kafka"; "redis";
  "elasticsearch"; "kibana"; "logstash"; "grafana"; "prometheus"; "splunk" ]%string.

Definition FORCE_UPPER : list text := map str [
  "SQL"; "HTML"; "CSS"; "AWS"; "GCP"; "EDA"; "CNN"; "RNN"; "QA"; "REST"; "CI/CD"; "API";
  "SAP"; "ABAP" ]%string.

Definition COMPANY_SUFFIXES : list text := map str [
  "technologies"; "solutions"; "labs"; "pvt"; "ltd"; "inc"; "llc"; "limited";
  "corporation"; "corp" ]%string.

Definition VERB_CLUES : list text := map str [
  "implemented"; "designed"; "developed"; "built"; "created"; "managed"; "led"; "leading";
  "owning"; "driving"; "improved"; "optimized"; "maintained"; "executed" ]%string.

(** [r"\b(Jan|Feb|...|December)\b"], IGNORECASE *)
Definition MONTHS_RE : regex :=
  seqs [WordB;
        Group 1 (alts (map (fun m => lit_i (str m)) [
          "Jan"; "Feb"; "Mar"; "Apr"; "May"; "Jun"; "Jul"; "Aug"; "Sep"; "Sept"; "Oct";
          "Nov"; "Dec"; "January"; "February"; "March"; "April"; "June"; "July"; "August";
          "September"; "October"; "November"; "December" ]%string));
        WordB].
(** [r"\b\d{4}\b"] *)
Definition RE_YEAR : regex := seqs [WordB; rep 4 digit; WordB].
(** [r"[A-Za-z0-9+#./_\- ]+"] *)
Definition RE_TOKEN_CHARS : regex :=
  Plus (Cls (fun c => in_range 65 90 c || in_range 97 122 c || in_range 48 57 c
                      || existsb (N.eqb c) (str "+#./_- "))).
(** [r"\d+"] *)
Definition RE_DIGITS : regex := Plus digit.
(** [r"(ing|ed)$"] *)
Definition RE_PARTICIPLE : regex :=
  Seq (Group 1 (Alt (lit (str "ing")) (lit (str "ed")))) (Eol false).
(** [r"\(.*?\)"] *)
Definition RE_PARENS : regex := seqs [chr 40%N; LazyStar dot; chr 41%N].
(** [r"[,;/|\n]"] *)
Definition RE_SEPARATORS : regex := one_of (str ",;/|" ++ [NL]).
(** [r":"] *)
Definition RE_COLON : regex := chr 58%N.
(** [r"\s+"] *)
Definition RE_WS_RUN : regex := Plus ws.

(** [w[:1]], [w[1:]] *)
Definition first_char (w : text) : text := firstn 1 w.
Definition after_first (w : text) : text := skipn 1 w.

(** [is_person_name], lines 775-781 *)
Definition is_person_name (s : text) : bool :=
  let words := filter (fun w => negb (is_empty w)) (Re.split RE_WS_RUN (strip s)) in
  if Nat.leb 2 (length words) && Nat.leb (length words) 4
     && forallb (fun w => str_isupper (first_char w) && str_islower (after_first w))
                (filter str_isalpha words)
  then negb (existsb (fun w => mem (lower w) TECH_TERMS) words)
  else false.

Section Skills.

(** [set(stopwords.words('english'))], the stop-word list of NLTK. *)
Variable stop_words_set : list text.

(** [is_short_tech_token], lines 787-812 *)
Definition is_short_tech_token (tok : text) : bool :=
  let t := strip tok in
  if is_empty t then false
  else if Nat.ltb 4 (length (split_ws t)) then false
  else if negb (is_some (fullmatch RE_TOKEN_CHARS t)) then false
  else if ends_with (str ".") t && Nat.ltb 3 (length (split_ws t)) then false
  else if found MONTHS_RE t || found RE_YEAR t then false
  else if mem (lower t) stop_words_set || mem (lower t) junk_keywords then false
  else if is_some (fullmatch RE_DIGITS t) then false
  else if Nat.eqb (length (split_ws t)) 1 && found RE_PARTICIPLE (lower t) then false
  else
    let parts := map lower (split_ws t) in
    if existsb (fun p => mem p COMPANY_SUFFIXES) parts then false
    else if match parts with p :: _ => mem p VERB_CLUES | [] => false end then false
    else if is_person_name t then false
    else true.

(** Lines 823-830: the casing of a token that passed the filter. *)
Definition skill_casing (val : text) : text :=
  let up := upper val in
  if mem up FORCE_UPPER || mem (lower val) TECH_TERMS then up
  else if Nat.ltb 1 (length (split_ws val))
       then join [SP]
              (map (fun w => if mem (lower w) (map str ["ci/cd"; "api"; "sql"]%string)
                             then upper w else title w)
                   (split_ws val))
       else title val.

(** Lines 818-830: the candidates of one piece between separators. *)
Definition skill_of_piece (sub : text) : list text :=
  let val := strip_chars (45%N :: BULLET :: [124%N]) (strip sub) in
  if is_empty val then []
  else if is_short_tech_token val then [skill_casing val]
  else [].

(** Lines 814-830 *)
Definition skill_candidates (txt : text) : list text :=
  flat_map (fun line =>
    let cleaned_line := Re.sub RE_PARENS [] line in
    flat_map (fun token => flat_map skill_of_piece (Re.split RE_COLON token))
             (Re.split RE_SEPARATORS cleaned_line))
    (filter (fun l => negb (is_empty (strip l))) (split_on NL txt)).

(** Lines 832-838: one round of the loop over [candidates]; the state is
    the set [seen] and the list [result]. *)
Definition dedup_step (st : list text * list text) (c : text) : list text * list text :=
  let (seen, result) := st in
  let key := lower c in
  if mem key seen then st else (key :: seen, result ++ [c]).

Definition dedup_skills (candidates : list text) : list text :=
  snd (fold_left dedup_step candidates ([], [])).

Definition extract_skills (txt : text) : list text :=
  dedup_skills (skill_candidates txt).

End Skills.

(* ================================================================== *)
(** ** Section segmentation ([extract_sections_with_pymupdf], lines 860-939) *)
(* ================================================================== *)

(** The page dictionary of PyMuPDF ([page.get_text("dict")]).  Sizes and
    coordinates are floats in the source; they are read here as the
    rationals they denote, on which comparison and [max] are exact. *)
Record span : Type := Span {
  span_text : text;           (* span.get("text", "") *)
  span_font : text;           (* span.get("font", "") *)
  span_size : option Q        (* float(span.get("size", 0)); None when it raises *)
}.
Definition line : Type := list span.                (* line.get("spans", []) *)
Record block : Type := Block {
  bbox_x0 : Q;                                      (* block["bbox"][0] *)
  bbox_y0 : Q;                                      (* block["bbox"][1] *)
  block_lines : option (list line)                  (* None: no "lines" key *)
}.
Record page : Type := Page {
  page_width : Q;                                   (* page.rect.width *)
  page_blocks : list block
}.
Definition document : Type := list page.

Definition Qltb (a b : Q) : bool := negb (Qle_bool b a).
(** [max(a, b)] *)
Definition Qmax_py (a b : Q) : Q := if Qltb a b then b else a.

Definition word_alts (ws : list string) : regex :=
  seqs [WordB; Group 1 (alts (map (fun w => lit_i (str w)) ws)); WordB].

(** [SECTION_PATTERNS], lines 860-868, in the order of the dictionary;
    every pattern is searched with IGNORECASE. *)
Definition SECTION_PATTERNS : list (text * regex) := [
  (str "education",
   word_alts ["education"; "academic"; "qualification"; "degree"]);
  (str "experience",
   word_alts ["experience"; "work"; "employment"; "job history";
              "professional background"]);
  (str "skills",
   word_alts ["Skills"; "skills"; "technical skills"; "key skills"; "competencies";
              "expertise"; "technologies"; "key skills "; "skills and expertise";
              "core skills"; "Skills"; "SKILLS"]);
  (str "projects", word_alts ["projects"; "portfolio"; "works"]);
  (str "certifications",
   word_alts ["certifications"; "certificates"; "accreditations"]);
  (str "summary",
   word_alts ["summary"; "profile"; "objective"; "about me"; "professional summary"]);
  (str "languages",
   word_alts ["language"; "languages"; "known languages"; "spoken languages"])
]%string.

(** A dictionary from section names to the lines collected so far, in
    insertion order. *)
Definition sections_dict : Type := list (text * list text).

(** Lines 878-879 *)
Definition initial_sections : sections_dict :=
  map (fun kp => (fst kp, [])) SECTION_PATTERNS ++ [(str "others", [])].

(** [d[key].append(v)]; [None] is the [KeyError] of a missing key. *)
Fixpoint dict_append (d : sections_dict) (key : text) (v : text) : option sections_dict :=
  match d with
  | [] => None
  | (k, vs) :: d' =>
      if text_eqb k key then Some ((k, vs ++ [v]) :: d')
      else match dict_append d' key v with
           | Some d'' => Some ((k, vs) :: d'')
           | None => None
           end
  end.

(** [d.get(key, default)] *)
Fixpoint dict_get {V : Type} (d : list (text * V)) (key : text) (default : V) : V :=
  match d with
  | [] => default
  | (k, v) :: d' => if text_eqb k key then v else dict_get d' key default
  end.

(** Lines 903-913: the text, boldness and largest font size of a line. *)
Definition span_step (acc : text * bool * Q) (sp : span) : text * bool * Q :=
  let '(line_text, is_bold, font_size) := acc in
  (line_text ++ span_text sp,
   is_bold || contains (str "bold") (lower (span_font sp)),
   match span_size sp with
   | Some x => Qmax_py font_size x
   | None => font_size
   end).
Definition line_info (ln : line) : text * bool * Q :=
  fold_left span_step ln ([], false, 0%Q).

(** Lines 920-925: the section a header line switches to: the line has at
    most 7 words and the first pattern that matches its lower-cased text
    while the line is bold or larger than 11pt names the section. *)
Definition header_section (line_text : text) (is_bold : bool) (font_size : Q)
  : option text :=
  if Nat.leb (length (split_ws line_text)) 7 then
    match find (fun kp => found (snd kp) (lower line_text)
                          && (is_bold || Qltb 11 font_size))
               SECTION_PATTERNS with
    | Some kp => Some (fst kp)
    | None => None
    end
  else None.

(** The state of the scan: [parsed_sections] and [current_section]. *)
Definition seg_state : Type := (sections_dict * text)%type.

(** Lines 902-927 for one line. *)
Definition process_line (st : seg_state) (ln : line) : option seg_state :=
  let (parsed_sections, current_section) := st in
  let '(line_text, is_bold, font_size) := line_info ln in
  let line_text := strip line_text in
  if is_empty line_text then Some st
  else
    let current_section :=
      match header_section line_text is_bold font_size with
      | Some section => section
      | None => current_section
      end in
    match dict_append parsed_sections current_section line_text with
    | Some parsed_sections => Some (parsed_sections, current_section)
    | None => None
    end.

Fixpoint process_lines (st : seg_state) (lns : list line) : option seg_state :=
  match lns with
  | [] => Some st
  | ln :: lns' =>
      match process_line st ln with
      | Some st' => process_lines st' lns'
      | None => None
      end
  end.

(** [sorted(col_blocks, key=lambda b: b["bbox"][1])], stable. *)
Fixpoint insert_by_y0 (b : block) (l : list block) : list block :=
  match l with
  | [] => [b]
  | b' :: l' =>
      if Qle_bool (bbox_y0 b) (bbox_y0 b') then b :: l else b' :: insert_by_y0 b l'
  end.
Fixpoint sort_by_y0 (l : list block) : list block :=
  match l with
  | [] => []
  | b :: l' => insert_by_y0 b (sort_by_y0 l')
  end.

Definition has_lines (b : block) : bool := is_some (block_lines b).

(** Lines 889-901: the lines of a page in reading order, left column
    first, each column top to bottom. *)
Definition page_lines (p : page) : list line :=
  let mid_x := (page_width p / 2)%Q in
  let blocks := filter has_lines (page_blocks p) in
  let left_col_blocks := filter (fun b => Qltb (bbox_x0 b) mid_x) blocks in
  let right_col_blocks := filter (fun b => negb (Qltb (bbox_x0 b) mid_x)) blocks in
  flat_map (fun b => match block_lines b with Some ls => ls | None => [] end)
           (sort_by_y0 left_col_blocks ++ sort_by_y0 right_col_blocks).

Definition document_lines (doc : document) : list line := flat_map page_lines doc.

(** Lines 931-936: [re.sub(r'\s+', ' ', line).strip()], empty lines dropped. *)
Definition clean_lines (lines : list text) : list text :=
  filter (fun l => negb (is_empty l))
         (map (fun l => strip (Re.sub RE_WS_RUN [SP] l)) lines).

(** Lines 930-939 *)
Definition final_sections (parsed_sections : sections_dict) : list (text * text) :=
  map (fun kv => (fst kv, join [NL] (clean_lines (snd kv)))) parsed_sections.

(** [doc] is what [fitz.open(file_path)] returned. *)
Definition extract_sections_with_pymupdf (doc : document) : option (list (text * text)) :=
  match process_lines (initial_sections, str "others") (document_lines doc) with
  | Some (parsed_sections, _) => Some (final_sections parsed_sections)
  | None => None
  end.

(** *** The text-only fallback ([naive_split_sections_from_text], lines 988-1010) *)

(** [str.splitlines()] *)
Definition is_linebreak (c : char) : bool :=
  in_range 10 13 c || in_range 28 30 c || N.eqb c 133 || N.eqb c 8232 || N.eqb c 8233.

Fixpoint splitlines_from (cur : text) (s : text) : list text :=
  match s with
  | [] => match cur with [] => [] | _ => [List.rev cur] end
  | c :: t =>
      if N.eqb c CR then
        match t with
        | c2 :: t2 =>
            if N.eqb c2 NL then List.rev cur :: splitlines_from [] t2
            else List.rev cur :: splitlines_from [] t
        | [] => [List.rev cur]
        end
      else if is_linebreak c then List.rev cur :: splitlines_from [] t
      else splitlines_from (c :: cur) t
  end.
Definition splitlines (s : text) : list text := splitlines_from [] s.

(** One round of the loop of lines 995-1004: a line that matches a pattern
    switches the section and is skipped ([continue]). *)
Definition naive_step (st : option seg_state) (ln : text) : option seg_state :=
  match st with
  | None => None
  | Some (buckets, current) =>
      match find (fun kp => found (snd kp) ln) SECTION_PATTERNS with
      | Some kp => Some (buckets, fst kp)
      | None =>
          match dict_append buckets current ln with
          | Some buckets' => Some (buckets', current)
          | None => None
          end
      end
  end.

Definition naive_split_sections_from_text (txt : text) : list (text * text) :=
  let lines := map strip (filter (fun l => negb (is_empty (strip l))) (splitlines txt)) in
  match fold_left naive_step lines (Some (initial_sections, str "others")) with
  | Some (buckets, _) => map (fun kv => (fst kv, join [NL] (snd kv))) buckets
  | None => map (fun kv => (fst kv, [])) initial_sections     (* except Exception *)
  end.

(* ================================================================== *)
(** ** The result assembler ([process_resume], lines 1078-1134) *)
(* ================================================================== *)

(** An exception of class [Exception]; [exn_str] is [str(e)]. *)
Record exn : Type := Exn { exn_str : text }.

(** A computation that returns a value or raises. *)
Inductive result (A : Type) : Type :=
| Ok (a : A)
| Raise (e : exn).
Arguments Ok {A} a.
Arguments Raise {A} e.

Definition bind {A B : Type} (c : result A) (f : A -> result B) : result B :=
  match c with
  | Ok a => f a
  | Raise e => Raise e
  end.

Notation "x <- c ;; k" := (bind c (fun x => k))
  (at level 61, c at next level, right associativity).

(** The record that [json.dumps] renders; [None] is JSON [null], and the
    key "error" is present only when [error] is [Some]. *)
Record PersonalInfo : Type := MkPersonalInfo {
  name : text;
  email : option text;
  phone : option text;
  linkedin : option text;
  github : option text;
  location : option text
}.
Record ResumeRecord : Type := MkResumeRecord {
  personalInfo : PersonalInfo;
  skills : list text;
  total_experience : text;
  error : option text
}.

(** [a or b] on strings *)
Definition str_or (a b : text) : text := if is_empty a then b else a.

(** Lines 1128-1133 *)
Definition fallback (message : text) : ResumeRecord :=
  MkResumeRecord
    (MkPersonalInfo (str "Unknown") None None None None None)
    [] (str "0 years and 0 months") (Some message).

Section Assembler.

(** The collaborators of [process_resume]: the two text engines, the
    contact and location extractors, the PDF library, the refined
    segmenter, the stop-word corpus and the clock.  Each call may raise. *)
Variable file_path : Type.
Variable get_combined_texts : file_path -> result (text * text * text).
Variable extract_email : text -> result (option text).
Variable extract_phone : text -> result (option text).
Variable extract_linkedin : text -> result (option text).
Variable extract_github : text -> result (option text).
Variable name_heuristics : list text -> text.
Variable extract_location : text -> result (option text).
Variable fitz_open : file_path -> result document.
Variable extract_sections_with_pymupdf_refined : file_path -> result (list (text * text)).
Variable stopwords_words : result (list text).
Variable now : datetime.

(** [extract_sections_with_pymupdf(file_path)]: open, then segment. *)
Definition sections_of_file (p : file_path) : result (list (text * text)) :=
  doc <- fitz_open p ;;
  match extract_sections_with_pymupdf doc with
  | Some d => Ok d
  | None => Raise (Exn (str "KeyError"))
  end.

(** Lines 1081-1126, the body of the [try]. *)
Definition process_resume_try (p : file_path) : result ResumeRecord :=
  texts <- get_combined_texts p ;;
  let '(combined, text_pdfplumber, text_pymupdf) := texts in
  email <- extract_email (str_or text_pdfplumber combined) ;;
  phone <- extract_phone (str_or text_pdfplumber combined) ;;
  linkedin <- extract_linkedin (str_or text_pdfplumber combined) ;;
  github <- extract_github (str_or text_pdfplumber combined) ;;
  let name :=
    verify_and_select_name
      (extract_name name_heuristics (str_or text_pdfplumber combined))
      (extract_name name_heuristics (str_or text_pymupdf combined)) in
  location <- extract_location (str_or text_pdfplumber combined) ;;
  sections_original <- sections_of_file p ;;
  let refined_skills_text :=
    match extract_sections_with_pymupdf_refined p with
    | Ok sections_refined => dict_get sections_refined (str "skills") []
    | Raise _ => []
    end in
  let skills_text :=
    str_or refined_skills_text (dict_get sections_original (str "skills") []) in
  stop_words <- stopwords_words ;;
  let skills := extract_skills stop_words skills_text in
  let total_exp :=
    calculate_total_experience now (dict_get sections_original (str "experience") []) in
  Ok (MkResumeRecord
        (MkPersonalInfo name email phone linkedin github location)
        skills
        (str_or total_exp (str "0 years and 0 months"))
        None).

(** Lines 1080-1134: the [try] with its [except Exception as e]. *)
Definition process_resume (p : file_path) : ResumeRecord :=
  match process_resume_try p with
  | Ok record => record
  | Raise e => fallback (exn_str e)
  end.

End Assembler.

(* ================================================================== *)
(** ** Text extraction (lines 37-141) *)
(* ================================================================== *)

(** [out[-1]] and [out[:-1]] of a non-empty list. *)
Definition last_and_init (out : list text) : option (text * list text) :=
  match List.rev out with
  | [] => None
  | l :: init_rev => Some (l, List.rev init_rev)
  end.

(** One round of the loop of [_dehyphenate_lines], lines 39-44. *)
Definition dehyphenate_step (out : list text) (ln : text) : list text :=
  match last_and_init out with
  | Some (prev_line, init) =>
      if ends_with (str "-") (rstrip prev_line) && str_islower (firstn 1 ln)
      then init ++ [removelast (rstrip prev_line) ++ lstrip ln]
      else out ++ [ln]
  | None => out ++ [ln]
  end.

(** [_dehyphenate_lines], lines 37-45 *)
Definition _dehyphenate_lines (lines : list text) : list text :=
  fold_left dehyphenate_step lines [].

(** Lines 88-93 and 127-132, shared by the two engines: the lines of all
    normalised page texts, dehyphenated, blank lines dropped, joined. *)
Definition join_pages (pages_text : list text) : text :=
  let joined := _dehyphenate_lines (flat_map splitlines pages_text) in
  join [NL] (filter (fun l => negb (is_empty (strip l))) joined).

(** What PyMuPDF gives for one page: [page.get_text("text") or ""] and
    [page.get_text("dict")], each [None] when the call raises. *)
Record page_source : Type := PageSource {
  text_mode : option text;
  dict_mode : option page
}.

(** Lines 108-121: one line per line of the dictionary that has a
    non-empty span, its non-empty span texts joined by spaces. *)
Definition dict_lines (p : page) : list text :=
  flat_map (fun b =>
    flat_map (fun ln =>
      match filter (fun s => negb (is_empty s)) (map span_text ln) with
      | [] => []
      | spans_text => [join [SP] spans_text]
      end)
      (match block_lines b with Some ls => ls | None => [] end))
    (page_blocks p).

(** Lines 105-124: the text of one page, normalised; the exception of
    mode B is swallowed (line 120), the one of mode A is not. *)
Definition pymupdf_page_text (p : page_source) : option text :=
  match text_mode p with
  | Some txt_a =>
      let txt_b_lines :=
        match dict_mode p with Some d => dict_lines d | None => [] end in
      let page_text :=
        if Nat.leb 20 (length (strip txt_a)) then txt_a
        else join [NL] txt_b_lines in
      Some (_normalize_text_block page_text)
  | None => None
  end.

(** The loop of lines 103-125: [None] when a page raises. *)
Fixpoint pymupdf_pages_text (pages : list page_source) : option (list text) :=
  match pages with
  | [] => Some []
  | p :: pages' =>
      match pymupdf_page_text p with
      | Some page_text =>
          match pymupdf_pages_text pages' with
          | Some pages_text => Some (page_text :: pages_text)
          | None => None
          end
      | None => None
      end
  end.

(** [extract_text_with_pymupdf], lines 98-134; the argument is what
    [fitz.open] gave, [None] when it raised.  Any exception gives the empty
    string (lines 133-134). *)
Definition extract_text_with_pymupdf (doc : option (list page_source)) : text :=
  match doc with
  | Some pages =>
      match pymupdf_pages_text pages with
      | Some pages_text => join_pages pages_text
      | None => []
      end
  | None => []
  end.

(** [get_combined_texts], lines 136-141, on the texts of the two engines. *)
Definition get_combined_texts (txt1 txt2 : text) : text * text * text :=
  (strip (txt1 ++ [NL] ++ txt2), txt1, txt2).

(* ================================================================== *)
(** ** Contact extraction (lines 597-652) *)
(* ================================================================== *)

(** [m = re.search(r, s)] followed by [m.group(0)]; the whole pattern is
    group 0. *)
Definition search_text (r : regex) (s : text) : option (text * list (nat * text)) :=
  match search (Group 0 r) s with
  | Some st =>
      match group 0 (caps st) with
      | Some whole => Some (whole, caps st)
      | None => None
      end
  | None => None
  end.

Definition is_ascii_alnum (c : char) : bool :=
  in_range 65 90 c || in_range 97 122 c || in_range 48 57 c.
Definition is_ascii_alpha (c : char) : bool :=
  in_range 65 90 c || in_range 97 122 c.

(** [r'[a-zA-Z0-9._%+-]+@[a-zA-Z0-9.-]+\.[a-zA-Z]+'] *)
Definition email_local (c : char) : bool :=
  is_ascii_alnum c || existsb (N.eqb c) (str "._%+-").
Definition email_domain (c : char) : bool :=
  is_ascii_alnum c || existsb (N.eqb c) (str ".-").
Definition RE_EMAIL : regex :=
  seqs [Plus (Cls email_local); chr 64%N; Plus (Cls email_domain); chr 46%N;
        Plus (Cls is_ascii_alpha)].

(** [extract_email], lines 597-599 *)
Definition extract_email (txt : text) : option text :=
  match search_text RE_EMAIL txt with
  | Some (whole, _) => Some whole
  | None => None
  end.

(** [[a-zA-Z0-9_-]] *)
Definition handle_char (c : char) : bool :=
  is_ascii_alnum c || existsb (N.eqb c) (str "_-").

(** Under IGNORECASE an ASCII letter of a pattern also matches the code
    points above U+00FF whose simple lower case is that letter (U+0130 for
    [i], U+212A for [k]) and its case equivalents (U+0131 for [i], U+017F
    for [s]); a class of all ASCII letters matches these four as well. *)
Definition chr_ic (c : char) : regex :=
  Cls (fun x => N.eqb (lower_c x) (lower_c c)
                || (N.eqb (lower_c c) 105 && (N.eqb x 304 || N.eqb x 305))
                || (N.eqb (lower_c c) 107 && N.eqb x 8490)
                || (N.eqb (lower_c c) 115 && N.eqb x 383)).
Definition lit_ic (s : text) : regex := seqs (map chr_ic s).
Definition handle_char_ic (c : char) : bool :=
  handle_char c || existsb (N.eqb c) [304; 305; 383; 8490]%N.

(** [r'(https?://)?(www\.)?(<site>/[a-zA-Z0-9_-]+)'] *)
Definition profile_url (site : string) : regex :=
  seqs [Opt (Group 1 (seqs [lit (str "http"); Opt (chr 115%N); lit (str "://")]));
        Opt (Group 2 (lit (str "www.")));
        Group 3 (Seq (lit (str site)) (Plus (Cls handle_char)))].
(** [r'<word>[:\s]*([a-zA-Z0-9_-]+)'], IGNORECASE *)
Definition profile_label (word : string) : regex :=
  seqs [lit_ic (str word); Star (Cls (fun c => N.eqb c 58%N || isspace c));
        Group 1 (Plus (Cls handle_char_ic))].

(** [extract_linkedin], lines 632-641 *)
Definition extract_linkedin (txt : text) : option text :=
  match search_text (profile_url "linkedin.com/in/") txt with
  | Some (url, _) =>
      Some (if starts_with (str "http") url then url else str "https://" ++ url)
  | None =>
      match search_text (profile_label "linkedin") txt with
      | Some (_, cs) =>
          match group 1 cs with
          | Some username => Some (str "https://www.linkedin.com/in/" ++ username)
          | None => None
          end
      | None => None
      end
  end.

(** [extract_github], lines 643-652 *)
Definition extract_github (txt : text) : option text :=
  match search_text (profile_url "github.com/") txt with
  | Some (url, _) =>
      Some (if negb (starts_with (str "http") url) then str "https://" ++ url else url)
  | None =>
      match search_text (profile_label "github") txt with
      | Some (_, cs) =>
          match group 1 cs with
          | Some username => Some (str "https://github.com/" ++ username)
          | None => None
          end
      | None => None
      end
  end.

(* ================================================================== *)
(** ** The batch driver (lines 1137-1199) *)
(* ================================================================== *)

(** [r"[^A-Za-z0-9]+"] *)
Definition RE_NON_ALNUM : regex := Plus (Cls (fun c => negb (is_ascii_alnum c))).

(** Lines 1160-1167: the stem of the JSON file written for a resume, from
    the extracted name and the PDF's file name without extension. *)
Definition safe_name (name base_no_ext : text) : text :=
  let extracted_name := strip name in
  let extracted_name :=
    if is_empty extracted_name || text_eqb (lower extracted_name) (str "unknown")
    then base_no_ext else extracted_name in
  let safe := strip_chars (str "_") (sub RE_NON_ALNUM (str "_") extracted_name) in
  if is_empty safe then base_no_ext else safe.

Definition json_filename (name base_no_ext : text) : text :=
  safe_name name base_no_ext ++ str "_resume.json".

(* ================================================================== *)
(** ** The shape of a name (lines 384-426) *)
(* ================================================================== *)

(** [_clean_candidate], lines 397-401 *)
Definition _clean_candidate (line : text) : text :=
  let cand := strip line in
  let cand := sub RE_WS_RUN [SP] cand in
  strip_chars (BULLET :: str "|-_" ++ EM_DASH :: str ":;") cand.

(** [[A-Z]], [[a-z]] *)
Definition upper_az : regex := Cls (in_range 65 90).
Definition lower_az : regex := Cls (in_range 97 122).
(** [[A-Z][a-z]+] *)
Definition title_word : regex := Seq upper_az (Plus lower_az).

(** [TITLE_NAME_RE], lines 384-391 (VERBOSE): two to six capitalised
    words, or two to six words in capitals, or one to three initials and
    one or two capitalised words. *)
Definition TITLE_NAME_RE : regex :=
  seqs [Bol false;
        Group 1 (alts [
          Seq title_word (rep_range 1 5 (Seq (Plus ws) title_word));
          Seq (rep_min 2 upper_az)
              (rep_range 1 5 (Seq (Plus ws) (rep_min 2 upper_az)));
          seqs [rep_range 1 3 (seqs [upper_az; chr 46%N; Star ws]);
                title_word;
                Opt (Seq (Plus ws) title_word)] ]);
        Eol false].

(** [r"[^A-Za-z .'\-]"] *)
Definition RE_NOT_NAME_CHAR : regex :=
  Cls (fun c => negb (is_ascii_alpha c || existsb (N.eqb c) (str " .'-"))).

(** [_is_name_shape], lines 420-426 *)
Definition _is_name_shape (s : text) : bool :=
  let s := _clean_candidate s in
  if Nat.ltb (length s) 2 || Nat.ltb 120 (length s) then false
  else if found RE_NOT_NAME_CHAR s then false
  else is_some (re_match TITLE_NAME_RE s).

(* ================================================================== *)
(** * Properties *)
(* ================================================================== *)

(** ** Strings *)

Lemma text_eqb_spec (a b : text) : reflect (a = b) (text_eqb a b).
Proof.
  revert b; induction a as [|x a IH]; intros [|y b]; simpl;
    try (constructor; congruence).
  destruct (N.eqb_spec x y) as [->|Hxy]; simpl.
  - destruct (IH b) as [->|Hab]; constructor; congruence.
  - constructor; congruence.
Qed.

Lemma text_eqb_eq (a b : text) : text_eqb a b = true <-> a = b.
Proof. destruct (text_eqb_spec a b); split; congruence. Qed.

Lemma text_eqb_refl (a : text) : text_eqb a a = true.
Proof. apply text_eqb_eq; reflexivity. Qed.

Lemma mem_In (x : text) (xs : list text) : mem x xs = true <-> In x xs.
Proof.
  unfold mem; rewrite existsb_exists; split.
  - intros (y & Hy & E). apply text_eqb_eq in E. subst; assumption.
  - intros H. exists x; split; [assumption | apply text_eqb_refl].
Qed.

(* ------------------------------------------------------------------ *)
(** *** Facts about the matcher *)

Module ReFacts.
Import Re.

(** The continuation only ever sees a suffix of the text at the cursor. *)
Lemma rmatch_suffix (A : Type) (r : regex) :
  forall (st : mstate) (k : mstate -> option A) (a : A),
    rmatch r st k = Some a ->
    exists st', k st' = Some a /\ exists pre, rest st = pre ++ rest st'.
Proof.
  induction r as [|p|r1 IH1 r2 IH2|r1 IH1 r2 IH2|r1 IH1|r1 IH1|ml|ml| |n r1 IH1];
    intros st k a H; simpl in H.
  - exists st; split; [assumption | exists []; reflexivity].
  - destruct (rest st) as [|c t] eqn:E; [discriminate|].
    destruct (p c); [|discriminate].
    exists (advance c t st); split; [assumption|]. exists [c]. reflexivity.
  - apply IH1 in H. destruct H as (st1 & H & pre1 & E1).
    apply IH2 in H. destruct H as (st2 & H & pre2 & E2).
    exists st2; split; [assumption|]. exists (pre1 ++ pre2).
    rewrite E1, E2, app_assoc. reflexivity.
  - destruct (rmatch r1 st k) eqn:E.
    + inversion H; subst. eapply IH1; eassumption.
    + eapply IH2; eassumption.
  - remember (length (rest st)) as fuel eqn:Ef. clear Ef.
    revert st H. induction fuel as [|f IHf]; intros st H.
    + exists st; split; [assumption | exists []; reflexivity].
    + destruct (rmatch r1 st _) eqn:E in H.
      * inversion H; subst. apply IH1 in E. destruct E as (st1 & E & pre1 & E1).
        destruct (Nat.ltb _ _); [|discriminate].
        apply IHf in E. destruct E as (st2 & E & pre2 & E2).
        exists st2; split; [assumption|]. exists (pre1 ++ pre2).
        rewrite E1, E2, app_assoc. reflexivity.
      * exists st; split; [assumption | exists []; reflexivity].
  - remember (length (rest st)) as fuel eqn:Ef. clear Ef.
    revert st H. induction fuel as [|f IHf]; intros st H.
    + destruct (k st) eqn:E; [|discriminate].
      exists st; split; [congruence | exists []; reflexivity].
    + destruct (k st) eqn:E.
      * exists st; split; [congruence | exists []; reflexivity].
      * apply IH1 in H. destruct H as (st1 & H & pre1 & E1).
        destruct (Nat.ltb _ _); [|discriminate].
        apply IHf in H. destruct H as (st2 & H & pre2 & E2).
        exists st2; split; [assumption|]. exists (pre1 ++ pre2).
        rewrite E1, E2, app_assoc. reflexivity.
  - destruct (at_bol ml st); [|discriminate].
    exists st; split; [assumption | exists []; reflexivity].
  - destruct (at_eol ml st); [|discriminate].
    exists st; split; [assumption | exists []; reflexivity].
  - destruct (at_wordb st); [|discriminate].
    exists st; split; [assumption | exists []; reflexivity].
  - apply IH1 in H. destruct H as (st1 & H & pre1 & E1).
    eexists; split; [exact H|]. exists pre1. simpl. assumption.
Qed.

Lemma match_here_suffix (r : regex) (p : option char) (s : text) (st : mstate) :
  match_here r p s = Some st -> exists pre, s = pre ++ rest st.
Proof.
  unfold match_here. intros H. apply rmatch_suffix in H.
  destruct H as (st' & H & pre & E). inversion H; subst. exists pre. exact E.
Qed.

(** Unfolding a greedy star over a one-character class. *)
Lemma rmatch_star_cls (A : Type) (p : char -> bool) (st : mstate)
    (k : mstate -> option A) :
  rmatch (Star (Cls p)) st k =
  match rest st with
  | c :: t =>
      if p c
      then match rmatch (Star (Cls p)) (advance c t st) k with
           | Some a => Some a
           | None => k st
           end
      else k st
  | [] => k st
  end.
Proof.
  destruct st as [pv [|c t] cs]; simpl; [reflexivity|].
  destruct (p c); [|reflexivity].
  simpl. rewrite (proj2 (Nat.ltb_lt _ _) (Nat.lt_succ_diag_r _)). reflexivity.
Qed.

End ReFacts.
(* ------------------------------------------------------------------ *)
(** *** Facts about [sub] *)

Module SubFacts.
Import Re ReFacts.

(** No match starts at any cursor position of [s]. *)
Fixpoint nomatch_all (r : regex) (p : option char) (s : text) : Prop :=
  match_here r p s = None /\
  match s with
  | [] => True
  | c :: t => nomatch_all r (Some c) t
  end.

Lemma sub_loop_nomatch (r : regex) (repl : text) :
  forall (s : text) (fuel : nat) (p : option char),
    nomatch_all r p s -> sub_loop r repl fuel p s = s.
Proof.
  induction s as [|c t IH]; intros [|f] p [H1 H2]; simpl; try reflexivity.
  - rewrite H1. reflexivity.
  - rewrite H1. f_equal. apply IH. exact H2.
Qed.

Lemma sub_nomatch (r : regex) (repl : text) (s : text) :
  nomatch_all r None s -> sub r repl s = s.
Proof. apply sub_loop_nomatch. Qed.

(** A property of single characters shared by the text and the
    replacement is shared by the result. *)
Lemma sub_loop_Forall (P : char -> Prop) (r : regex) (repl : text) :
  Forall P repl ->
  forall (fuel : nat) (p : option char) (s : text),
    Forall P s -> Forall P (sub_loop r repl fuel p s).
Proof.
  intros Hrepl. induction fuel as [|f IH]; intros p s Hs; simpl; [assumption|].
  destruct (match_here r p s) as [st|] eqn:E.
  - destruct (Nat.ltb _ _).
    + apply Forall_app; split; [assumption|]. apply IH.
      apply match_here_suffix in E. destruct E as (pre & E).
      rewrite E in Hs. apply Forall_app in Hs. tauto.
    + destruct s as [|c t]; [assumption|].
      apply Forall_app; split; [assumption|].
      inversion Hs; subst. constructor; [assumption|]. apply IH. assumption.
  - destruct s as [|c t]; [constructor|].
    inversion Hs; subst. constructor; [assumption|]. apply IH. assumption.
Qed.

Lemma sub_Forall (P : char -> Prop) (r : regex) (repl s : text) :
  Forall P repl -> Forall P s -> Forall P (sub r repl s).
Proof. intros; apply sub_loop_Forall; assumption. Qed.

(** Substituting for a one-character class removes the class. *)
Lemma sub_loop_cls (p : char -> bool) (repl : text) :
  Forall (fun c => p c = false) repl ->
  forall (s : text) (fuel : nat) (q : option char),
    length s < fuel ->
    Forall (fun c => p c = false) (sub_loop (Cls p) repl fuel q s).
Proof.
  intros Hrepl. induction s as [|c t IH]; intros [|f] q Hf; simpl in *; try lia.
  - constructor.
  - unfold match_here; simpl. destruct (p c) eqn:E.
    + rewrite (proj2 (Nat.ltb_lt _ _) (Nat.lt_succ_diag_r _)).
      apply Forall_app; split; [assumption|]. apply IH. lia.
    + constructor; [assumption|]. apply IH. lia.
Qed.

End SubFacts.

(* ------------------------------------------------------------------ *)
(** ** The text normaliser *)

Module NormalizeFacts.
Import Re ReFacts SubFacts.

(** No two adjacent white-space characters. *)
Fixpoint no_adj_ws (s : text) : Prop :=
  match s with
  | c1 :: ((c2 :: _) as t) => ~ (isspace c1 = true /\ isspace c2 = true) /\ no_adj_ws t
  | _ => True
  end.

(** None of the characters the normaliser rewrites to a space. *)
Definition plain (c : char) : Prop := c <> NBSP /\ c <> TAB /\ c <> CR.

(** The head of the text is not white space. *)
Definition head_nonspace (s : text) : Prop :=
  match s with
  | c :: _ => isspace c = false
  | [] => True
  end.

Lemma no_adj_ws_tail (c : char) (t : text) : no_adj_ws (c :: t) -> no_adj_ws t.
Proof. destruct t; simpl; tauto. Qed.

Lemma no_adj_ws_cons (c : char) (t : text) :
  (isspace c = true -> head_nonspace t) -> no_adj_ws t -> no_adj_ws (c :: t).
Proof.
  destruct t as [|c2 t]; simpl; [tauto|]. intros H Ht. split; [|assumption].
  intros [H1 H2]. specialize (H H1). congruence.
Qed.



(** *** Stripping *)

Lemma lstrip_by_suffix (p : char -> bool) (s : text) :
  exists pre, s = pre ++ lstrip_by p s.
Proof.
  induction s as [|c t [pre IH]]; simpl.
  - exists []; reflexivity.
  - destruct (p c).
    + exists (c :: pre). simpl. congruence.
    + exists []; reflexivity.
Qed.

Lemma rstrip_by_prefix (p : char -> bool) (s : text) :
  exists post, s = rstrip_by p s ++ post.
Proof.
  unfold rstrip_by. destruct (lstrip_by_suffix p (rev s)) as [pre E].
  exists (rev pre). rewrite <- rev_app_distr, <- E, rev_involutive. reflexivity.
Qed.

Lemma lstrip_by_head (p : char -> bool) (s : text) :
  match lstrip_by p s with c :: _ => p c = false | [] => True end.
Proof.
  induction s as [|c t IH]; simpl; [exact I|].
  destruct (p c) eqn:E; [exact IH | exact E].
Qed.

Lemma lstrip_by_fix (p : char -> bool) (s : text) :
  match s with c :: _ => p c = false | [] => True end -> lstrip_by p s = s.
Proof. destruct s as [|c t]; simpl; [reflexivity|]. intros ->. reflexivity. Qed.

Lemma lstrip_by_snoc (p : char -> bool) (a : text) (c : char) :
  p c = false -> lstrip_by p (a ++ [c]) = lstrip_by p a ++ [c].
Proof.
  intros Hc. induction a as [|x a IH]; simpl.
  - rewrite Hc. reflexivity.
  - destruct (p x); [exact IH | reflexivity].
Qed.

Lemma rstrip_by_cons (p : char -> bool) (c : char) (t : text) :
  p c = false -> rstrip_by p (c :: t) = c :: rstrip_by p t.
Proof.
  intros Hc. unfold rstrip_by. simpl.
  rewrite lstrip_by_snoc by assumption. rewrite rev_app_distr. reflexivity.
Qed.

Lemma rstrip_by_idem (p : char -> bool) (s : text) :
  rstrip_by p (rstrip_by p s) = rstrip_by p s.
Proof.
  unfold rstrip_by. rewrite rev_involutive. f_equal.
  apply lstrip_by_fix. apply lstrip_by_head.
Qed.

Lemma strip_by_idem (p : char -> bool) (s : text) :
  strip_by p (strip_by p s) = strip_by p s.
Proof.
  unfold strip_by.
  assert (H : lstrip_by p (rstrip_by p (lstrip_by p s)) = rstrip_by p (lstrip_by p s)).
  { pose proof (lstrip_by_head p s) as Hh.
    destruct (lstrip_by p s) as [|c t]; [reflexivity|].
    rewrite rstrip_by_cons by assumption. simpl. rewrite Hh. reflexivity. }
  rewrite H. apply rstrip_by_idem.
Qed.

Lemma strip_idem (s : text) : strip (strip s) = strip s.
Proof. apply strip_by_idem. Qed.


Lemma strip_Forall (P : char -> Prop) (s : text) : Forall P s -> Forall P (strip s).
Proof.
  intros H. unfold strip, strip_by.
  destruct (lstrip_by_suffix isspace s) as [pre E].
  rewrite E in H. apply Forall_app in H. destruct H as [_ H].
  destruct (rstrip_by_prefix isspace (lstrip_by isspace s)) as [post E'].
  rewrite E' in H. apply Forall_app in H. tauto.
Qed.

End NormalizeFacts.
Module NormalizeIdem.
Import Re ReFacts SubFacts NormalizeFacts.

Lemma rmatch_seq (A : Type) (r1 r2 : regex) (st : mstate) (k : mstate -> option A) :
  rmatch (Seq r1 r2) st k = rmatch r1 st (fun st' => rmatch r2 st' k).
Proof. reflexivity. Qed.

Lemma rmatch_cls (A : Type) (p : char -> bool) (st : mstate) (k : mstate -> option A) :
  rmatch (Cls p) st k =
  match rest st with
  | c :: t => if p c then k (advance c t st) else None
  | [] => None
  end.
Proof. reflexivity. Qed.

(** The text at the cursor starts with two white-space characters. *)
Definition two_ws_head (s : text) : bool :=
  match s with
  | c1 :: c2 :: _ => isspace c1 && isspace c2
  | _ => false
  end.

Lemma isspace_NL (c : char) : N.eqb NL c = true -> isspace c = true.
Proof. intros H. apply N.eqb_eq in H. subst. reflexivity. Qed.

Lemma trailing_ws_none (p : option char) (s : text) :
  two_ws_head s = false -> match_here RE_TRAILING_WS p s = None.
Proof.
  intros H. unfold match_here, RE_TRAILING_WS, Plus, ws, chr, start_state.
  rewrite !rmatch_seq, rmatch_cls. cbn [rest].
  destruct s as [|c1 t]; [reflexivity|].
  destruct (isspace c1) eqn:E1; [|reflexivity].
  rewrite rmatch_star_cls. cbn [rest advance].
  destruct t as [|c2 t]; [reflexivity|].
  simpl in H. rewrite E1 in H. simpl in H. rewrite H.
  rewrite rmatch_cls. unfold advance. cbn [rest].
  destruct (N.eqb NL c2) eqn:E2; [|reflexivity].
  apply isspace_NL in E2. congruence.
Qed.

Lemma blank_lines_none (p : option char) (s : text) :
  two_ws_head s = false -> match_here RE_BLANK_LINES p s = None.
Proof.
  intros H. unfold match_here, RE_BLANK_LINES, rep_min, rep, chr, start_state.
  rewrite !rmatch_seq, rmatch_cls. cbn [rest].
  destruct s as [|c1 t]; [reflexivity|].
  destruct (N.eqb NL c1) eqn:E1; [|reflexivity].
  rewrite rmatch_seq, rmatch_cls. cbn [rest advance].
  destruct t as [|c2 t]; [reflexivity|].
  destruct (N.eqb NL c2) eqn:E2; [|reflexivity].
  apply isspace_NL in E1, E2. simpl in H. rewrite E1, E2 in H. discriminate.
Qed.

Lemma spaces_none (p : option char) (s : text) :
  two_ws_head s = false -> match_here RE_SPACES p s = None.
Proof.
  intros H. unfold match_here, RE_SPACES, rep_min, rep, ws, start_state.
  rewrite !rmatch_seq, rmatch_cls. cbn [rest].
  destruct s as [|c1 t]; [reflexivity|].
  destruct (isspace c1) eqn:E1; [|reflexivity].
  rewrite rmatch_cls. cbn [rest advance].
  destruct t as [|c2 t]; [reflexivity|].
  simpl in H. rewrite E1 in H. simpl in H. rewrite H. reflexivity.
Qed.

Lemma star_cls_some (p : char -> bool) :
  forall (s : text) (pv : option char) (cs : list (nat * text)),
    exists pv', rmatch (Star (Cls p)) (MState pv s cs) (fun st => Some st)
                = Some (MState pv' (lstrip_by p s) cs).
Proof.
  induction s as [|c t IH]; intros pv cs; rewrite rmatch_star_cls; cbn [rest].
  - exists pv. reflexivity.
  - cbn [lstrip_by]. destruct (p c).
    + destruct (IH (Some c) cs) as [pv' E]. unfold advance. cbn [caps].
      rewrite E. exists pv'. reflexivity.
    + exists pv. reflexivity.
Qed.

Lemma spaces_some (p : option char) (c1 c2 : char) (t : text) :
  isspace c1 = true -> isspace c2 = true ->
  exists pv', match_here RE_SPACES p (c1 :: c2 :: t)
              = Some (MState pv' (lstrip_by isspace t) []).
Proof.
  intros E1 E2. unfold match_here, RE_SPACES, rep_min, rep, ws, start_state.
  rewrite !rmatch_seq, rmatch_cls. cbn [rest]. rewrite E1.
  rewrite rmatch_cls. cbn [rest advance]. rewrite E2. cbn [caps].
  apply star_cls_some.
Qed.

Lemma lstrip_by_length (p : char -> bool) (s : text) :
  length (lstrip_by p s) <= length s.
Proof.
  induction s as [|c t IH]; simpl; [lia|]. destruct (p c); simpl; lia.
Qed.

(** After the rule for runs of spaces no two white-space characters are
    adjacent. *)
Lemma spaces_loop_no_adj_ws :
  forall (fuel : nat) (s : text) (p : option char),
    length s < fuel ->
    no_adj_ws (sub_loop RE_SPACES [SP] fuel p s) /\
    (head_nonspace s -> head_nonspace (sub_loop RE_SPACES [SP] fuel p s)).
Proof.
  induction fuel as [|f IH]; intros s p Hf; [lia|].
  destruct (two_ws_head s) eqn:E2.
  - destruct s as [|c1 [|c2 t]]; try discriminate.
    simpl in E2. apply andb_true_iff in E2. destruct E2 as [E1 E2].
    destruct (spaces_some p c1 c2 t E1 E2) as [pv' E].
    cbn [sub_loop]. rewrite E. cbn [rest prev].
    pose proof (lstrip_by_length isspace t) as Hl.
    rewrite (proj2 (Nat.ltb_lt _ _)) by (simpl; lia).
    destruct (IH (lstrip_by isspace t) pv') as [H1 H2]; [simpl in Hf; lia|].
    split.
    + simpl app. apply no_adj_ws_cons; [|assumption].
      intros _. apply H2. exact (lstrip_by_head isspace t).
    + simpl. congruence.
  - cbn [sub_loop]. rewrite (spaces_none p s E2).
    destruct s as [|c t]; [simpl; tauto|].
    destruct (IH t (Some c)) as [H1 H2]; [simpl in Hf; lia|].
    split; [|simpl; tauto].
    apply no_adj_ws_cons; [|assumption].
    intros Hc. apply H2. destruct t as [|c2 t]; [exact I|].
    simpl in E2. rewrite Hc in E2. exact E2.
Qed.

Lemma no_adj_ws_two (s : text) : no_adj_ws s -> two_ws_head s = false.
Proof.
  destruct s as [|c1 [|c2 t]]; simpl; try reflexivity.
  intros [H _]. destruct (isspace c1), (isspace c2); try reflexivity. tauto.
Qed.

Lemma nomatch_all_two_ws (r : regex) :
  (forall p s, two_ws_head s = false -> match_here r p s = None) ->
  forall (s : text) (p : option char), no_adj_ws s -> nomatch_all r p s.
Proof.
  intros Hr. induction s as [|c t IH]; intros p Hs; simpl.
  - split; [apply Hr; reflexivity | exact I].
  - split; [apply Hr, no_adj_ws_two; assumption|].
    apply IH. eapply no_adj_ws_tail; eassumption.
Qed.

Lemma nomatch_all_tab_cr :
  forall (s : text) (p : option char), Forall plain s -> nomatch_all RE_TAB_CR p s.
Proof.
  induction s as [|c t IH]; intros p Hs; simpl.
  - split; [reflexivity | exact I].
  - inversion Hs as [|? ? Hc Ht]; subst. split; [|apply IH; assumption].
    unfold match_here, RE_TAB_CR, one_of. rewrite rmatch_cls. cbn [rest start_state].
    destruct Hc as (_ & H1 & H2). simpl.
    destruct (N.eqb_spec c TAB); [contradiction|].
    destruct (N.eqb_spec c CR); [contradiction|]. reflexivity.
Qed.

Lemma replace_nbsp_fix (s : text) : Forall plain s -> replace_nbsp s = s.
Proof.
  unfold replace_nbsp. induction 1 as [|c t Hc Ht IH]; simpl; [reflexivity|].
  rewrite IH. destruct Hc as (H & _). destruct (N.eqb_spec c NBSP); congruence.
Qed.

Lemma replace_nbsp_Forall (s : text) : Forall (fun c => c <> NBSP) (replace_nbsp s).
Proof.
  unfold replace_nbsp. induction s as [|c t IH]; simpl; constructor; try assumption.
  destruct (N.eqb_spec c NBSP); [discriminate | assumption].
Qed.

(** The white-space rules produce text of single white-space characters
    without non-breaking spaces, tabs or carriage returns... *)
Lemma normalize_ws_shape (s : text) :
  no_adj_ws (normalize_ws s) /\ Forall plain (normalize_ws s).
Proof.
  unfold normalize_ws. split.
  - apply (spaces_loop_no_adj_ws (S (length _)) _ None). lia.
  - apply sub_Forall; [repeat constructor; discriminate|].
    set (u := sub RE_BLANK_LINES _ _).
    assert (Hu : Forall (fun c => c <> NBSP) u).
    { unfold u. apply sub_Forall; [repeat constructor; discriminate|].
      apply sub_Forall; [repeat constructor; discriminate|].
      apply replace_nbsp_Forall. }
    assert (H1 : Forall (fun c => c <> NBSP) (sub RE_TAB_CR [SP] u)).
    { apply sub_Forall; [repeat constructor; discriminate | assumption]. }
    assert (H2 : Forall (fun c => existsb (N.eqb c) [TAB; CR] = false)
                   (sub RE_TAB_CR [SP] u)).
    { apply sub_loop_cls; [repeat constructor | lia]. }
    rewrite Forall_forall in *. intros c Hc.
    specialize (H1 c Hc). specialize (H2 c Hc). simpl in H2.
    repeat split; [assumption| |]; intros ->; discriminate.
Qed.

(** ... and leave such text unchanged. *)
Lemma normalize_ws_fix (t : text) :
  no_adj_ws t -> Forall plain t -> normalize_ws t = t.
Proof.
  intros H1 H2. unfold normalize_ws.
  rewrite (replace_nbsp_fix t H2).
  rewrite (sub_nomatch _ _ _ (nomatch_all_two_ws _ trailing_ws_none _ _ H1)).
  rewrite (sub_nomatch _ _ _ (nomatch_all_two_ws _ blank_lines_none _ _ H1)).
  rewrite (sub_nomatch _ _ _ (nomatch_all_tab_cr _ _ H2)).
  apply sub_nomatch. apply (nomatch_all_two_ws _ spaces_none). assumption.
Qed.

(** X3: the white-space rules are idempotent. *)
Lemma normalize_ws_idem (s : text) : normalize_ws (normalize_ws s) = normalize_ws s.
Proof. destruct (normalize_ws_shape s). apply normalize_ws_fix; assumption. Qed.


End NormalizeIdem.
(* ------------------------------------------------------------------ *)
(** *** What the matcher finds: a declarative reading of patterns *)

Module ReSpec.
Import Re ReFacts.

(** Iteration of a relation on states, every round consuming text. *)
Inductive star_rel (R : mstate -> mstate -> Prop) : mstate -> mstate -> Prop :=
| star_nil (st : mstate) : star_rel R st st
| star_step (st st1 st2 : mstate) :
    R st st1 -> length (rest st1) < length (rest st) ->
    star_rel R st1 st2 -> star_rel R st st2.

(** [Matches r st st']: the pattern [r] can take the cursor from [st] to
    [st']. *)
Fixpoint Matches (r : regex) (st st' : mstate) : Prop :=
  match r with
  | Eps => st' = st
  | Cls p => exists c t, rest st = c :: t /\ p c = true /\ st' = advance c t st
  | Seq r1 r2 => exists m, Matches r1 st m /\ Matches r2 m st'
  | Alt r1 r2 => Matches r1 st st' \/ Matches r2 st st'
  | Star r1 => star_rel (Matches r1) st st'
  | LazyStar r1 => star_rel (Matches r1) st st'
  | Bol ml => at_bol ml st = true /\ st' = st
  | Eol ml => at_eol ml st = true /\ st' = st
  | WordB => at_wordb st = true /\ st' = st
  | Group n r1 =>
      exists m, Matches r1 st m /\
                st' = MState (prev m) (rest m)
                        ((n, firstn (length (rest st) - length (rest m)) (rest st))
                           :: caps m)
  end.

(** Soundness: a result of the matcher comes from a match of the pattern
    followed by the continuation. *)
Lemma rmatch_sound (A : Type) (r : regex) :
  forall (st : mstate) (k : mstate -> option A) (a : A),
    rmatch r st k = Some a -> exists st', Matches r st st' /\ k st' = Some a.
Proof.
  induction r as [|p|r1 IH1 r2 IH2|r1 IH1 r2 IH2|r1 IH1|r1 IH1|ml|ml| |n r1 IH1];
    intros st k a H; simpl in H.
  - exists st. split; [reflexivity | assumption].
  - destruct (rest st) as [|c t] eqn:E; [discriminate|].
    destruct (p c) eqn:Ep; [|discriminate].
    exists (advance c t st). split; [|assumption]. exists c, t. auto.
  - apply IH1 in H. destruct H as (m & H1 & H).
    apply IH2 in H. destruct H as (st' & H2 & H).
    exists st'. split; [exists m; auto | assumption].
  - destruct (rmatch r1 st k) eqn:E.
    + inversion H; subst. apply IH1 in E. destruct E as (st' & H1 & E).
      exists st'. split; [left|]; assumption.
    + apply IH2 in H. destruct H as (st' & H2 & H).
      exists st'. split; [right|]; assumption.
  - remember (length (rest st)) as fuel eqn:Ef. clear Ef.
    revert st H. induction fuel as [|f IHf]; intros st H.
    + exists st. split; [constructor | assumption].
    + destruct (rmatch r1 st _) eqn:E in H.
      * inversion H; subst. apply IH1 in E. destruct E as (st1 & H1 & E).
        destruct (Nat.ltb_spec (length (rest st1)) (length (rest st))); [|discriminate].
        apply IHf in E. destruct E as (st2 & H2 & E).
        exists st2. split; [|assumption]. simpl. eapply star_step; eassumption.
      * exists st. split; [constructor | assumption].
  - remember (length (rest st)) as fuel eqn:Ef. clear Ef.
    revert st H. induction fuel as [|f IHf]; intros st H.
    + destruct (k st) eqn:E; [|discriminate].
      exists st. split; [constructor | congruence].
    + destruct (k st) eqn:E.
      * exists st. split; [constructor | congruence].
      * apply IH1 in H. destruct H as (st1 & H1 & H).
        destruct (Nat.ltb_spec (length (rest st1)) (length (rest st))); [|discriminate].
        apply IHf in H. destruct H as (st2 & H2 & H).
        exists st2. split; [|assumption]. simpl. eapply star_step; eassumption.
  - destruct (at_bol ml st) eqn:E; [|discriminate]. exists st. simpl. auto.
  - destruct (at_eol ml st) eqn:E; [|discriminate]. exists st. simpl. auto.
  - destruct (at_wordb st) eqn:E; [|discriminate]. exists st. simpl. auto.
  - apply IH1 in H. destruct H as (m & H1 & H).
    eexists. split; [|exact H]. exists m. auto.
Qed.

(** Completeness: when the pattern has a match that the continuation
    accepts, the matcher returns a result. *)
Lemma rmatch_complete (A : Type) (r : regex) :
  forall (st st' : mstate) (k : mstate -> option A),
    Matches r st st' -> k st' <> None -> rmatch r st k <> None.
Proof.
  induction r as [|p|r1 IH1 r2 IH2|r1 IH1 r2 IH2|r1 IH1|r1 IH1|ml|ml| |n r1 IH1];
    intros st st' k HM Hk; simpl in HM |- *.
  - subst. assumption.
  - destruct HM as (c & t & E & Ep & ->). rewrite E, Ep. assumption.
  - destruct HM as (m & H1 & H2). eapply IH1; [exact H1|].
    eapply IH2; eassumption.
  - destruct (rmatch r1 st k) eqn:E; [discriminate|].
    destruct HM as [H1|H2].
    + exfalso. eapply IH1; eassumption.
    + eapply IH2; eassumption.
  - assert (G : forall fuel, length (rest st) <= fuel ->
        (fix loop (fuel : nat) (st : mstate) {struct fuel} : option A :=
           match fuel with
           | O => k st
           | S f =>
               match rmatch r1 st (fun st' =>
                       if Nat.ltb (length (rest st')) (length (rest st))
                       then loop f st' else None) with
               | Some a => Some a
               | None => k st
               end
           end) fuel st <> None).
    { induction HM as [st|st st1 st2 H1 Hlt H2 IH]; intros fuel Hf.
      - destruct fuel; [assumption|].
        destruct (rmatch r1 st _); [discriminate | assumption].
      - destruct fuel as [|f]; [lia|].
        destruct (rmatch r1 st _) eqn:E; [discriminate|].
        exfalso. revert E. eapply IH1; [exact H1|].
        rewrite (proj2 (Nat.ltb_lt _ _) Hlt). apply IH; [assumption | lia]. }
    apply G. lia.
  - assert (G : forall fuel, length (rest st) <= fuel ->
        (fix loop (fuel : nat) (st : mstate) {struct fuel} : option A :=
           match k st with
           | Some a => Some a
           | None =>
               match fuel with
               | O => None
               | S f =>
                   rmatch r1 st (fun st' =>
                       if Nat.ltb (length (rest st')) (length (rest st))
                       then loop f st' else None)
               end
           end) fuel st <> None).
    { induction HM as [st|st st1 st2 H1 Hlt H2 IH]; intros fuel Hf.
      - destruct fuel; destruct (k st); try discriminate; contradiction.
      - destruct fuel as [|f]; [lia|].
        destruct (k st); [discriminate|].
        eapply IH1; [exact H1|].
        rewrite (proj2 (Nat.ltb_lt _ _) Hlt). apply IH; [assumption | lia]. }
    apply G. lia.
  - destruct HM as [E ->]. rewrite E. assumption.
  - destruct HM as [E ->]. rewrite E. assumption.
  - destruct HM as [E ->]. rewrite E. assumption.
  - destruct HM as (m & H1 & ->). eapply IH1; [exact H1 | exact Hk].
Qed.

(** A match starts at the cursor exactly when the pattern has one there. *)
Lemma match_here_iff (r : regex) (p : option char) (s : text) :
  match_here r p s <> None <-> exists st', Matches r (start_state p s) st'.
Proof.
  unfold match_here. split.
  - destruct (rmatch r _ _) as [st|] eqn:E; [|congruence]. intros _.
    apply rmatch_sound in E. destruct E as (st' & H & _). exists st'. exact H.
  - intros (st' & H). eapply rmatch_complete; [exact H | discriminate].
Qed.

End ReSpec.

(* ------------------------------------------------------------------ *)
(** *** Patterns without anchors: more text after, another text before *)

Module ReLocal.
Import Re ReFacts ReSpec.






(** A sequence of patterns, one after the other. *)
Fixpoint chain (rs : list regex) (st st' : mstate) : Prop :=
  match rs with
  | [] => st' = st
  | r :: rs' => exists m, Matches r st m /\ chain rs' m st'
  end.

Lemma seqs_chain (rs : list regex) :
  forall st st', Matches (seqs rs) st st' <-> chain rs st st'.
Proof.
  induction rs as [|r rs IH]; intros st st'; simpl; [tauto|].
  destruct rs as [|r2 rs].
  - simpl. split.
    + intros H. exists st'. auto.
    + intros (m & H & ->). exact H.
  - change (Matches (Seq r (seqs (r2 :: rs))) st st' <->
            exists m, Matches r st m /\ chain (r2 :: rs) m st').
    simpl Matches. split; intros (m & H1 & H2); exists m; split; auto; apply IH; exact H2.
Qed.





End ReLocal.

(* ------------------------------------------------------------------ *)
(** *** The page-footer pattern under stripping *)

Module FooterFacts.
Import Re ReFacts ReSpec ReLocal SubFacts NormalizeFacts.














Lemma lstrip_by_split (p : char -> bool) (s : text) :
  exists pre, s = pre ++ lstrip_by p s /\ forallb p pre = true.
Proof.
  induction s as [|c t (pre & IH & Hp)]; simpl.
  - exists []. auto.
  - destruct (p c) eqn:E.
    + exists (c :: pre). simpl. rewrite E. split; [congruence | exact Hp].
    + exists []. auto.
Qed.

Lemma rstrip_by_split (p : char -> bool) (s : text) :
  exists post, s = rstrip_by p s ++ post /\ forallb p post = true.
Proof.
  unfold rstrip_by. destruct (lstrip_by_split p (List.rev s)) as (pre & E & Hp).
  exists (List.rev pre). split.
  - rewrite <- rev_app_distr, <- E, rev_involutive. reflexivity.
  - rewrite forallb_forall in *. intros c Hc. apply Hp. apply in_rev. exact Hc.
Qed.



End FooterFacts.

(** *** Claim C3 *)

Module NormalizeClaim.
Import Re NormalizeFacts NormalizeIdem FooterFacts.

(** A page with a footer line between two text lines:
    ["a\nPage 1 of 3\nb"]. *)
Definition footer_page : text :=
  str "a" ++ [NL] ++ str "Page 1 of 3" ++ [NL] ++ str "b".

Example footer_page_once :
  _normalize_text_block footer_page = str "a" ++ [NL; NL] ++ str "b".
Proof. vm_compute. reflexivity. Qed.

Example footer_page_twice :
  _normalize_text_block (_normalize_text_block footer_page)
  = str "a" ++ [NL] ++ str "b".
Proof. vm_compute. reflexivity. Qed.





End NormalizeClaim.

(* ------------------------------------------------------------------ *)
(** ** The name extractor *)

Module NameFacts.

Lemma lstrip_by_all (p : char -> bool) (s : text) :
  forallb p s = true -> lstrip_by p s = [].
Proof.
  induction s as [|c t IH]; simpl; [reflexivity|].
  intros H. apply andb_true_iff in H. destruct H as [Hc Ht].
  rewrite Hc. apply IH. exact Ht.
Qed.

Lemma forallb_rev (p : char -> bool) (s : text) :
  forallb p s = true -> forallb p (List.rev s) = true.
Proof.
  rewrite !forallb_forall. intros H x Hx. apply H. apply in_rev. exact Hx.
Qed.

Lemma rstrip_by_all (p : char -> bool) (s : text) :
  forallb p s = true -> rstrip_by p s = [].
Proof.
  intros H. unfold rstrip_by. rewrite lstrip_by_all; [reflexivity|].
  apply forallb_rev. exact H.
Qed.

Lemma split_on_all (p : char -> bool) (sep : char) (s : text) :
  forallb p s = true -> Forall (fun l => forallb p l = true) (split_on sep s).
Proof.
  induction s as [|c t IH]; simpl; intros H.
  - repeat constructor.
  - apply andb_true_iff in H. destruct H as [Hc Ht]. specialize (IH Ht).
    destruct (N.eqb c sep).
    + constructor; [reflexivity | assumption].
    + destruct (split_on sep t) as [|l ls].
      * repeat constructor. simpl. rewrite Hc. reflexivity.
      * inversion IH; subst. constructor; [|assumption].
        simpl. rewrite Hc. assumption.
Qed.

(** A text of white space only has no non-empty stripped line. *)
Lemma name_lines_blank (txt : text) :
  forallb isspace txt = true -> name_lines txt = [].
Proof.
  intros H. unfold name_lines.
  pose proof (split_on_all isspace NL txt H) as Hs.
  induction Hs as [|l ls Hl _ IH]; simpl; [reflexivity|].
  unfold rstrip at 1. rewrite (rstrip_by_all isspace l Hl). simpl. exact IH.
Qed.

(** C10: on an empty or white-space-only text [extract_name] returns
    ["Unknown"], whatever the later heuristics are. *)
Theorem extract_name_blank_is_unknown
    (name_heuristics : list text -> text) (txt : text) :
  forallb isspace txt = true ->
  extract_name name_heuristics txt = str "Unknown".
Proof.
  intros H. unfold extract_name. rewrite (name_lines_blank txt H). reflexivity.
Qed.

Lemma extract_name_blank_is_unknown_witness :
  forallb isspace ([SP; TAB; NL; NBSP; NL; CR; SP]) = true /\
  extract_name (fun lines => join [SP] lines) [SP; TAB; NL; NBSP; NL; CR; SP]
  = str "Unknown".
Proof.
  split; [reflexivity|].
  apply (extract_name_blank_is_unknown (fun lines => join [SP] lines)
           [SP; TAB; NL; NBSP; NL; CR; SP]).
  reflexivity.
Defined.

End NameFacts.
(* ------------------------------------------------------------------ *)
(** ** The experience duration calculator *)

Module ExperienceFacts.
Import Re.
Open Scope Z_scope.

(** *** The order on datetimes *)

Lemma lex_compare_antisym (a : list Z) :
  forall b, lex_compare b a = CompOpp (lex_compare a b).
Proof.
  induction a as [|x a IH]; intros [|y b]; simpl; try reflexivity.
  rewrite (Z.compare_antisym x y).
  destruct (Z.compare x y); simpl; auto.
Qed.

Lemma lex_compare_refl (a : list Z) : lex_compare a a = Eq.
Proof.
  induction a as [|x a IH]; simpl; [reflexivity|].
  rewrite Z.compare_refl. exact IH.
Qed.

Lemma lex_compare_eq (a : list Z) :
  forall b, lex_compare a b = Eq -> a = b.
Proof.
  induction a as [|x a IH]; intros [|y b]; simpl; try discriminate; auto.
  destruct (Z.compare_spec x y) as [Hxy|Hxy|Hxy]; try discriminate.
  intros Hab. subst. f_equal. apply IH. exact Hab.
Qed.

Lemma lex_compare_trans (a : list Z) :
  forall b c, lex_compare a b <> Gt -> lex_compare b c <> Gt -> lex_compare a c <> Gt.
Proof.
  induction a as [|x a IH]; intros [|y b] [|z c]; simpl; try congruence.
  destruct (Z.compare_spec x y), (Z.compare_spec y z), (Z.compare_spec x z);
    try congruence; try lia; intros; eapply IH; eassumption.
Qed.

Lemma dt_leb_refl (a : datetime) : dt_leb a a = true.
Proof. unfold dt_leb, dt_compare. rewrite lex_compare_refl. reflexivity. Qed.

Lemma dt_leb_trans (a b c : datetime) :
  dt_leb a b = true -> dt_leb b c = true -> dt_leb a c = true.
Proof.
  unfold dt_leb, dt_compare. intros H1 H2.
  assert (H : lex_compare (dt_fields a) (dt_fields c) <> Gt).
  { apply lex_compare_trans with (b := dt_fields b).
    - destruct (lex_compare (dt_fields a) (dt_fields b)); congruence.
    - destruct (lex_compare (dt_fields b) (dt_fields c)); congruence. }
  destruct (lex_compare (dt_fields a) (dt_fields c)); congruence.
Qed.

Lemma dt_leb_total (a b : datetime) : dt_leb a b = false -> dt_leb b a = true.
Proof.
  unfold dt_leb, dt_compare. rewrite (lex_compare_antisym (dt_fields a) (dt_fields b)).
  destruct (lex_compare (dt_fields a) (dt_fields b)); simpl; congruence.
Qed.

Lemma dt_ltb_leb (a b : datetime) : dt_ltb a b = negb (dt_leb b a).
Proof.
  unfold dt_ltb, dt_leb, dt_compare.
  rewrite (lex_compare_antisym (dt_fields a) (dt_fields b)).
  destruct (lex_compare (dt_fields a) (dt_fields b)); reflexivity.
Qed.

Lemma dt_leb_antisym (a b : datetime) :
  dt_leb a b = true -> dt_leb b a = true -> a = b.
Proof.
  unfold dt_leb, dt_compare. rewrite (lex_compare_antisym (dt_fields a) (dt_fields b)).
  destruct (lex_compare (dt_fields a) (dt_fields b)) eqn:E; simpl; try discriminate.
  intros _ _. apply lex_compare_eq in E.
  destruct a, b. unfold dt_fields in E. simpl in E. congruence.
Qed.

(** *** Discarded intervals *)

Lemma keep_interval_sound (p : option datetime * option datetime) (s e : datetime) :
  keep_interval p = Some (s, e) ->
  p = (Some s, Some e) /\ dt_leb s e = true /\ 1980 <= year s /\ year e - year s <= 20.
Proof.
  destruct p as [[s'|] [e'|]]; simpl; try discriminate.
  destruct (dt_leb s' e') eqn:E1; [|discriminate].
  destruct (Z.ltb_spec (year s') 1980); [discriminate|].
  destruct (Z.ltb_spec 20 (year e' - year s')); [discriminate|].
  intros H'. inversion H'; subst. repeat split; auto; lia.
Qed.

Lemma keep_interval_discards (s e : datetime) :
  dt_ltb e s = true \/ year s < 1980 \/ 20 < year e - year s ->
  keep_interval (Some s, Some e) = None.
Proof.
  intros H. simpl. rewrite dt_ltb_leb in H.
  destruct (dt_leb s e); [|reflexivity].
  destruct (Z.ltb_spec (year s) 1980); [reflexivity|].
  destruct (Z.ltb_spec 20 (year e - year s)); [reflexivity|].
  simpl in H. destruct H as [H|[H|H]]; [discriminate | lia | lia].
Qed.

Lemma collect_intervals_app (now : datetime) (rs1 rs2 : list (text * text)) :
  collect_intervals now (rs1 ++ rs2)
  = collect_intervals now rs1 ++ collect_intervals now rs2.
Proof.
  induction rs1 as [|r rs1 IH]; simpl; [reflexivity|].
  destruct (keep_interval (parse_range now r)); simpl; rewrite IH; reflexivity.
Qed.

Lemma collect_intervals_skip (now : datetime) (rs1 rs2 : list (text * text))
    (r : text * text) :
  keep_interval (parse_range now r) = None ->
  collect_intervals now (rs1 ++ r :: rs2) = collect_intervals now (rs1 ++ rs2).
Proof.
  intros H. rewrite !collect_intervals_app. simpl. rewrite H. reflexivity.
Qed.

Lemma collect_intervals_In (now : datetime) (rs : list (text * text)) (s e : datetime) :
  In (s, e) (collect_intervals now rs) ->
  dt_leb s e = true /\ 1980 <= year s /\ year e - year s <= 20.
Proof.
  induction rs as [|r rs IH]; simpl; [tauto|].
  destruct (keep_interval (parse_range now r)) as [[s' e']|] eqn:E; [|exact IH].
  intros [H|H]; [|exact (IH H)].
  inversion H; subst. apply keep_interval_sound in E. tauto.
Qed.

End ExperienceFacts.
Module ExperienceMerge.
Import Re ExperienceFacts.
Open Scope Z_scope.

(** *** Sorting by start *)

Definition start_le (a b : interval) : Prop := dt_leb (fst a) (fst b) = true.

Lemma insert_by_start_perm (x : interval) (l : list interval) :
  Permutation (insert_by_start x l) (x :: l).
Proof.
  induction l as [|y l IH]; simpl; [apply Permutation_refl|].
  destruct (dt_leb (fst x) (fst y)); [apply Permutation_refl|].
  eapply perm_trans; [apply perm_skip, IH | apply perm_swap].
Qed.

Lemma sort_by_start_perm (l : list interval) : Permutation (sort_by_start l) l.
Proof.
  induction l as [|x l IH]; simpl; [constructor|].
  eapply perm_trans; [apply insert_by_start_perm | apply perm_skip, IH].
Qed.

Lemma insert_by_start_sorted (x : interval) (l : list interval) :
  StronglySorted start_le l -> StronglySorted start_le (insert_by_start x l).
Proof.
  induction 1 as [|y l Hl IH Hy]; simpl.
  - constructor; constructor.
  - destruct (dt_leb (fst x) (fst y)) eqn:E.
    + constructor; [constructor; assumption|].
      constructor; [exact E|].
      rewrite Forall_forall in *. intros z Hz. unfold start_le.
      eapply dt_leb_trans; [exact E | apply Hy, Hz].
    + constructor; [exact IH|].
      rewrite Forall_forall in *. intros z Hz.
      apply (Permutation_in _ (insert_by_start_perm x l)) in Hz.
      destruct Hz as [<-|Hz]; [apply dt_leb_total, E | apply Hy, Hz].
Qed.

Lemma sort_by_start_sorted (l : list interval) : StronglySorted start_le (sort_by_start l).
Proof.
  induction l as [|x l IH]; simpl; [constructor|].
  apply insert_by_start_sorted. exact IH.
Qed.

(** The head of the sorted list is an interval of the list with the
    earliest start. *)
Lemma sort_by_start_head (l : list interval) (first : interval) (others : list interval) :
  sort_by_start l = first :: others ->
  In first l /\ forall iv, In iv l -> dt_leb (fst first) (fst iv) = true.
Proof.
  intros E. pose proof (sort_by_start_perm l) as Hp.
  pose proof (sort_by_start_sorted l) as Hs. rewrite E in Hp, Hs.
  split.
  - apply (Permutation_in _ Hp). left. reflexivity.
  - intros iv Hiv. apply (Permutation_in _ (Permutation_sym Hp)) in Hiv.
    inversion Hs as [|? ? _ Hall]; subst.
    destruct Hiv as [<-|Hiv]; [apply dt_leb_refl|].
    rewrite Forall_forall in Hall. apply Hall, Hiv.
Qed.

Lemma sort_by_start_nonempty (x : interval) (l : list interval) :
  sort_by_start (x :: l) <> [].
Proof.
  intros E. pose proof (sort_by_start_perm (x :: l)) as Hp. rewrite E in Hp.
  apply Permutation_nil in Hp. discriminate.
Qed.

(** *** The sweep, as the specification words it

    The current merged interval absorbs the next interval when that one
    starts within or before its end, its end moving forward to the later of
    the two ends; otherwise the current interval is closed and the next one
    becomes current. *)
Definition later (a b : datetime) : datetime := if dt_ltb a b then b else a.

Fixpoint spec_sweep (cur : interval) (rest : list interval) : list interval :=
  match rest with
  | [] => [cur]
  | (s, e) :: rest' =>
      if dt_leb s (snd cur)
      then spec_sweep (fst cur, later (snd cur) e) rest'
      else cur :: spec_sweep (s, e) rest'
  end.

Lemma merge_loop_spec (others : list interval) :
  forall (merged : list interval) (cur_s cur_e : datetime),
    (let '(m, s, e) := fold_left merge_step others (merged, cur_s, cur_e) in
     m ++ [(s, e)])
    = merged ++ spec_sweep (cur_s, cur_e) others.
Proof.
  induction others as [|[s e] others IH]; intros merged cur_s cur_e; simpl.
  - reflexivity.
  - unfold later. destruct (dt_leb s cur_e); [destruct (dt_ltb cur_e e)|];
      rewrite IH; try reflexivity.
    rewrite <- app_assoc. reflexivity.
Qed.

Lemma merge_intervals_spec (first : interval) (others : list interval) :
  merge_intervals first others = spec_sweep first others.
Proof.
  unfold merge_intervals. destruct first as [s e]. simpl.
  apply (merge_loop_spec others [] s e).
Qed.

Lemma spec_sweep_head (rest : list interval) :
  forall cur, exists e tl, spec_sweep cur rest = (fst cur, e) :: tl.
Proof.
  induction rest as [|[s e] rest IH]; intros [cs ce]; simpl.
  - exists ce, []. reflexivity.
  - destruct (dt_leb s ce).
    + apply (IH (cs, later ce e)).
    + exists ce. eexists. reflexivity.
Qed.

(** *** The sum *)

Lemma sum_months_from (merged : list interval) :
  forall acc,
    fold_left (fun total iv => total + delta_months (snd iv) (fst iv)) merged acc
    = acc + fold_right (fun iv t => delta_months (snd iv) (fst iv) + t) 0 merged.
Proof.
  induction merged as [|iv merged IH]; intros acc; simpl; [lia|].
  rewrite IH. lia.
Qed.

Lemma sum_months_spec (merged : list interval) :
  sum_months merged
  = fold_right Z.add 0
      (map (fun iv => years (relativedelta (snd iv) (fst iv)) * 12
                      + months (relativedelta (snd iv) (fst iv))) merged).
Proof.
  unfold sum_months. rewrite sum_months_from. simpl.
  induction merged as [|iv merged IH]; simpl; [reflexivity|].
  rewrite IH. reflexivity.
Qed.

Lemma delta_months_whole (e s : datetime) : delta_months e s = whole_months e s.
Proof.
  unfold delta_months, relativedelta. simpl.
  pose proof (Z.quot_rem' (whole_months e s) 12). lia.
Qed.

(** *** Whole months from the first of a month *)

Definition valid_dt (d : datetime) : Prop :=
  1 <= month d <= 12 /\ 1 <= day d /\ 0 <= hour d /\ 0 <= minute d
  /\ 0 <= second d /\ 0 <= microsecond d.

Definition month_start (d : datetime) : Prop :=
  day d = 1 /\ hour d = 0 /\ minute d = 0 /\ second d = 0 /\ microsecond d = 0.

Lemma days_in_month_pos (y m : Z) : 28 <= days_in_month y m.
Proof.
  unfold days_in_month.
  destruct (Z.eqb m 2); [destruct (is_leap y); lia|].
  destruct (_ || _); lia.
Qed.

Lemma whole_months_month_start (e s : datetime) :
  valid_dt e -> month_start s -> dt_leb s e = true ->
  whole_months e s = (year e - year s) * 12 + (month e - month s).
Proof.
  intros (Hm & Hd & Hh & Hmi & Hs & Hus) (Sd & Sh & Smi & Ss & Sus) Hle.
  unfold whole_months.
  assert (E1 : dt_ltb e s = false) by (rewrite dt_ltb_leb, Hle; reflexivity).
  rewrite E1.
  set (n := (year e - year s) * 12 + (month e - month s)).
  assert (E2 : add_months s n = first_of_month (year e) (month e)).
  { unfold add_months, first_of_month.
    replace (year s * 12 + (month s - 1) + n) with (year e * 12 + (month e - 1))
      by (unfold n; lia).
    assert (Hy : (year e * 12 + (month e - 1)) / 12 = year e).
    { symmetry. apply (Z.div_unique _ 12 (year e) (month e - 1)); lia. }
    assert (Hmo : (year e * 12 + (month e - 1)) mod 12 = month e - 1).
    { symmetry. apply (Z.mod_unique _ 12 (year e) (month e - 1)); lia. }
    rewrite Hy, Hmo, Sd, Sh, Smi, Ss, Sus.
    pose proof (days_in_month_pos (year e) (month e - 1 + 1)).
    f_equal; lia. }
  rewrite E2.
  assert (E3 : dt_ltb e (first_of_month (year e) (month e)) = false).
  { unfold dt_ltb, dt_compare, dt_fields, first_of_month. simpl.
    rewrite !Z.compare_refl.
    repeat match goal with
           | |- context [Z.compare ?a ?b] =>
               destruct (Z.compare_spec a b); try lia; try reflexivity
           end. }
  rewrite E3. reflexivity.
Qed.

Lemma dt_leb_year_month (a b : datetime) :
  dt_leb a b = true ->
  year a < year b \/ (year a = year b /\ month a <= month b).
Proof.
  unfold dt_leb, dt_compare, dt_fields. simpl.
  destruct (Z.compare_spec (year a) (year b)); [| lia | discriminate].
  destruct (Z.compare_spec (month a) (month b)); [lia | lia | discriminate].
Qed.

End ExperienceMerge.
(** *** Claims C4, C5, C6 and C9 *)

Module ExperienceClaims.
Import Re ExperienceFacts ExperienceMerge.
Open Scope Z_scope.

(** ["1975-1976"], written with an en dash (U+2013), and ["1990-2015"]. *)
Definition range_1975_1976 : text := str "1975" ++ [EN_DASH] ++ str "1976".
Definition range_1990_2015 : text := str "1990-2015".

(** C4: an interval whose end precedes its start, whose start year is below
    1980 or whose years are more than 20 apart is not kept; dropping the
    text of its dates from the list of matched ranges leaves the result
    unchanged; the ranges 1975-1976 and 1990-2015 alone give zero
    experience. *)
Theorem invalid_intervals_discarded :
  (forall s e : datetime,
      dt_ltb e s = true \/ year s < 1980 \/ 20 < year e - year s ->
      keep_interval (Some s, Some e) = None)
  /\ (forall (now : datetime) (rs1 rs2 : list (text * text)) (r : text * text),
         keep_interval (parse_range now r) = None ->
         total_from_intervals now (collect_intervals now (rs1 ++ r :: rs2))
         = total_from_intervals now (collect_intervals now (rs1 ++ rs2)))
  /\ (forall now : datetime,
         experience_intervals now range_1975_1976 = []
         /\ calculate_total_experience now range_1975_1976
            = str "0 years and 0 months")
  /\ (forall now : datetime,
         experience_intervals now range_1990_2015 = []
         /\ calculate_total_experience now range_1990_2015
            = str "0 years and 0 months").
Proof.
  split; [exact keep_interval_discards|].
  split.
  - intros now rs1 rs2 r H. rewrite (collect_intervals_skip now rs1 rs2 r H).
    reflexivity.
  - split; intros now; split; vm_compute; reflexivity.
Qed.

(** The dates of the two ranges are read as written and fail the checks. *)
Example range_1975_1976_parsed :
  forall now, map (parse_range now) (date_ranges range_1975_1976)
  = [(Some (first_of_month 1975 1), Some (first_of_month 1976 1))].
Proof. intros now. vm_compute. reflexivity. Qed.

Example range_1990_2015_parsed :
  forall now, map (parse_range now) (date_ranges range_1990_2015)
  = [(Some (first_of_month 1990 1), Some (first_of_month 2015 1))].
Proof. intros now. vm_compute. reflexivity. Qed.

Definition now_2026 : datetime := DateTime 2026 11 3 15 17 0 0.

Lemma invalid_intervals_discarded_witness :
  (dt_ltb (first_of_month 2015 1) (first_of_month 2020 1) = true
   /\ keep_interval (Some (first_of_month 2020 1), Some (first_of_month 2015 1)) = None)
  /\ (keep_interval (parse_range now_2026 (str "2020", str "2015")) = None
      /\ total_from_intervals now_2026
           (collect_intervals now_2026
              ([(str "Jan 2019", str "Jun 2020")] ++ (str "2020", str "2015") :: []))
         = total_from_intervals now_2026
             (collect_intervals now_2026 ([(str "Jan 2019", str "Jun 2020")] ++ []))).
Proof.
  split.
  - split; [reflexivity|].
    apply (proj1 invalid_intervals_discarded). left. reflexivity.
  - split; [vm_compute; reflexivity|].
    apply (proj1 (proj2 invalid_intervals_discarded)). vm_compute. reflexivity.
Defined.

(** Two overlapping jobs. *)
Definition two_jobs : text :=
  str "Jan 2019 to Jun 2020" ++ [NL] ++ str "Mar 2020 to Dec 2021".

Example two_jobs_intervals :
  forall now, experience_intervals now two_jobs
  = [(first_of_month 2019 1, first_of_month 2020 6);
     (first_of_month 2020 3, first_of_month 2021 12)].
Proof. intros now. vm_compute. reflexivity. Qed.

Example two_jobs_merged :
  forall now, merged_of (experience_intervals now two_jobs)
  = [(first_of_month 2019 1, first_of_month 2021 12)].
Proof. intros now. vm_compute. reflexivity. Qed.

(** C5: the kept intervals are sorted by start (a stable sort), the merged
    list is the sweep of the specification over the sorted list, the total is
    the sum over the merged intervals of [years * 12 + months] of their
    [relativedelta], and the two ranges Jan 2019 to Jun 2020 and Mar 2020 to
    Dec 2021 give "2 years and 11 months" (for a clock at or after
    1 December 2021, where the cap of elapsed time does not bite). *)
Theorem intervals_sorted_swept_summed :
  (forall ivs : list interval,
      Permutation (sort_by_start ivs) ivs
      /\ StronglySorted start_le (sort_by_start ivs))
  /\ (forall (first : interval) (others ivs : list interval),
         sort_by_start ivs = first :: others ->
         merged_of ivs = spec_sweep first others)
  /\ (forall merged : list interval,
         sum_months merged
         = fold_right Z.add 0
             (map (fun iv => years (relativedelta (snd iv) (fst iv)) * 12
                             + months (relativedelta (snd iv) (fst iv))) merged))
  /\ (forall now : datetime,
         valid_dt now ->
         dt_leb (first_of_month 2021 12) now = true ->
         calculate_total_experience now two_jobs = str "2 years and 11 months").
Proof.
  split; [intros ivs; split; [apply sort_by_start_perm | apply sort_by_start_sorted]|].
  split.
  { intros first others ivs E. unfold merged_of. rewrite E.
    apply merge_intervals_spec. }
  split; [exact sum_months_spec|].
  intros now Hv Hle. unfold calculate_total_experience.
  rewrite two_jobs_intervals. unfold total_from_intervals.
  change (merged_of _) with [(first_of_month 2019 1, first_of_month 2021 12)].
  unfold capped_months.
  change (sum_months _) with 35.
  rewrite delta_months_whole.
  rewrite whole_months_month_start; try assumption.
  - apply dt_leb_year_month in Hle. simpl in Hle.
    destruct Hv as (Hm & _).
    simpl year; simpl month.
    rewrite (Z.min_l 35 ((year now - 2019) * 12 + (month now - 1))) by lia.
    reflexivity.
  - repeat split.
  - eapply dt_leb_trans; [|exact Hle]. reflexivity.
Qed.

Lemma intervals_sorted_swept_summed_witness :
  dt_leb (first_of_month 2021 12) now_2026 = true
  /\ calculate_total_experience now_2026 two_jobs = str "2 years and 11 months".
Proof.
  split; [reflexivity|].
  apply (proj2 (proj2 (proj2 intervals_sorted_swept_summed)) now_2026).
  - unfold valid_dt, now_2026; simpl; lia.
  - reflexivity.
Defined.

(** When some interval is kept, the total is the value of the code's
    expression for the capped months, at the earliest kept start. *)
Lemma total_months_by_delta (now : datetime) (experience_text : text) :
  experience_intervals now experience_text <> [] ->
  exists earliest : datetime,
    (exists e, In (earliest, e) (experience_intervals now experience_text))
    /\ (forall s e, In (s, e) (experience_intervals now experience_text) ->
                    dt_leb earliest s = true)
    /\ let raw := sum_months (merged_of (experience_intervals now experience_text)) in
       let capped := Z.min raw (Z.min (delta_months now earliest) 600) in
       calculate_total_experience now experience_text
       = format_experience (capped / 12) (capped mod 12).
Proof.
  intros Hne. unfold calculate_total_experience.
  set (ivs := experience_intervals now experience_text) in *.
  destruct ivs as [|iv0 ivs0] eqn:Eivs; [congruence|].
  destruct (sort_by_start (iv0 :: ivs0)) as [|first others] eqn:Es.
  { exfalso. exact (sort_by_start_nonempty iv0 ivs0 Es). }
  destruct (sort_by_start_head _ _ _ Es) as [Hin Hmin].
  exists (fst first). split; [|split].
  - exists (snd first). destruct first; exact Hin.
  - intros s e H. exact (Hmin (s, e) H).
  - cbv zeta. unfold total_from_intervals.
    assert (Em : merged_of (iv0 :: ivs0) = spec_sweep first others).
    { unfold merged_of. rewrite Es. apply merge_intervals_spec. }
    destruct (spec_sweep_head others first) as (e1 & tl & Eh).
    unfold capped_months. rewrite Em, Eh. rewrite <- Eh.
    rewrite <- Z.min_assoc. reflexivity.
Qed.

(** A range that lies in the future of the clock. *)
Definition future_job : text := str "Jan 2030 to Dec 2031".

(** The same range with its years in full-width digits, which [\d],
    [strptime] and [int] read like ASCII digits. *)
Definition future_job_fullwidth : text :=
  str "Jan " ++ [65298; 65296; 65299; 65296]%N ++ str " to Dec "
  ++ [65298; 65296; 65299; 65297]%N.

Example future_job_fullwidth_kept :
  experience_intervals now_2026 future_job_fullwidth
  = [(first_of_month 2030 1, first_of_month 2031 12)]
  /\ calculate_total_experience now_2026 future_job_fullwidth
     = str "-4 years and 11 months".
Proof. vm_compute. split; reflexivity. Qed.

(** C9, at the failing input: with the clock at 3 November 2026 the range
    Jan 2030 to Dec 2031 is kept, the months from its start to now are -37,
    and the result has a negative number of years. *)
Theorem future_start_gives_negative_years :
  experience_intervals now_2026 future_job
  = [(first_of_month 2030 1, first_of_month 2031 12)]
  /\ delta_months now_2026 (first_of_month 2030 1) = -37
  /\ calculate_total_experience now_2026 future_job = str "-4 years and 11 months".
Proof. vm_compute. repeat split. Qed.

End ExperienceClaims.
(* ------------------------------------------------------------------ *)
(** *** Parsed dates are first days of real months *)

Module ParseFacts.
Import Re ReFacts ReSpec ExperienceFacts ExperienceMerge.
Open Scope Z_scope.

Lemma index_of_range (x : text) (xs : list text) :
  forall i m, index_of x xs i = Some m -> i <= m < i + Z.of_nat (length xs).
Proof.
  induction xs as [|y ys IH]; intros i m; simpl; [discriminate|].
  destruct (text_eqb x y).
  - intros H. inversion H; subst. lia.
  - intros H. apply IH in H. lia.
Qed.

Lemma digit_value_ascii (a : char) :
  (48 <= a <= 57)%N -> digit_value a = Z.of_N a - 48.
Proof.
  intros H. unfold digit_value, decimal_zero, decimal_zeros. cbn [find].
  replace (in_range 48 (48 + 9) a) with true.
  - rewrite N2Z.inj_sub by lia. reflexivity.
  - symmetry. unfold in_range. apply andb_true_iff.
    split; apply N.leb_le; simpl; lia.
Qed.

Lemma int_of_digits_1 (a : char) :
  (48 <= a <= 57)%N -> int_of_digits [a] = Z.of_N a - 48.
Proof.
  intros H. unfold int_of_digits. cbn [fold_left].
  rewrite (digit_value_ascii a H). lia.
Qed.

Lemma int_of_digits_2 (a b : char) :
  (48 <= a <= 57)%N -> (48 <= b <= 57)%N ->
  int_of_digits [a; b] = (Z.of_N a - 48) * 10 + (Z.of_N b - 48).
Proof.
  intros Ha Hb. unfold int_of_digits. cbn [fold_left].
  rewrite (digit_value_ascii a Ha), (digit_value_ascii b Hb). lia.
Qed.

(** What [%m] captures is a number from 1 to 12. *)
Lemma dir_m_captures (st st' : mstate) :
  Matches dir_m st st' ->
  exists mtxt, caps st' = (G_MONTH, mtxt) :: caps st
               /\ 1 <= int_of_digits mtxt <= 12.
Proof.
  unfold dir_m. intros (m & H & ->). cbn [caps].
  destruct st as [p s cs]. cbn [rest caps] in *.
  destruct H as [H|[H|H]].
  - destruct H as (m1 & (c & t & E & Ec & ->) & (c2 & t2 & E2 & Ec2 & ->)).
    cbn [rest advance caps] in *. subst s t.
    eexists. split; [reflexivity|].
    replace (length (c :: c2 :: t2) - length t2)%nat with 2%nat by (cbn [length]; lia).
    apply N.eqb_eq in Ec. subst c. cbn [firstn].
    unfold in_range in Ec2. apply andb_true_iff in Ec2. destruct Ec2 as [L U].
    apply N.leb_le in L, U. rewrite int_of_digits_2 by lia. lia.
  - destruct H as (m1 & (c & t & E & Ec & ->) & (c2 & t2 & E2 & Ec2 & ->)).
    cbn [rest advance caps] in *. subst s t.
    eexists. split; [reflexivity|].
    replace (length (c :: c2 :: t2) - length t2)%nat with 2%nat by (cbn [length]; lia).
    apply N.eqb_eq in Ec. subst c. cbn [firstn].
    unfold in_range in Ec2. apply andb_true_iff in Ec2. destruct Ec2 as [L U].
    apply N.leb_le in L, U. rewrite int_of_digits_2 by lia. lia.
  - destruct H as (c & t & E & Ec & ->).
    cbn [rest advance caps] in *. subst s.
    eexists. split; [reflexivity|].
    replace (length (c :: t) - length t)%nat with 1%nat by (cbn [length]; lia).
    cbn [firstn].
    unfold in_range in Ec. apply andb_true_iff in Ec. destruct Ec as [L U].
    apply N.leb_le in L, U. rewrite int_of_digits_1 by lia. lia.
Qed.

Fixpoint group_free (r : regex) : bool :=
  match r with
  | Group _ _ => false
  | Seq r1 r2 | Alt r1 r2 => group_free r1 && group_free r2
  | Star r1 | LazyStar r1 => group_free r1
  | _ => true
  end.

(** A pattern without groups leaves the captures as they are. *)
Lemma matches_caps (r : regex) :
  group_free r = true ->
  forall st st', Matches r st st' -> caps st' = caps st.
Proof.
  induction r as [|p|r1 IH1 r2 IH2|r1 IH1 r2 IH2|r1 IH1|r1 IH1|ml|ml| |n r1 IH1];
    simpl; intros Hf st st' H; try discriminate.
  - subst. reflexivity.
  - destruct H as (c & t & _ & _ & ->). reflexivity.
  - apply andb_true_iff in Hf. destruct Hf as [Hf1 Hf2].
    destruct H as (m & H1 & H2).
    rewrite (IH2 Hf2 _ _ H2). apply (IH1 Hf1 _ _ H1).
  - apply andb_true_iff in Hf. destruct Hf as [Hf1 Hf2].
    destruct H as [H|H]; [apply (IH1 Hf1 _ _ H) | apply (IH2 Hf2 _ _ H)].
  - induction H as [st|st st1 st2 H1 _ _ IH]; [reflexivity|].
    rewrite IH. apply (IH1 Hf _ _ H1).
  - induction H as [st|st st1 st2 H1 _ _ IH]; [reflexivity|].
    rewrite IH. apply (IH1 Hf _ _ H1).
  - destruct H as [_ ->]. reflexivity.
  - destruct H as [_ ->]. reflexivity.
  - destruct H as [_ ->]. reflexivity.
Qed.

Lemma numeric_format_month (sep : char) (s : text) (st : mstate) :
  re_match (seqs [dir_m; chr sep; dir_Y]) s = Some st ->
  exists mtxt, group G_MONTH (caps st) = Some mtxt
               /\ 1 <= int_of_digits mtxt <= 12.
Proof.
  unfold re_match, match_here. intros H. apply rmatch_sound in H.
  destruct H as (st' & H & E). inversion E; subst st'. clear E.
  change (seqs [dir_m; chr sep; dir_Y]) with (Seq dir_m (Seq (chr sep) dir_Y)) in H.
  destruct H as (m1 & H1 & m2 & H2 & H3).
  apply dir_m_captures in H1. destruct H1 as (mtxt & Ec & Hr).
  destruct H2 as (c & t & _ & _ & ->).
  destruct H3 as (m3 & H3 & ->).
  exists mtxt. split; [|exact Hr]. cbn [caps]. simpl group.
  rewrite (matches_caps (rep 4 digit) eq_refl _ _ H3). cbn [advance caps].
  rewrite Ec. reflexivity.
Qed.

(** [strptime] returns the first day, at midnight, of a month from 1 to 12. *)
Definition parsed_dt (d : datetime) : Prop :=
  month_start d /\ 1 <= month d <= 12.

Lemma first_of_month_parsed (y m : Z) : 1 <= m <= 12 -> parsed_dt (first_of_month y m).
Proof. intros H. split; [repeat split | exact H]. Qed.

Lemma strptime_parsed (fmt : regex) (how : month_reading) (s : text) (d : datetime) :
  In (fmt, how) date_formats ->
  strptime fmt how s = Some d -> parsed_dt d.
Proof.
  intros Hin. unfold strptime.
  destruct (re_match fmt s) as [st|] eqn:Em; [|discriminate].
  destruct (is_empty (rest st)); [|discriminate].
  destruct (group G_YEAR (caps st)) as [ytxt|]; [|discriminate].
  destruct (Z.ltb (int_of_digits ytxt) 1); [discriminate|].
  simpl in Hin.
  destruct Hin as [E|[E|[E|[E|[E|[]]]]]]; inversion E; subst fmt how; clear E.
  - destruct (group G_MONTH (caps st)); [|discriminate].
    destruct (index_of _ abbr_months 1) as [m|] eqn:Ei; [|discriminate].
    intros H; inversion H; subst. apply first_of_month_parsed.
    apply index_of_range in Ei. simpl in Ei. lia.
  - destruct (group G_MONTH (caps st)); [|discriminate].
    destruct (index_of _ full_months 1) as [m|] eqn:Ei; [|discriminate].
    intros H; inversion H; subst. apply first_of_month_parsed.
    apply index_of_range in Ei. simpl in Ei. lia.
  - destruct (numeric_format_month _ _ _ Em) as (mtxt & Eg & Hr). rewrite Eg.
    intros H; inversion H; subst. apply first_of_month_parsed. exact Hr.
  - destruct (numeric_format_month _ _ _ Em) as (mtxt & Eg & Hr). rewrite Eg.
    intros H; inversion H; subst. apply first_of_month_parsed. exact Hr.
  - intros H; inversion H; subst. apply first_of_month_parsed. lia.
Qed.

Lemma parse_date_parsed (date_str : text) (d : datetime) :
  parse_date date_str = Some d -> parsed_dt d.
Proof.
  unfold parse_date. generalize (strip (Re.sub RE_SEPT (str "Sep") date_str)).
  intros s.
  assert (G : forall fmts, incl fmts date_formats ->
                           first_format fmts s = Some d -> parsed_dt d).
  { induction fmts as [|[fmt how] fmts IH]; simpl; intros Hi H; [discriminate|].
    destruct (strptime fmt how s) as [d'|] eqn:E.
    - inversion H; subst. eapply strptime_parsed; [|exact E].
      apply Hi. left. reflexivity.
    - apply IH; [|exact H]. intros x Hx. apply Hi. right. exact Hx. }
  apply G. apply incl_refl.
Qed.

End ParseFacts.
(* ------------------------------------------------------------------ *)
(** *** The shape of the result *)

Module ExperienceShape.
Import Re ExperienceFacts ExperienceMerge ParseFacts.
Open Scope Z_scope.

(** An interval as the loop of lines 1035-1045 keeps them: a parsed start,
    a well-formed end (parsed, or the clock) and the start not after the
    end. *)
Definition good_interval (iv : interval) : Prop :=
  parsed_dt (fst iv) /\ valid_dt (snd iv) /\ dt_leb (fst iv) (snd iv) = true.

Lemma parsed_dt_valid (d : datetime) : parsed_dt d -> valid_dt d.
Proof.
  intros ((Hd & Hh & Hmi & Hs & Hus) & Hm). unfold valid_dt.
  rewrite Hd, Hh, Hmi, Hs, Hus. lia.
Qed.

Lemma collect_intervals_good (now : datetime) (rs : list (text * text)) :
  valid_dt now -> Forall good_interval (collect_intervals now rs).
Proof.
  intros Hnow. induction rs as [|[ss es] rs IH]; cbn [collect_intervals]; [constructor|].
  destruct (keep_interval (parse_range now (ss, es))) as [[s e]|] eqn:E; [|exact IH].
  constructor; [|exact IH].
  apply keep_interval_sound in E. destruct E as (Ep & Hle & _).
  unfold parse_range in Ep. inversion Ep as [[Es Ee]].
  split; [|split]; simpl.
  - eapply parse_date_parsed. exact Es.
  - destruct (found RE_PRESENT es).
    + inversion Ee; subst. exact Hnow.
    + apply parsed_dt_valid. eapply parse_date_parsed. exact Ee.
  - exact Hle.
Qed.

Lemma spec_sweep_good (rest : list interval) :
  forall cur, good_interval cur -> Forall good_interval rest ->
              Forall good_interval (spec_sweep cur rest).
Proof.
  induction rest as [|[s e] rest IH]; intros [cs ce] Hc Hr; simpl.
  - constructor; [exact Hc | constructor].
  - inversion Hr as [|? ? Hse Hr']; subst.
    destruct (dt_leb s ce) eqn:E.
    + apply IH; [|exact Hr'].
      destruct Hc as (H1 & H2 & H3). destruct Hse as (G1 & G2 & G3).
      simpl in *. unfold later. rewrite dt_ltb_leb.
      destruct (dt_leb e ce) eqn:E2; simpl.
      * split; [exact H1 | split; [exact H2 | exact H3]].
      * split; [exact H1|]. split; [exact G2|].
        eapply dt_leb_trans; [exact H3|]. apply dt_leb_total. exact E2.
    + constructor; [exact Hc|]. apply IH; assumption.
Qed.

Lemma merged_of_good (ivs : list interval) :
  Forall good_interval ivs -> Forall good_interval (merged_of ivs).
Proof.
  intros H. unfold merged_of.
  destruct (sort_by_start ivs) as [|first others] eqn:E; [constructor|].
  rewrite merge_intervals_spec.
  assert (Hs : Forall good_interval (first :: others)).
  { rewrite <- E. rewrite Forall_forall in *. intros iv Hiv.
    apply H. apply (Permutation_in _ (sort_by_start_perm ivs)). exact Hiv. }
  inversion Hs; subst. apply spec_sweep_good; assumption.
Qed.

Lemma delta_months_good (iv : interval) :
  good_interval iv -> 0 <= delta_months (snd iv) (fst iv).
Proof.
  destruct iv as [s e]. intros ((Hms & Hm) & Hv & Hle). simpl in *.
  rewrite delta_months_whole, whole_months_month_start by assumption.
  apply dt_leb_year_month in Hle. destruct Hv as (Hme & _). lia.
Qed.

Lemma sum_months_nonneg (merged : list interval) :
  Forall good_interval merged -> 0 <= sum_months merged.
Proof.
  intros H. unfold sum_months. rewrite sum_months_from.
  induction H as [|iv merged Hiv _ IH]; simpl; [lia|].
  pose proof (delta_months_good iv Hiv). lia.
Qed.

Lemma capped_months_le (now : datetime) (merged : list interval) :
  capped_months now merged <= 600.
Proof. unfold capped_months. destruct merged as [|[s e] tl]; lia. Qed.

Lemma zero_experience : format_experience 0 0 = str "0 years and 0 months".
Proof. vm_compute. reflexivity. Qed.

(** X2: for every text and clock the result has the shape "Y years and M
    months" with M from 0 to 11 and Y at most 50. *)
Lemma experience_shape_upper (now : datetime) (experience_text : text) :
  exists y m,
    calculate_total_experience now experience_text = format_experience y m
    /\ y <= 50 /\ 0 <= m <= 11.
Proof.
  unfold calculate_total_experience, total_from_intervals.
  destruct (experience_intervals now experience_text) as [|iv ivs].
  - exists 0, 0. rewrite zero_experience. repeat split; lia.
  - set (c := capped_months now (merged_of (iv :: ivs))).
    exists (c / 12), (c mod 12). split; [reflexivity|].
    pose proof (capped_months_le now (merged_of (iv :: ivs))) as Hc. fold c in Hc.
    pose proof (Z.mod_pos_bound c 12 ltac:(lia)).
    assert (c / 12 <= 600 / 12) by (apply Z.div_le_mono; lia).
    change (600 / 12) with 50 in *. lia.
Qed.

(** X1: when the clock is well formed and no kept interval starts after
    it, the years are not negative either: the result is "Y years and M
    months" with Y from 0 to 50 and M from 0 to 11. *)
Theorem experience_shape_not_future (now : datetime) (experience_text : text) :
  valid_dt now ->
  (forall s e, In (s, e) (experience_intervals now experience_text) ->
               dt_leb s now = true) ->
  exists y m,
    calculate_total_experience now experience_text = format_experience y m
    /\ 0 <= y <= 50 /\ 0 <= m <= 11.
Proof.
  intros Hnow Hpast.
  unfold calculate_total_experience, total_from_intervals.
  pose proof (collect_intervals_good now (date_ranges experience_text) Hnow) as Hgood.
  fold (experience_intervals now experience_text) in Hgood.
  destruct (experience_intervals now experience_text) as [|iv ivs] eqn:Eivs.
  - exists 0, 0. rewrite zero_experience. repeat split; lia.
  - set (c := capped_months now (merged_of (iv :: ivs))).
    exists (c / 12), (c mod 12). split; [reflexivity|].
    pose proof (capped_months_le now (merged_of (iv :: ivs))) as Hc. fold c in Hc.
    assert (H0 : 0 <= c).
    { unfold c, capped_months.
      pose proof (merged_of_good _ Hgood) as Hm.
      pose proof (sum_months_nonneg _ Hm) as Hsum.
      destruct (sort_by_start (iv :: ivs)) as [|first others] eqn:Es.
      { exfalso. exact (sort_by_start_nonempty iv ivs Es). }
      destruct (sort_by_start_head _ _ _ Es) as [Hin _].
      assert (Em : merged_of (iv :: ivs) = spec_sweep first others).
      { unfold merged_of. rewrite Es. apply merge_intervals_spec. }
      destruct (spec_sweep_head others first) as (e1 & tl & Eh).
      rewrite Em, Eh in *. fold (sum_months ((fst first, e1) :: tl)).
      assert (Hd : 0 <= delta_months now (fst first)).
      { apply (delta_months_good (fst first, now)).
        rewrite Forall_forall in Hgood. destruct (Hgood first Hin) as (G1 & _).
        split; [exact G1|]. split; [exact Hnow|]. simpl.
        destruct first as [fs fe]. exact (Hpast fs fe Hin). }
      lia. }
    pose proof (Z.mod_pos_bound c 12 ltac:(lia)).
    assert (c / 12 <= 600 / 12) by (apply Z.div_le_mono; lia).
    assert (0 <= c / 12) by (apply Z.div_pos; lia).
    change (600 / 12) with 50 in *. lia.
Qed.

Lemma experience_shape_not_future_witness :
  exists y m,
    calculate_total_experience (DateTime 2026 11 3 15 17 0 0)
      (str "Sept 2019 - Present; 01/2015 - 12/2016")
    = format_experience y m
    /\ 0 <= y <= 50 /\ 0 <= m <= 11.
Proof.
  apply (experience_shape_not_future (DateTime 2026 11 3 15 17 0 0)
           (str "Sept 2019 - Present; 01/2015 - 12/2016")).
  - unfold valid_dt. simpl. lia.
  - intros s e H. vm_compute in H.
    destruct H as [H|[H|[]]]; inversion H; subst; reflexivity.
Defined.

End ExperienceShape.

(* ------------------------------------------------------------------ *)
(** ** The skill extractor *)

Module SkillFacts.

(** The loop of lines 832-838 as a recursion on the candidates. *)
Fixpoint first_seen (seen : list text) (cs : list text) : list text :=
  match cs with
  | [] => []
  | c :: cs' =>
      if mem (lower c) seen then first_seen seen cs'
      else c :: first_seen (lower c :: seen) cs'
  end.

Lemma dedup_loop_first_seen (cs : list text) :
  forall seen result,
    snd (fold_left dedup_step cs (seen, result)) = result ++ first_seen seen cs.
Proof.
  induction cs as [|c cs IH]; intros seen result; simpl.
  - rewrite app_nil_r. reflexivity.
  - destruct (mem (lower c) seen); rewrite IH; [reflexivity|].
    rewrite <- app_assoc. reflexivity.
Qed.

Lemma dedup_skills_first_seen (cs : list text) : dedup_skills cs = first_seen [] cs.
Proof. unfold dedup_skills. rewrite dedup_loop_first_seen. reflexivity. Qed.

(** [l] is [cs] with some elements left out, in the same order. *)
Inductive subseq : list text -> list text -> Prop :=
| subseq_nil : subseq [] []
| subseq_skip (c : text) (l cs : list text) : subseq l cs -> subseq l (c :: cs)
| subseq_keep (c : text) (l cs : list text) : subseq l cs -> subseq (c :: l) (c :: cs).

Lemma first_seen_unseen (cs : list text) :
  forall seen x, In x (first_seen seen cs) -> ~ In (lower x) seen.
Proof.
  induction cs as [|c cs IH]; intros seen x; simpl; [tauto|].
  destruct (mem (lower c) seen) eqn:E.
  - apply IH.
  - intros [<-|H].
    + intros Hin. apply mem_In in Hin. congruence.
    + intros Hin. apply (IH _ _ H). right. exact Hin.
Qed.

Lemma first_seen_NoDup (cs : list text) :
  forall seen, NoDup (map lower (first_seen seen cs)).
Proof.
  induction cs as [|c cs IH]; intros seen; simpl; [constructor|].
  destruct (mem (lower c) seen); [apply IH|].
  simpl. constructor; [|apply IH].
  intros Hin. apply in_map_iff in Hin. destruct Hin as (x & Ex & Hx).
  apply first_seen_unseen in Hx. apply Hx. left. symmetry. exact Ex.
Qed.

Lemma first_seen_subseq (cs : list text) :
  forall seen, subseq (first_seen seen cs) cs.
Proof.
  induction cs as [|c cs IH]; intros seen; simpl; [constructor|].
  destruct (mem (lower c) seen); constructor; apply IH.
Qed.

Lemma first_seen_covers (cs : list text) :
  forall seen c, In c cs ->
    In (lower c) seen \/ exists x, In x (first_seen seen cs) /\ lower x = lower c.
Proof.
  induction cs as [|c0 cs IH]; intros seen c; simpl; [tauto|].
  intros [->|H].
  - destruct (mem (lower c) seen) eqn:E.
    + left. apply mem_In. exact E.
    + right. exists c. split; [left|]; reflexivity.
  - destruct (mem (lower c0) seen) eqn:E.
    + apply IH. exact H.
    + destruct (IH (lower c0 :: seen) c H) as [[Hc|Hc]|(x & Hx & Ex)].
      * right. exists c0. split; [left; reflexivity | exact Hc].
      * left. exact Hc.
      * right. exists x. split; [right; exact Hx | exact Ex].
Qed.

Lemma first_seen_first (cs : list text) :
  forall seen x, In x (first_seen seen cs) ->
    exists pre post, cs = pre ++ x :: post /\ forall y, In y pre -> lower y <> lower x.
Proof.
  induction cs as [|c cs IH]; intros seen x; simpl; [tauto|].
  destruct (mem (lower c) seen) eqn:E.
  - intros H. destruct (IH _ _ H) as (pre & post & -> & Hpre).
    exists (c :: pre), post. split; [reflexivity|].
    intros y [<-|Hy]; [|apply Hpre, Hy].
    intros Eq. apply (first_seen_unseen _ _ _ H). rewrite <- Eq.
    apply mem_In. exact E.
  - intros [<-|H].
    + exists [], cs. split; [reflexivity | intros y []].
    + destruct (IH _ _ H) as (pre & post & -> & Hpre).
      exists (c :: pre), post. split; [reflexivity|].
      intros y [<-|Hy]; [|apply Hpre, Hy].
      intros Eq. apply (first_seen_unseen _ _ _ H). left. exact Eq.
Qed.

(** Three spellings of one skill. *)
Definition three_pythons : text := str "Python, python, PYTHON".

(** C7: the output of the skill extractor has no two elements with the same
    lower-cased form, keeps the order of the candidates, represents every
    candidate, and holds of each lower-cased form the first candidate that
    has it; the three spellings Python, python, PYTHON collapse to one
    element. *)
Theorem extract_skills_dedup (stop_words_set : list text) (txt : text) :
  let candidates := skill_candidates stop_words_set txt in
  let out := extract_skills stop_words_set txt in
  NoDup (map lower out)
  /\ subseq out candidates
  /\ (forall c, In c candidates -> exists x, In x out /\ lower x = lower c)
  /\ (forall x, In x out ->
        exists pre post, candidates = pre ++ x :: post
                         /\ forall y, In y pre -> lower y <> lower x)
  /\ (mem (str "python") stop_words_set = false ->
      skill_candidates stop_words_set three_pythons
        = [str "PYTHON"; str "PYTHON"; str "PYTHON"]
      /\ extract_skills stop_words_set three_pythons = [str "PYTHON"]).
Proof.
  cbv zeta. unfold extract_skills. rewrite dedup_skills_first_seen.
  split; [apply first_seen_NoDup|].
  split; [apply first_seen_subseq|].
  split.
  { intros c Hc. destruct (first_seen_covers _ [] c Hc) as [[]|H]. exact H. }
  split; [apply first_seen_first|].
  intros Hsw.
  assert (E : skill_candidates stop_words_set three_pythons
              = [str "PYTHON"; str "PYTHON"; str "PYTHON"]).
  { unfold skill_candidates, three_pythons.
    vm_compute in Hsw. vm_compute. rewrite Hsw. reflexivity. }
  split; [exact E|].
  rewrite dedup_skills_first_seen, E. vm_compute. reflexivity.
Qed.

(** A few of the English stop words. *)
Definition some_stop_words : list text :=
  map str ["i"; "me"; "my"; "the"; "and"; "a"; "of"; "in"; "to"; "with"]%string.

Lemma extract_skills_dedup_witness :
  mem (str "python") some_stop_words = false
  /\ extract_skills some_stop_words three_pythons = [str "PYTHON"].
Proof.
  split; [reflexivity|].
  apply (proj2 (proj2 (proj2 (proj2
           (extract_skills_dedup some_stop_words three_pythons))))).
  reflexivity.
Defined.

End SkillFacts.
(* ------------------------------------------------------------------ *)
(** ** The column-aware segmenter *)

Module SegmenterFacts.
Import Re.

Definition section_keys : list text :=
  map str ["education"; "experience"; "skills"; "projects"; "certifications";
           "summary"; "languages"; "others"]%string.

Lemma dict_append_keys (d : sections_dict) (key v : text) :
  In key (map fst d) ->
  exists d', dict_append d key v = Some d' /\ map fst d' = map fst d.
Proof.
  induction d as [|[k vs] d IH]; simpl; [tauto|].
  intros H. destruct (text_eqb_spec k key) as [->|Hk].
  - eexists; split; reflexivity.
  - destruct H as [H|H]; [contradiction|].
    destruct (IH H) as (d' & E & Ek). rewrite E.
    eexists; split; [reflexivity|]. simpl. rewrite Ek. reflexivity.
Qed.

Lemma header_section_key (line_text : text) (is_bold : bool) (font_size : Q)
    (section : text) :
  header_section line_text is_bold font_size = Some section ->
  In section (map fst SECTION_PATTERNS).
Proof.
  unfold header_section. destruct (Nat.leb _ 7); [|discriminate].
  destruct (find _ SECTION_PATTERNS) as [kp|] eqn:E; [|discriminate].
  intros H. inversion H; subst. apply find_some in E. destruct E as [E _].
  apply in_map. exact E.
Qed.

Lemma section_patterns_keys (k : text) :
  In k (map fst SECTION_PATTERNS) -> In k section_keys.
Proof.
  intros H. change section_keys with (map fst SECTION_PATTERNS ++ [str "others"]).
  apply in_or_app. left. exact H.
Qed.

(** The scan keeps the keys of the dictionary and a current section that is
    one of them, so no lookup fails. *)
Definition seg_inv (st : seg_state) : Prop :=
  map fst (fst st) = section_keys /\ In (snd st) section_keys.

Lemma process_line_inv (st : seg_state) (ln : line) :
  seg_inv st -> exists st', process_line st ln = Some st' /\ seg_inv st'.
Proof.
  destruct st as [parsed cur]. intros [Hk Hc]. simpl in Hk, Hc.
  unfold process_line. destruct (line_info ln) as [[line_text is_bold] font_size].
  destruct (is_empty (strip line_text)).
  - eexists; split; [reflexivity|]. split; assumption.
  - set (cur' := match header_section (strip line_text) is_bold font_size with
                 | Some section => section
                 | None => cur
                 end).
    assert (Hc' : In cur' section_keys).
    { unfold cur'. destruct (header_section _ _ _) eqn:E; [|exact Hc].
      apply section_patterns_keys. eapply header_section_key. exact E. }
    destruct (dict_append_keys parsed cur' (strip line_text)) as (d' & E & Ek).
    { rewrite Hk. exact Hc'. }
    rewrite E. eexists; split; [reflexivity|].
    split; simpl; [rewrite Ek; exact Hk | exact Hc'].
Qed.

Lemma process_lines_inv (lns : list line) :
  forall st, seg_inv st -> exists st', process_lines st lns = Some st' /\ seg_inv st'.
Proof.
  induction lns as [|ln lns IH]; intros st Hst; simpl.
  - exists st. split; [reflexivity | exact Hst].
  - destruct (process_line_inv st ln Hst) as (st1 & E & H1). rewrite E.
    apply IH. exact H1.
Qed.

Lemma initial_inv : seg_inv (initial_sections, str "others").
Proof.
  split; [reflexivity|]. apply mem_In. reflexivity.
Qed.




End SegmenterFacts.
Module SegmenterHeader.
Import Re SegmenterFacts.

Lemma dict_append_get (d d' : sections_dict) (key v : text) :
  dict_append d key v = Some d' ->
  dict_get d' key [] = dict_get d key [] ++ [v]
  /\ forall k, k <> key -> dict_get d' k [] = dict_get d k [].
Proof.
  revert d'. induction d as [|[k0 vs] d IH]; intros d'; simpl; [discriminate|].
  destruct (text_eqb_spec k0 key) as [->|Hk].
  - intros H. inversion H; subst. simpl. rewrite text_eqb_refl.
    split; [reflexivity|]. intros k Hne.
    destruct (text_eqb_spec key k); [congruence | reflexivity].
  - destruct (dict_append d key v) as [d1|] eqn:E; [|discriminate].
    intros H. inversion H; subst. simpl.
    destruct (IH d1 eq_refl) as [H1 H2].
    destruct (text_eqb_spec k0 key); [contradiction|].
    split; [exact H1|]. intros k Hne.
    destruct (text_eqb_spec k0 k); [reflexivity | apply H2, Hne].
Qed.

(** What the scan does with a non-empty line: the current section becomes
    the header's section when the line is a header, and in both cases the
    line is appended to the section that is then current. *)
Lemma process_line_appends (parsed : sections_dict) (cur : text) (ln : line)
    (raw : text) (is_bold : bool) (font_size : Q) :
  seg_inv (parsed, cur) ->
  line_info ln = (raw, is_bold, font_size) ->
  is_empty (strip raw) = false ->
  let cur' := match header_section (strip raw) is_bold font_size with
              | Some section => section
              | None => cur
              end in
  exists parsed',
    process_line (parsed, cur) ln = Some (parsed', cur')
    /\ dict_get parsed' cur' [] = dict_get parsed cur' [] ++ [strip raw]
    /\ forall k, k <> cur' -> dict_get parsed' k [] = dict_get parsed k [].
Proof.
  intros Hinv Hinfo Hne cur'.
  destruct (process_line_inv (parsed, cur) ln Hinv) as ([parsed' c] & E & _).
  unfold process_line in E. rewrite Hinfo, Hne in E. fold cur' in E.
  destruct (dict_append parsed cur' (strip raw)) as [d|] eqn:Ed; [|discriminate].
  inversion E; subst. exists parsed'. unfold process_line.
  rewrite Hinfo, Hne. fold cur'. rewrite Ed.
  split; [reflexivity|]. apply dict_append_get. exact Ed.
Qed.

(** A page with a bold heading and one line under it. *)
Definition degree_page : document :=
  [ Page 600 [ Block 50 100 (Some [
      [ Span (str "Education") (str "Arial-BoldMT") (Some 12%Q) ];
      [ Span (str "B.Sc. Physics") (str "ArialMT") (Some 10%Q) ] ]) ] ].

Example degree_page_header :
  header_section (str "Education") true 12 = Some (str "education").
Proof. vm_compute. reflexivity. Qed.

(** C2, at the failing input: the bold line "Education" has one word and
    matches the education pattern, the current section becomes "education",
    and the text of that section starts with the header line itself. *)
Theorem header_line_kept_in_section :
  exists d,
    extract_sections_with_pymupdf degree_page = Some d
    /\ dict_get d (str "education") [] = str "Education" ++ [NL] ++ str "B.Sc. Physics"
    /\ dict_get d (str "others") [] = [].
Proof. eexists. split; [vm_compute; reflexivity|]. split; vm_compute; reflexivity. Qed.

(** The text-only fallback of the same file skips the header line on the
    same two lines. *)
Example naive_split_skips_header :
  dict_get (naive_split_sections_from_text
              (str "Education" ++ [NL] ++ str "B.Sc. Physics"))
           (str "education") []
  = str "B.Sc. Physics".
Proof. vm_compute. reflexivity. Qed.

End SegmenterHeader.
(* ------------------------------------------------------------------ *)
(** ** The result assembler *)

Module AssemblerFacts.

Section WithCollaborators.

Variable file_path : Type.
Variable get_combined_texts : file_path -> result (text * text * text).
Variables extract_email extract_phone extract_linkedin extract_github
  : text -> result (option text).
Variable name_heuristics : list text -> text.
Variable extract_location : text -> result (option text).
Variable fitz_open : file_path -> result document.
Variable extract_sections_with_pymupdf_refined : file_path -> result (list (text * text)).
Variable stopwords_words : result (list text).
Variable now : datetime.

Let run_try : file_path -> result ResumeRecord :=
  process_resume_try file_path get_combined_texts extract_email extract_phone
    extract_linkedin extract_github name_heuristics extract_location fitz_open
    extract_sections_with_pymupdf_refined stopwords_words now.

Let run : file_path -> ResumeRecord :=
  process_resume file_path get_combined_texts extract_email extract_phone
    extract_linkedin extract_github name_heuristics extract_location fitz_open
    extract_sections_with_pymupdf_refined stopwords_words now.

Lemma bind_ok_inv (A B : Type) (c : result A) (f : A -> result B) (b : B) :
  bind c f = Ok b -> exists a, c = Ok a /\ f a = Ok b.
Proof. destruct c as [a|e]; simpl; [|discriminate]. intros H. exists a. auto. Qed.

(** A record returned by the body of the [try] carries no error key. *)
Lemma process_resume_try_no_error (p : file_path) (record : ResumeRecord) :
  run_try p = Ok record -> error record = None.
Proof.
  unfold run_try, process_resume_try. intros H.
  apply bind_ok_inv in H. destruct H as ([[combined t1] t2] & _ & H).
  repeat (apply bind_ok_inv in H; destruct H as (? & _ & H)).
  inversion H. reflexivity.
Qed.

(** An exception of the refined segmenter is caught by the inner [try]:
    it does not decide whether the body raises. *)
Lemma refined_exception_is_swallowed (p : file_path) (e : exn) :
  extract_sections_with_pymupdf_refined p = Raise e ->
  forall e', run_try p = Raise e' ->
    forall refined',
      process_resume_try file_path get_combined_texts extract_email extract_phone
        extract_linkedin extract_github name_heuristics extract_location fitz_open
        refined' stopwords_words now p = Raise e'.
Proof.
  unfold run_try, process_resume_try. intros _ e' H refined'.
  destruct (get_combined_texts p) as [[[combined t1] t2]|]; simpl in *; [|exact H].
  destruct (extract_email _); simpl in *; [|exact H].
  destruct (extract_phone _); simpl in *; [|exact H].
  destruct (extract_linkedin _); simpl in *; [|exact H].
  destruct (extract_github _); simpl in *; [|exact H].
  destruct (extract_location _); simpl in *; [|exact H].
  destruct (sections_of_file file_path fitz_open p); simpl in *; [|exact H].
  destruct stopwords_words; simpl in *; [discriminate | exact H].
Qed.

(** C1, as amended: [process_resume] is total; either the body of the [try]
    returned a record, which is the result and has no error key, or it
    raised an exception [e] and the result is the fallback record: name
    "Unknown", the five contact fields null, no skills, "0 years and 0
    months", and as error the text of [e], non-empty when that text is.  An
    unreadable document (the PDF library raising on open after the earlier
    steps returned) is one such case. *)
Theorem process_resume_fallback (p : file_path) :
  ((exists record, run_try p = Ok record /\ run p = record /\ error record = None)
   \/ (exists e, run_try p = Raise e
         /\ name (personalInfo (run p)) = str "Unknown"
         /\ email (personalInfo (run p)) = None
         /\ phone (personalInfo (run p)) = None
         /\ linkedin (personalInfo (run p)) = None
         /\ github (personalInfo (run p)) = None
         /\ location (personalInfo (run p)) = None
         /\ skills (run p) = []
         /\ total_experience (run p) = str "0 years and 0 months"
         /\ error (run p) = Some (exn_str e)
         /\ (exn_str e <> [] -> error (run p) <> Some [])))
  /\ (forall combined t1 t2 a b c d l e,
         get_combined_texts p = Ok (combined, t1, t2) ->
         extract_email (str_or t1 combined) = Ok a ->
         extract_phone (str_or t1 combined) = Ok b ->
         extract_linkedin (str_or t1 combined) = Ok c ->
         extract_github (str_or t1 combined) = Ok d ->
         extract_location (str_or t1 combined) = Ok l ->
         fitz_open p = Raise e ->
         run p = fallback (exn_str e)).
Proof.
  split.
  - destruct (run_try p) as [record|e] eqn:E.
    + left. exists record. split; [reflexivity|].
      split; [unfold run, process_resume; fold run_try; rewrite E; reflexivity|].
      exact (process_resume_try_no_error p record E).
    + right. exists e. split; [reflexivity|].
      assert (Er : run p = fallback (exn_str e)).
      { unfold run, process_resume. fold run_try. rewrite E. reflexivity. }
      rewrite Er. simpl. repeat split. intros Hne H. inversion H. contradiction.
  - intros combined t1 t2 a b c d l e H1 H2 H3 H4 H5 H6 H7.
    unfold run, process_resume, process_resume_try, sections_of_file.
    rewrite H1. simpl. rewrite H2. simpl. rewrite H3. simpl. rewrite H4. simpl.
    rewrite H5. simpl. rewrite H6. simpl. rewrite H7. reflexivity.
Qed.

End WithCollaborators.

(** A run in which both text engines returned nothing, the extractors found
    nothing, and the PDF library raised an exception with the given text on
    open. *)
Definition unreadable (message : text) : ResumeRecord :=
  process_resume unit
    (fun _ => Ok ([], [], []))
    (fun _ => Ok None) (fun _ => Ok None) (fun _ => Ok None) (fun _ => Ok None)
    (fun lines => join [SP] lines)
    (fun _ => Ok None)
    (fun _ => Raise (Exn message))
    (fun _ => Raise (Exn message))
    (Ok [])
    (DateTime 2026 11 3 15 17 0 0)
    tt.

(** C1, counterexample: when the exception that is caught has an empty
    text (as [str(Exception())] is), the error string of the fallback record
    is empty. *)
Lemma fallback_error_may_be_empty :
  unreadable [] = fallback [] /\ error (unreadable []) = Some [].
Proof. split; reflexivity. Qed.

Lemma process_resume_fallback_witness :
  unreadable (str "no such file: 'resume.pdf'")
  = fallback (str "no such file: 'resume.pdf'").
Proof.
  unfold unreadable.
  apply (proj2 (process_resume_fallback unit
                  (fun _ => Ok ([], [], []))
                  (fun _ => Ok None) (fun _ => Ok None) (fun _ => Ok None)
                  (fun _ => Ok None)
                  (fun lines => join [SP] lines)
                  (fun _ => Ok None)
                  (fun _ => Raise (Exn (str "no such file: 'resume.pdf'")))
                  (fun _ => Raise (Exn (str "no such file: 'resume.pdf'")))
                  (Ok [])
                  (DateTime 2026 11 3 15 17 0 0)
                  tt)
               [] [] [] None None None None None
               (Exn (str "no such file: 'resume.pdf'")));
    reflexivity.
Defined.

End AssemblerFacts.


(* ------------------------------------------------------------------ *)
(** ** Lines: [str.join], [str.split], [str.splitlines] *)

Module TextFacts.
Import NormalizeFacts.

Lemma split_on_clean (sep : char) (p : text) :
  Forall (fun c => c <> sep) p -> split_on sep p = [p].
Proof.
  induction p as [|c p IH]; intros H; [reflexivity|].
  inversion H as [|? ? Hc Hp]; subst. simpl.
  destruct (N.eqb_spec c sep) as [E|_]; [contradiction|].
  rewrite (IH Hp). reflexivity.
Qed.

Lemma split_on_app (sep : char) (p s : text) :
  Forall (fun c => c <> sep) p ->
  split_on sep (p ++ sep :: s) = p :: split_on sep s.
Proof.
  induction p as [|c p IH]; intros H.
  - simpl. rewrite N.eqb_refl. reflexivity.
  - inversion H as [|? ? Hc Hp]; subst. simpl.
    destruct (N.eqb_spec c sep) as [E|_]; [contradiction|].
    rewrite (IH Hp). reflexivity.
Qed.

(** Splitting what was joined gives the pieces back. *)
Lemma split_on_join (sep : char) (ls : list text) :
  ls <> [] -> Forall (Forall (fun c => c <> sep)) ls ->
  split_on sep (join [sep] ls) = ls.
Proof.
  induction ls as [|p ls IH]; intros Hne H; [congruence|].
  inversion H as [|? ? Hp Hls]; subst.
  destruct ls as [|q ls].
  - simpl. apply split_on_clean, Hp.
  - change (join [sep] (p :: q :: ls)) with (p ++ sep :: join [sep] (q :: ls)).
    rewrite (split_on_app _ _ _ Hp). f_equal. apply IH; [discriminate | exact Hls].
Qed.

Lemma join_Forall (P : char -> Prop) (sep : text) (ls : list text) :
  Forall P sep -> Forall (Forall P) ls -> Forall P (join sep ls).
Proof.
  intros Hs. induction ls as [|p ls IH]; intros H; [constructor|].
  inversion H as [|? ? Hp Hls]; subst.
  destruct ls as [|q ls]; [exact Hp|].
  change (join sep (p :: q :: ls)) with (p ++ sep ++ join sep (q :: ls)).
  apply Forall_app; split; [exact Hp|].
  apply Forall_app; split; [exact Hs | apply IH, Hls].
Qed.

Lemma lstrip_Forall (P : char -> Prop) (s : text) : Forall P s -> Forall P (lstrip s).
Proof.
  intros H. destruct (lstrip_by_suffix isspace s) as [pre E].
  rewrite E in H. apply Forall_app in H. apply H.
Qed.

Lemma rstrip_Forall (P : char -> Prop) (s : text) : Forall P s -> Forall P (rstrip s).
Proof.
  intros H. destruct (rstrip_by_prefix isspace s) as [post E].
  rewrite E in H. apply Forall_app in H. apply H.
Qed.

Lemma removelast_Forall (P : char -> Prop) (s : text) :
  Forall P s -> Forall P (removelast s).
Proof.
  induction s as [|c s IH]; intros H; [constructor|].
  inversion H as [|? ? Hc Hs]; subst. simpl.
  destruct s as [|d s]; [constructor|]. constructor; [exact Hc | apply IH, Hs].
Qed.

(** No piece of [splitlines] contains a line boundary. *)
Lemma splitlines_from_clean (P : char -> Prop) :
  forall (n : nat) (s cur : text),
    length s <= n ->
    Forall P cur -> Forall P s ->
    Forall (Forall P) (splitlines_from cur s).
Proof.
  induction n as [|n IH]; intros s cur Hn Hcur Hs.
  - destruct s; [|simpl in Hn; lia]. simpl.
    destruct cur; [constructor|]. constructor; [|constructor].
    apply Forall_rev, Hcur.
  - destruct s as [|c t]; simpl.
    + destruct cur; [constructor|]. constructor; [|constructor].
      apply Forall_rev, Hcur.
    + simpl in Hn. inversion Hs as [|? ? Hc Ht]; subst.
      destruct (N.eqb c CR).
      * destruct t as [|c2 t2].
        -- constructor; [|constructor]. apply Forall_rev, Hcur.
        -- inversion Ht as [|? ? Hc2 Ht2]; subst. simpl in Hn.
           destruct (N.eqb c2 NL).
           ++ constructor; [apply Forall_rev, Hcur|].
              apply IH; [lia | constructor | exact Ht2].
           ++ constructor; [apply Forall_rev, Hcur|].
              apply IH; [simpl; lia | constructor | exact Ht].
      * destruct (is_linebreak c).
        -- constructor; [apply Forall_rev, Hcur|].
           apply IH; [lia | constructor | exact Ht].
        -- apply IH; [lia | constructor; assumption | exact Ht].
Qed.

Lemma splitlines_Forall (P : char -> Prop) (s : text) :
  Forall P s -> Forall (Forall P) (splitlines s).
Proof.
  intros H. apply (splitlines_from_clean P (length s)); [lia | constructor | exact H].
Qed.

Lemma splitlines_from_no_break :
  forall (n : nat) (s cur : text),
    length s <= n ->
    Forall (fun c => is_linebreak c = false) cur ->
    Forall (Forall (fun c => is_linebreak c = false)) (splitlines_from cur s).
Proof.
  induction n as [|n IH]; intros s cur Hn Hcur.
  - destruct s; [|simpl in Hn; lia]. simpl.
    destruct cur; [constructor|]. constructor; [|constructor].
    apply Forall_rev, Hcur.
  - destruct s as [|c t]; simpl.
    + destruct cur; [constructor|]. constructor; [|constructor].
      apply Forall_rev, Hcur.
    + simpl in Hn.
      destruct (N.eqb c CR) eqn:Ecr.
      * destruct t as [|c2 t2].
        -- constructor; [|constructor]. apply Forall_rev, Hcur.
        -- simpl in Hn. destruct (N.eqb c2 NL).
           ++ constructor; [apply Forall_rev, Hcur|].
              apply IH; [lia | constructor].
           ++ constructor; [apply Forall_rev, Hcur|].
              apply IH; [simpl; lia | constructor].
      * destruct (is_linebreak c) eqn:Elb.
        -- constructor; [apply Forall_rev, Hcur|].
           apply IH; [lia | constructor].
        -- apply IH; [lia | constructor; assumption].
Qed.

Lemma splitlines_no_break (s : text) :
  Forall (Forall (fun c => is_linebreak c = false)) (splitlines s).
Proof. apply (splitlines_from_no_break (length s)); [lia | constructor]. Qed.

End TextFacts.

(* ------------------------------------------------------------------ *)
(** ** Dehyphenation *)

Module DehyphenFacts.
Import NormalizeFacts TextFacts FooterFacts.

Lemma last_and_init_snoc (out : list text) (x : text) :
  last_and_init (out ++ [x]) = Some (x, out).
Proof.
  unfold last_and_init. rewrite rev_app_distr. simpl. rewrite rev_involutive.
  reflexivity.
Qed.

Lemma last_and_init_inv (out : list text) :
  match last_and_init out with
  | Some (x, init) => out = init ++ [x]
  | None => out = []
  end.
Proof.
  unfold last_and_init. destruct (rev out) as [|x r] eqn:E.
  - apply (f_equal (@rev text)) in E. rewrite rev_involutive in E. exact E.
  - apply (f_equal (@rev text)) in E. rewrite rev_involutive in E. exact E.
Qed.

(** The two outcomes of a round. *)
Lemma dehyphenate_step_cases (out : list text) (ln : text) :
  dehyphenate_step out ln = out ++ [ln] \/
  exists init prev_line,
    out = init ++ [prev_line] /\
    ends_with (str "-") (rstrip prev_line) = true /\
    str_islower (firstn 1 ln) = true /\
    dehyphenate_step out ln = init ++ [removelast (rstrip prev_line) ++ lstrip ln].
Proof.
  unfold dehyphenate_step. pose proof (last_and_init_inv out) as H.
  destruct (last_and_init out) as [[x init]|]; [|left; reflexivity].
  destruct (ends_with _ _) eqn:E1; [|left; reflexivity].
  destruct (str_islower _) eqn:E2; [|left; reflexivity].
  right. exists init, x. simpl. auto.
Qed.

(** A property of characters shared by all lines is kept. *)
Lemma dehyphenate_step_Forall (P : char -> Prop) (out : list text) (ln : text) :
  Forall (Forall P) out -> Forall P ln ->
  Forall (Forall P) (dehyphenate_step out ln).
Proof.
  intros Ho Hl.
  destruct (dehyphenate_step_cases out ln) as [E|(init & x & E & _ & _ & E')].
  - rewrite E. apply Forall_app; split; [exact Ho | constructor; [exact Hl | constructor]].
  - rewrite E'. subst out. apply Forall_app in Ho. destruct Ho as [Hi Hx].
    inversion Hx as [|? ? Hx' _]; subst.
    apply Forall_app; split; [exact Hi|]. constructor; [|constructor].
    apply Forall_app; split.
    + apply removelast_Forall, rstrip_Forall, Hx'.
    + apply lstrip_Forall, Hl.
Qed.

Lemma dehyphenate_fold_Forall (P : char -> Prop) (lines : list text) :
  forall out, Forall (Forall P) out -> Forall (Forall P) lines ->
    Forall (Forall P) (fold_left dehyphenate_step lines out).
Proof.
  induction lines as [|ln lines IH]; intros out Ho Hl; [exact Ho|].
  inversion Hl as [|? ? H1 H2]; subst. simpl.
  apply IH; [apply dehyphenate_step_Forall; assumption | exact H2].
Qed.

Lemma dehyphenate_Forall (P : char -> Prop) (lines : list text) :
  Forall (Forall P) lines -> Forall (Forall P) (_dehyphenate_lines lines).
Proof. intros H. apply dehyphenate_fold_Forall; [constructor | exact H]. Qed.

(** Lines are joined only across a hyphen. *)
Lemma dehyphenate_fold_unchanged (lines : list text) :
  forall out,
    Forall (fun l => ends_with (str "-") (rstrip l) = false) (out ++ lines) ->
    fold_left dehyphenate_step lines out = out ++ lines.
Proof.
  induction lines as [|ln lines IH]; intros out H.
  - simpl. rewrite app_nil_r. reflexivity.
  - simpl.
    assert (E : dehyphenate_step out ln = out ++ [ln]).
    { destruct (dehyphenate_step_cases out ln) as [E|(init & x & E & E1 & E2 & _)];
        [exact E|].
      exfalso. subst out. rewrite Forall_app in H. destruct H as [H _].
      rewrite Forall_app in H. destruct H as [_ H].
      inversion H as [|? ? Hx _]; subst. congruence. }
    rewrite E, IH.
    + rewrite <- app_assoc. reflexivity.
    + rewrite <- app_assoc. exact H.
Qed.

(** X4 ([_dehyphenate_lines]): lines are joined only across a hyphen: a
    list of lines none of which ends, after its trailing white space, with
    a hyphen is returned unchanged. *)
Theorem dehyphenate_unchanged (lines : list text) :
  Forall (fun l => ends_with (str "-") (rstrip l) = false) lines ->
  _dehyphenate_lines lines = lines.
Proof.
  intros H. unfold _dehyphenate_lines.
  rewrite dehyphenate_fold_unchanged; [reflexivity|]. exact H.
Qed.

Lemma dehyphenate_unchanged_witness :
  _dehyphenate_lines [str "state-of-the-art tools "; str "and methods"]
  = [str "state-of-the-art tools "; str "and methods"].
Proof.
  apply dehyphenate_unchanged.
  constructor; [reflexivity|]. constructor; [reflexivity|]. constructor.
Defined.

(** [out] is [inp] with some characters deleted. *)
Inductive deleted_from : text -> text -> Prop :=
| del_nil : deleted_from [] []
| del_keep (c : char) (out inp : text) :
    deleted_from out inp -> deleted_from (c :: out) (c :: inp)
| del_drop (c : char) (out inp : text) :
    deleted_from out inp -> deleted_from out (c :: inp).

Lemma deleted_refl (s : text) : deleted_from s s.
Proof. induction s; constructor; assumption. Qed.

Lemma deleted_nil (s : text) : deleted_from [] s.
Proof. induction s; constructor; assumption. Qed.

Lemma deleted_app (a a' b b' : text) :
  deleted_from a a' -> deleted_from b b' -> deleted_from (a ++ b) (a' ++ b').
Proof. induction 1; intros Hb; simpl; [exact Hb| |]; constructor; auto. Qed.

Lemma deleted_trans (a b c : text) :
  deleted_from a b -> deleted_from b c -> deleted_from a c.
Proof.
  intros H1 H2. revert a H1.
  induction H2 as [|x b c H IH|x b c H IH]; intros a H1.
  - exact H1.
  - inversion H1; subst.
    + apply del_keep, IH. assumption.
    + apply del_drop, IH. assumption.
  - apply del_drop, IH, H1.
Qed.

Lemma deleted_lstrip (s : text) : deleted_from (lstrip s) s.
Proof.
  destruct (lstrip_by_suffix isspace s) as [pre E].
  rewrite E at 2. change (lstrip s) with ([] ++ lstrip_by isspace s).
  apply deleted_app; [apply deleted_nil | apply deleted_refl].
Qed.

Lemma deleted_rstrip (s : text) : deleted_from (rstrip s) s.
Proof.
  destruct (rstrip_by_prefix isspace s) as [post E].
  rewrite E at 2. rewrite <- (app_nil_r (rstrip s)) at 1.
  apply deleted_app; [apply deleted_refl | apply deleted_nil].
Qed.

Lemma deleted_removelast (s : text) : deleted_from (removelast s) s.
Proof.
  induction s as [|c s IH]; [constructor|]. simpl.
  destruct s as [|d s]; [apply del_drop, del_nil | apply del_keep, IH].
Qed.

Lemma dehyphenate_fold_deletes (lines : list text) :
  forall out done,
    deleted_from (concat out) done ->
    deleted_from (concat (fold_left dehyphenate_step lines out))
                 (done ++ concat lines).
Proof.
  induction lines as [|ln lines IH]; intros out done H.
  - simpl. rewrite app_nil_r. exact H.
  - simpl. rewrite app_assoc. apply IH.
    destruct (dehyphenate_step_cases out ln) as [E|(init & x & E & _ & _ & E')].
    + rewrite E, concat_app. simpl. rewrite app_nil_r.
      apply deleted_app; [exact H | apply deleted_refl].
    + rewrite E'. subst out. rewrite concat_app in *. simpl in *.
      rewrite app_nil_r in *. rewrite app_assoc.
      apply deleted_app; [|apply deleted_lstrip].
      eapply deleted_trans; [|exact H].
      apply deleted_app; [apply deleted_refl|].
      eapply deleted_trans; [apply deleted_removelast | apply deleted_rstrip].
Qed.

Lemma dehyphenate_fold_length (lines : list text) :
  forall out,
    length (fold_left dehyphenate_step lines out) <= length out + length lines.
Proof.
  induction lines as [|ln lines IH]; intros out; simpl; [lia|].
  specialize (IH (dehyphenate_step out ln)).
  destruct (dehyphenate_step_cases out ln) as [E|(init & x & E & _ & _ & E')].
  - rewrite E in IH at 2. rewrite length_app in IH. simpl in IH. lia.
  - rewrite E' in IH at 2. subst out. rewrite !length_app in *. simpl in *. lia.
Qed.

(** *** What a join deletes *)

(** A line of the result and the run of consecutive lines it was made
    from: one line as it is, or the line made so far, which ended in a
    hyphen, without its trailing white space and that hyphen, followed by
    the next line without its leading white space. *)
Inductive glued : list text -> text -> Prop :=
| glued_one (l : text) : glued [l] l
| glued_more (g : list text) (prev ln : text) :
    glued g prev ->
    ends_with (str "-") (rstrip prev) = true ->
    glued (g ++ [ln]) (removelast (rstrip prev) ++ lstrip ln).

(** Neither white space nor a hyphen. *)
Definition solid (c : char) : bool := negb (isspace c || N.eqb c 45).

(** The number of hyphens. *)
Definition is_hyphen (c : char) : bool := N.eqb 45 c.
Definition hyphens (s : text) : nat := length (A:=char) (filter is_hyphen s).

Lemma ends_with_hyphen (t : text) :
  ends_with (str "-") t = true -> t = removelast t ++ [45%N].
Proof.
  unfold ends_with. change (rev (str "-")) with [45%N].
  destruct (rev t) as [|c r] eqn:E; [discriminate|]. cbn [starts_with].
  destruct (N.eqb_spec 45 c) as [H|_]; [|discriminate]. subst c. intros _.
  apply (f_equal (@rev char)) in E. rewrite rev_involutive in E. simpl in E.
  rewrite E, removelast_last. reflexivity.
Qed.

Section Kept.
Variable q : char -> bool.
Hypothesis q_space : forall c, isspace c = true -> q c = false.

Lemma filter_spaces (pre : text) : forallb isspace pre = true -> filter q pre = [].
Proof.
  induction pre as [|c pre IH]; simpl; [reflexivity|].
  rewrite andb_true_iff. intros [H1 H2]. rewrite (q_space c H1). apply IH, H2.
Qed.

Lemma filter_lstrip (s : text) : filter q (lstrip s) = filter q s.
Proof.
  destruct (lstrip_by_split isspace s) as (pre & E & Hp).
  rewrite E at 2. rewrite filter_app, (filter_spaces pre Hp). reflexivity.
Qed.

Lemma filter_rstrip (s : text) : filter q (rstrip s) = filter q s.
Proof.
  destruct (rstrip_by_split isspace s) as (post & E & Hp).
  rewrite E at 2. rewrite filter_app, (filter_spaces post Hp), app_nil_r.
  reflexivity.
Qed.

(** The characters kept of a line joined to the next: those of the line
    but for its final hyphen. *)
Lemma filter_joined (prev_line ln : text) :
  ends_with (str "-") (rstrip prev_line) = true ->
  filter q prev_line ++ filter q ln
  = filter q (removelast (rstrip prev_line)) ++ filter q [45%N]
    ++ filter q (lstrip ln).
Proof.
  intros H. apply ends_with_hyphen in H.
  rewrite <- (filter_rstrip prev_line), filter_lstrip. rewrite H at 1.
  rewrite filter_app, <- app_assoc. reflexivity.
Qed.

End Kept.

Lemma solid_space (c : char) : isspace c = true -> solid c = false.
Proof. unfold solid. intros ->. reflexivity. Qed.

Lemma hyphen_space (c : char) : isspace c = true -> is_hyphen c = false.
Proof.
  intros H. unfold is_hyphen. destruct (N.eqb_spec 45 c) as [E|_]; [|reflexivity].
  subst c. discriminate.
Qed.

Lemma dehyphenate_step_solid (out : list text) (ln : text) :
  filter solid (concat (dehyphenate_step out ln))
  = filter solid (concat out) ++ filter solid ln.
Proof.
  destruct (dehyphenate_step_cases out ln) as [E|(init & x & E & Eh & _ & E')].
  - rewrite E, concat_app, filter_app. simpl. rewrite app_nil_r. reflexivity.
  - rewrite E'. subst out. rewrite !concat_app, !filter_app. simpl.
    rewrite !app_nil_r, filter_app, <- !app_assoc. f_equal.
    rewrite (filter_joined solid solid_space x ln Eh). reflexivity.
Qed.

Lemma dehyphenate_step_hyphens (out : list text) (ln : text) :
  hyphens (concat (dehyphenate_step out ln)) + S (length out)
  = hyphens (concat out) + hyphens ln + length (dehyphenate_step out ln).
Proof.
  unfold hyphens.
  destruct (dehyphenate_step_cases out ln) as [E|(init & x & E & Eh & _ & E')].
  - rewrite E, concat_app, filter_app, !length_app. cbn [concat length].
    rewrite app_nil_r. lia.
  - rewrite E'. subst out. rewrite !concat_app, !filter_app, !length_app.
    cbn [concat length]. rewrite !app_nil_r, filter_app, !length_app.
    pose proof (f_equal (@length char)
                  (filter_joined is_hyphen hyphen_space x ln Eh)) as H.
    rewrite !length_app in H.
    change (length (filter is_hyphen [45%N])) with 1 in H. lia.
Qed.

Lemma dehyphenate_fold_solid (lines : list text) :
  forall out,
    filter solid (concat (fold_left dehyphenate_step lines out))
    = filter solid (concat out) ++ filter solid (concat lines).
Proof.
  induction lines as [|ln lines IH]; intros out; simpl.
  - rewrite app_nil_r. reflexivity.
  - rewrite IH, dehyphenate_step_solid, filter_app, app_assoc. reflexivity.
Qed.

Lemma dehyphenate_fold_hyphens (lines : list text) :
  forall out,
    hyphens (concat (fold_left dehyphenate_step lines out))
    + (length out + length lines)
    = hyphens (concat out) + hyphens (concat lines)
      + length (fold_left dehyphenate_step lines out).
Proof.
  induction lines as [|ln lines IH]; intros out; simpl.
  - unfold hyphens. simpl. lia.
  - specialize (IH (dehyphenate_step out ln)).
    pose proof (dehyphenate_step_hyphens out ln) as H.
    assert (E : hyphens (ln ++ concat lines) = hyphens ln + hyphens (concat lines)).
    { unfold hyphens. rewrite filter_app, length_app. reflexivity. }
    rewrite E. lia.
Qed.

Lemma dehyphenate_fold_glued (lines : list text) :
  forall (out : list text) (groups : list (list text)),
    Forall2 glued groups out ->
    exists groups',
      concat groups' = concat groups ++ lines /\
      Forall2 glued groups' (fold_left dehyphenate_step lines out).
Proof.
  induction lines as [|ln lines IH]; intros out groups H.
  - exists groups. rewrite app_nil_r. split; [reflexivity | exact H].
  - cbn [fold_left].
    destruct (dehyphenate_step_cases out ln) as [E|(init & x & E & Eh & _ & E')].
    + destruct (IH (out ++ [ln]) (groups ++ [[ln]])) as (groups' & E1 & H1).
      { apply Forall2_app; [exact H|]. constructor; [constructor | constructor]. }
      exists groups'. rewrite E. split; [|exact H1].
      rewrite E1, concat_app. simpl. rewrite <- app_assoc. reflexivity.
    + subst out. apply Forall2_app_inv_r in H.
      destruct H as (g1 & g2 & H1 & H2 & ->).
      inversion H2 as [|g ? gs ? Hg Hnil]; subst. inversion Hnil; subst.
      destruct (IH (init ++ [removelast (rstrip x) ++ lstrip ln])
                   (g1 ++ [g ++ [ln]])) as (groups' & E1 & H3).
      { apply Forall2_app; [exact H1|]. constructor; [|constructor].
        constructor; assumption. }
      exists groups'. rewrite E'. split; [|exact H3].
      rewrite E1, !concat_app. simpl. rewrite !app_nil_r, <- !app_assoc.
      reflexivity.
Qed.

(** The lines are taken one at a time. *)
Lemma dehyphenate_snoc (lines : list text) (ln : text) :
  _dehyphenate_lines (lines ++ [ln])
  = dehyphenate_step (_dehyphenate_lines lines) ln.
Proof. unfold _dehyphenate_lines. rewrite fold_left_app. reflexivity. Qed.

(** X5 ([_dehyphenate_lines]): every line of the result is made from a run
    of consecutive lines of the argument, and the runs together are the
    argument: a line of a run that is followed by another loses its
    trailing white space and the hyphen before it, the line that follows
    loses its leading white space, and nothing else changes.  So the
    characters other than hyphens and white space are kept, in their
    order; for every line fewer in the result one hyphen fewer is left; the
    result has no more lines than the argument.  A line that starts with a
    lower-case letter is joined to the line made so far when that one ends,
    after its trailing white space, with a hyphen; so "infor- " and
    "mation systems -" give "information systems -", to which "End" is not
    joined. *)
Theorem dehyphenate_only_deletes :
  (forall lines : list text,
      (exists groups : list (list text),
          concat groups = lines
          /\ Forall2 glued groups (_dehyphenate_lines lines))
      /\ filter solid (concat (_dehyphenate_lines lines))
         = filter solid (concat lines)
      /\ hyphens (concat (_dehyphenate_lines lines)) + length lines
         = hyphens (concat lines) + length (_dehyphenate_lines lines)
      /\ deleted_from (concat (_dehyphenate_lines lines)) (concat lines)
      /\ length (_dehyphenate_lines lines) <= length lines)
  /\ (forall (lines out : list text) (prev_line ln : text),
         _dehyphenate_lines lines = out ++ [prev_line] ->
         ends_with (str "-") (rstrip prev_line) = true ->
         str_islower (firstn 1 ln) = true ->
         _dehyphenate_lines (lines ++ [ln])
         = out ++ [removelast (rstrip prev_line) ++ lstrip ln])
  /\ _dehyphenate_lines [str "infor- "; str "mation systems -"; str "End"]
     = [str "information systems -"; str "End"].
Proof.
  split; [|split; [|vm_compute; reflexivity]].
  - intros lines. split; [|split; [|split; [|split]]].
    + destruct (dehyphenate_fold_glued lines [] []) as (groups & E & H);
        [constructor|].
      exists groups. split; [exact E | exact H].
    + apply (dehyphenate_fold_solid lines []).
    + pose proof (dehyphenate_fold_hyphens lines []) as H.
      change (hyphens (concat [])) with 0 in H. cbn [length] in H.
      unfold _dehyphenate_lines. lia.
    + apply (dehyphenate_fold_deletes lines [] []). constructor.
    + apply (dehyphenate_fold_length lines []).
  - intros lines out prev_line ln E H1 H2.
    rewrite dehyphenate_snoc, E. unfold dehyphenate_step.
    rewrite last_and_init_snoc, H1, H2. reflexivity.
Qed.

Lemma dehyphenate_only_deletes_witness :
  _dehyphenate_lines [str "infor- "] = [] ++ [str "infor- "]
  /\ _dehyphenate_lines ([str "infor- "] ++ [str "mation"])
     = [] ++ [removelast (rstrip (str "infor- ")) ++ lstrip (str "mation")]
  /\ removelast (rstrip (str "infor- ")) ++ lstrip (str "mation")
     = str "information".
Proof.
  split; [reflexivity|]. split; [|reflexivity].
  apply (proj1 (proj2 dehyphenate_only_deletes) [str "infor- "] []
               (str "infor- ") (str "mation")); reflexivity.
Defined.

End DehyphenFacts.

(* ------------------------------------------------------------------ *)
(** ** The text a pattern consumes *)

Module ReText.
Import Re ReFacts SubFacts ReSpec ReLocal.

(** [Spells r w]: the pattern [r] can consume exactly the text [w]
    (anchors consume nothing). *)
Fixpoint Spells (r : regex) (w : text) : Prop :=
  match r with
  | Eps | Bol _ | Eol _ | WordB => w = []
  | Cls p => exists c, w = [c] /\ p c = true
  | Seq r1 r2 => exists w1 w2, w = w1 ++ w2 /\ Spells r1 w1 /\ Spells r2 w2
  | Alt r1 r2 => Spells r1 w \/ Spells r2 w
  | Star r1 | LazyStar r1 => exists ws, w = concat ws /\ Forall (Spells r1) ws
  | Group _ r1 => Spells r1 w
  end.

Lemma star_rel_spells (r : regex) :
  (forall st st', Matches r st st' ->
     exists w, rest st = w ++ rest st' /\ Spells r w) ->
  forall st st', star_rel (Matches r) st st' ->
    exists ws, rest st = concat ws ++ rest st' /\ Forall (Spells r) ws.
Proof.
  intros IH st st' H.
  induction H as [st|st st1 st2 H1 _ _ IH2].
  - exists []. split; [reflexivity | constructor].
  - destruct (IH _ _ H1) as (w & E & Hw). destruct IH2 as (ws & E2 & Hws).
    exists (w :: ws). split; [|constructor; assumption].
    simpl. rewrite E, E2, app_assoc. reflexivity.
Qed.

(** What lies between two cursors of a match is spelled by the pattern. *)
Lemma matches_spells (r : regex) :
  forall st st', Matches r st st' ->
    exists w, rest st = w ++ rest st' /\ Spells r w.
Proof.
  induction r as [|p|r1 IH1 r2 IH2|r1 IH1 r2 IH2|r1 IH1|r1 IH1|ml|ml| |n r1 IH1];
    intros st st' H; simpl in H.
  - subst. exists []. split; reflexivity.
  - destruct H as (c & t & E & Hp & ->). exists [c]. split; [exact E|].
    exists c. auto.
  - destruct H as (m & H1 & H2).
    destruct (IH1 _ _ H1) as (w1 & E1 & S1). destruct (IH2 _ _ H2) as (w2 & E2 & S2).
    exists (w1 ++ w2). split; [rewrite E1, E2, app_assoc; reflexivity|].
    exists w1, w2. auto.
  - destruct H as [H|H].
    + destruct (IH1 _ _ H) as (w & E & S). exists w. simpl. auto.
    + destruct (IH2 _ _ H) as (w & E & S). exists w. simpl. auto.
  - destruct (star_rel_spells r1 IH1 _ _ H) as (ws & E & Hws).
    exists (concat ws). split; [exact E|]. exists ws. auto.
  - destruct (star_rel_spells r1 IH1 _ _ H) as (ws & E & Hws).
    exists (concat ws). split; [exact E|]. exists ws. auto.
  - destruct H as (_ & ->). exists []. split; reflexivity.
  - destruct H as (_ & ->). exists []. split; reflexivity.
  - destruct H as (_ & ->). exists []. split; reflexivity.
  - destruct H as (m & H & ->). destruct (IH1 _ _ H) as (w & E & S).
    exists w. split; [exact E | exact S].
Qed.

Lemma firstn_consumed (w x : text) :
  firstn (length (w ++ x) - length x) (w ++ x) = w.
Proof.
  rewrite length_app. replace (length w + length x - length x) with (length w) by lia.
  rewrite firstn_app, Nat.sub_diag, firstn_all. simpl. apply app_nil_r.
Qed.

(** A group captures the text its pattern consumed. *)
Lemma matches_group (n : nat) (r : regex) (st st' : mstate) :
  Matches (Group n r) st st' ->
  exists m w, Matches r st m /\ rest st = w ++ rest m /\ Spells r w /\
              st' = MState (prev m) (rest m) ((n, w) :: caps m).
Proof.
  simpl. intros (m & H & ->). destruct (matches_spells r _ _ H) as (w & E & S).
  exists m, w. repeat split; try assumption.
  rewrite E, firstn_consumed. reflexivity.
Qed.

(** *** Words of the usual patterns *)

Lemma spells_star_cls (p : char -> bool) (w : text) :
  Spells (Star (Cls p)) w -> forallb p w = true.
Proof.
  simpl. intros (ws & -> & H). induction H as [|x ws (c & -> & Hc) _ IH]; [reflexivity|].
  simpl. rewrite Hc, IH. reflexivity.
Qed.

Lemma spells_plus_cls (p : char -> bool) (w : text) :
  Spells (Plus (Cls p)) w -> w <> [] /\ forallb p w = true.
Proof.
  intros (w1 & w2 & -> & (c & -> & Hc) & H2). apply spells_star_cls in H2.
  split; [discriminate|]. simpl. rewrite Hc, H2. reflexivity.
Qed.

Lemma spells_seqs_cons (r : regex) (rs : list regex) (w : text) :
  Spells (seqs (r :: rs)) w ->
  exists w1 w2, w = w1 ++ w2 /\ Spells r w1 /\ Spells (seqs rs) w2.
Proof.
  destruct rs as [|r2 rs]; simpl.
  - intros H. exists w, []. rewrite app_nil_r. auto.
  - intros H. exact H.
Qed.

Lemma spells_lit (s w : text) : Spells (lit s) w -> w = s.
Proof.
  unfold lit. revert w. induction s as [|c s IH]; intros w H.
  - exact H.
  - change (map chr (c :: s)) with (chr c :: map chr s) in H.
    apply spells_seqs_cons in H. destruct H as (w1 & w2 & -> & (x & -> & Hx) & H2).
    apply N.eqb_eq in Hx. subst x. rewrite (IH _ H2). reflexivity.
Qed.

Lemma spells_opt (r : regex) (w : text) : Spells (Opt r) w -> Spells r w \/ w = [].
Proof. simpl. tauto. Qed.

(** *** Searching *)

Lemma last_cons {A : Type} (l : list A) :
  forall (x d : A), last (x :: l) d = last l x.
Proof.
  induction l as [|a l IH]; intros x d; [reflexivity|].
  change (last (x :: a :: l) d) with (last (a :: l) d).
  rewrite (IH a d), (IH a x). reflexivity.
Qed.

(** [search] returns the match at the first cursor that has one. *)
Lemma search_from_sound (r : regex) :
  forall (s : text) (p : option char) (st : mstate),
    search_from r p s = Some st ->
    exists pre suf q,
      s = pre ++ suf /\ match_here r q suf = Some st /\
      q = last (map Some pre) p /\
      forall a c b, pre = a ++ c :: b ->
        match_here r (last (map Some a) p) (c :: b ++ suf) = None.
Proof.
  induction s as [|c t IH]; intros p st H; simpl in H.
  - destruct (match_here r p []) as [st0|] eqn:E; [|discriminate].
    inversion H; subst. exists [], [], p. repeat split; try assumption.
    intros a c b Hab. destruct a; discriminate.
  - destruct (match_here r p (c :: t)) as [st0|] eqn:E.
    + inversion H; subst. exists [], (c :: t), p. repeat split; try assumption.
      intros a c0 b Hab. destruct a; discriminate.
    + destruct (IH _ _ H) as (pre & suf & q & E1 & E2 & E3 & E4).
      exists (c :: pre), suf, q. split; [simpl; congruence|].
      split; [exact E2|]. split.
      * rewrite E3. change (map Some (c :: pre)) with (Some c :: map Some pre).
        rewrite last_cons. reflexivity.
      * intros a c0 b Hab. destruct a as [|a0 a].
        -- simpl in Hab. inversion Hab; subst. simpl. exact E.
        -- simpl in Hab. inversion Hab; subst.
           specialize (E4 a c0 b eq_refl).
           change (map Some (a0 :: a)) with (Some a0 :: map Some a).
           rewrite last_cons. exact E4.
Qed.

Lemma search_from_none (r : regex) :
  forall (s : text) (p : option char),
    search_from r p s = None <-> nomatch_all r p s.
Proof.
  induction s as [|c t IH]; intros p; simpl.
  - destruct (match_here r p []); split; intros H; try discriminate; auto.
    destruct H; discriminate.
  - destruct (match_here r p (c :: t)).
    + split; [discriminate | intros [H _]; discriminate].
    + rewrite IH. tauto.
Qed.

(** A pattern that needs a character the text does not have matches
    nowhere. *)
Lemma nomatch_all_missing (r : regex) (P : char -> Prop) :
  (forall w, Spells r w -> Exists P w) ->
  forall (s : text) (p : option char),
    Forall (fun c => ~ P c) s -> nomatch_all r p s.
Proof.
  intros Hr.
  assert (G : forall s p, Forall (fun c => ~ P c) s -> match_here r p s = None).
  { intros s p Hs. destruct (match_here r p s) as [st|] eqn:E; [|reflexivity].
    exfalso. unfold match_here in E. apply rmatch_sound in E.
    destruct E as (st' & M & _). apply matches_spells in M.
    destruct M as (w & E & S). simpl in E. apply Hr in S.
    rewrite E in Hs. apply Forall_app in Hs. destruct Hs as [Hw _].
    apply Exists_exists in S. destruct S as (c & Hin & Hc).
    rewrite Forall_forall in Hw. exact (Hw c Hin Hc). }
  induction s as [|c t IH]; intros p Hs; simpl.
  - split; [apply G, Hs | exact I].
  - split; [apply G, Hs|]. apply IH. inversion Hs; assumption.
Qed.

End ReText.

(* ------------------------------------------------------------------ *)
(** ** Contact details *)

Module ContactFacts.
Import Re ReFacts SubFacts ReSpec ReLocal ReText.

(** The whole match of [search_text] is a piece of the text spelled by the
    pattern, and no match starts before it. *)
Lemma search_text_sound (r : regex) (s whole : text) (cs : list (nat * text)) :
  search_text r s = Some (whole, cs) ->
  exists pre post m,
    s = pre ++ whole ++ post /\ Spells r whole /\
    Matches r (start_state (last (map Some pre) None) (whole ++ post)) m /\
    rest m = post /\
    cs = (0%nat, whole) :: caps m /\
    forall a c b, pre = a ++ c :: b ->
      match_here r (last (map Some a) None) (c :: b ++ whole ++ post) = None.
Proof.
  unfold search_text, search. intros H.
  destruct (search_from (Group 0 r) None s) as [st|] eqn:E; [|discriminate].
  apply search_from_sound in E.
  destruct E as (pre & suf & q & E1 & E2 & E3 & E4).
  unfold match_here in E2. apply rmatch_sound in E2.
  destruct E2 as (st' & M & E2). inversion E2; subst st'. clear E2.
  apply matches_group in M. destruct M as (m & w & M & Ew & S & ->).
  simpl in H. inversion H; subst whole cs. clear H. simpl in Ew.
  exists pre, (rest m), m. subst suf q.
  split; [exact E1|]. split; [exact S|]. split; [exact M|].
  split; [reflexivity|]. split; [reflexivity|].
  intros a c b Hab. specialize (E4 a c b Hab).
  destruct (match_here r _ _) as [x|] eqn:E; [|reflexivity].
  exfalso. unfold match_here in E. apply rmatch_sound in E.
  destruct E as (st' & M' & _).
  revert E4. unfold match_here. simpl.
  eapply rmatch_complete; [exact M' | discriminate].
Qed.

Lemma last_snoc {A : Type} (l : list A) (x d : A) : last (l ++ [x]) d = x.
Proof.
  induction l as [|a l IH]; [reflexivity|].
  change ((a :: l) ++ [x]) with (a :: (l ++ [x])). rewrite last_cons.
  destruct l; [reflexivity|]. simpl app in *. rewrite last_cons in IH.
  rewrite last_cons. exact IH.
Qed.

(** The text an address pattern spells. *)
Lemma spells_email (w : text) :
  Spells RE_EMAIL w ->
  exists l d t : text,
    w = l ++ str "@" ++ d ++ str "." ++ t /\
    (l <> [] /\ forallb email_local l = true) /\
    (d <> [] /\ forallb email_domain d = true) /\
    (t <> [] /\ forallb is_ascii_alpha t = true).
Proof.
  unfold RE_EMAIL. intros H.
  apply spells_seqs_cons in H. destruct H as (l & w1 & -> & Hl & H).
  apply spells_seqs_cons in H. destruct H as (a & w2 & -> & (x & -> & Hx) & H).
  apply spells_seqs_cons in H. destruct H as (d & w3 & -> & Hd & H).
  apply spells_seqs_cons in H. destruct H as (b & t & -> & (y & -> & Hy) & Ht).
  apply N.eqb_eq in Hx, Hy. subst x y.
  exists l, d, t. split; [reflexivity|].
  split; [apply spells_plus_cls, Hl|].
  split; [apply spells_plus_cls, Hd | apply spells_plus_cls, Ht].
Qed.

(** X6 ([extract_email]): a returned address is a piece of the text of the
    form local@domain.tld, with a non-empty local part of [a-zA-Z0-9._%+-],
    a non-empty domain of [a-zA-Z0-9.-] and a non-empty, purely alphabetic
    last label; the local part is not cut short: the character before the
    address, if any, is not one of the local part's characters. *)
Theorem extract_email_shape (txt e : text) :
  extract_email txt = Some e ->
  exists pre post l d t : text,
    txt = pre ++ e ++ post /\
    e = l ++ str "@" ++ d ++ str "." ++ t /\
    (l <> [] /\ forallb email_local l = true) /\
    (d <> [] /\ forallb email_domain d = true) /\
    (t <> [] /\ forallb is_ascii_alpha t = true) /\
    (forall pre' c, pre = pre' ++ [c] -> email_local c = false).
Proof.
  unfold extract_email. intros H.
  destruct (search_text RE_EMAIL txt) as [[whole cs]|] eqn:E; [|discriminate].
  inversion H; subst whole. clear H.
  apply search_text_sound in E.
  destruct E as (pre & post & m & E1 & S & M & _ & _ & E4).
  destruct (spells_email _ S) as (l & d & t & E2 & Hl & Hd & Ht).
  exists pre, post, l, d, t. repeat split; try tauto.
  intros pre' c Hpre. destruct (email_local c) eqn:Hc; [|reflexivity]. exfalso.
  specialize (E4 pre' c [] Hpre). simpl app in E4.
  assert (G : match_here RE_EMAIL (last (map Some pre') None) (c :: e ++ post) <> None).
  { apply match_here_iff. subst pre. rewrite map_app in M. simpl map in M.
    rewrite last_snoc in M.
    unfold RE_EMAIL in M |- *. cbn [seqs] in M |- *.
    destruct M as (m1 & (m0 & M0 & Mstar) & Mrest).
    exists m. exists m1. split; [|exact Mrest].
    exists (start_state (Some c) (e ++ post)). split.
    - exists c, (e ++ post). simpl. auto.
    - destruct M0 as (c1 & t1 & Er & Hc1 & ->).
      eapply star_step; [| | exact Mstar].
      + exists c1, t1. auto.
      + simpl in Er |- *. rewrite Er. simpl. lia. }
  contradiction.
Qed.

Lemma extract_email_shape_witness :
  exists pre post l d t : text,
    str "Mail: jane.doe@mail.example.org, Pune" =
      pre ++ str "jane.doe@mail.example.org" ++ post /\
    str "jane.doe@mail.example.org" = l ++ str "@" ++ d ++ str "." ++ t /\
    (l <> [] /\ forallb email_local l = true) /\
    (d <> [] /\ forallb email_domain d = true) /\
    (t <> [] /\ forallb is_ascii_alpha t = true) /\
    (forall pre' c, pre = pre' ++ [c] -> email_local c = false).
Proof.
  apply (extract_email_shape (str "Mail: jane.doe@mail.example.org, Pune")).
  vm_compute. reflexivity.
Defined.

Lemma spells_email_at (w : text) :
  Spells (Group 0 RE_EMAIL) w -> Exists (fun c => c = 64%N) w.
Proof.
  intros H. apply spells_email in H. destruct H as (l & d & t & -> & _).
  apply Exists_app. right. left. reflexivity.
Qed.

(** X7 ([extract_email]): a text without the character [@] has no
    address. *)
Theorem extract_email_needs_at (txt : text) :
  Forall (fun c => c <> 64%N) txt -> extract_email txt = None.
Proof.
  intros H. unfold extract_email, search_text, search.
  replace (search_from (Group 0 RE_EMAIL) None txt) with (@None mstate); [reflexivity|].
  symmetry. apply search_from_none.
  apply (nomatch_all_missing _ (fun c => c = 64%N)); [apply spells_email_at | exact H].
Qed.

Lemma extract_email_needs_at_witness :
  extract_email (str "jane.doe (at) example.org") = None.
Proof.
  apply extract_email_needs_at.
  repeat (constructor; [discriminate|]). constructor.
Defined.

(** A profile address: [http(s)://], an optional [www.], the site's path
    and a non-empty handle. *)
Definition profile_shape (site : text) (u : text) : Prop :=
  exists scheme www h : text,
    u = scheme ++ str "://" ++ www ++ site ++ h /\
    (scheme = str "http" \/ scheme = str "https") /\
    (www = [] \/ www = str "www.") /\
    h <> [] /\ forallb handle_char_ic h = true.

Lemma handle_char_ic_weaken (h : text) :
  forallb handle_char h = true -> forallb handle_char_ic h = true.
Proof.
  induction h as [|c h IH]; simpl; [reflexivity|]. intros H.
  apply andb_true_iff in H. destruct H as [Hc Hh].
  unfold handle_char_ic at 1. rewrite Hc, (IH Hh). reflexivity.
Qed.

(** What the address pattern spells. *)
Lemma spells_profile_url (site : string) (w : text) :
  Spells (profile_url site) w ->
  exists s www h : text,
    w = s ++ www ++ str site ++ h /\
    (s = [] \/ s = str "http://" \/ s = str "https://") /\
    (www = [] \/ www = str "www.") /\
    h <> [] /\ forallb handle_char h = true.
Proof.
  unfold profile_url. intros H.
  apply spells_seqs_cons in H. destruct H as (s & w1 & -> & Hs & H).
  apply spells_seqs_cons in H. destruct H as (www & w2 & -> & Hw & H).
  destruct H as (x & h & -> & Hx & Hh).
  apply spells_lit in Hx. subst x. apply spells_plus_cls in Hh.
  exists s, www, h. split; [reflexivity|].
  split; [|split; [|exact Hh]].
  - apply spells_opt in Hs. destruct Hs as [Hs|Hs]; [|left; exact Hs]. right.
    change (Spells (seqs [lit (str "http"); Opt (chr 115%N); lit (str "://")]) s) in Hs.
    apply spells_seqs_cons in Hs. destruct Hs as (a & s1 & -> & Ha & Hs).
    apply spells_seqs_cons in Hs. destruct Hs as (b & c & -> & Hb & Hc).
    apply spells_lit in Ha, Hc. subst a c.
    apply spells_opt in Hb. destruct Hb as [(y & -> & Hy)| ->].
    + apply N.eqb_eq in Hy. subst y. right. reflexivity.
    + left. reflexivity.
  - apply spells_opt in Hw. destruct Hw as [Hw|Hw]; [|left; exact Hw]. right.
    apply spells_lit in Hw. exact Hw.
Qed.

(** The user name the label pattern captures. *)
Lemma profile_label_group (word : string) (txt whole : text) (cs : list (nat * text)) :
  search_text (profile_label word) txt = Some (whole, cs) ->
  exists username,
    group 1 cs = Some username /\
    username <> [] /\ forallb handle_char_ic username = true.
Proof.
  intros H. apply search_text_sound in H.
  destruct H as (pre & post & m & _ & _ & M & _ & -> & _).
  unfold profile_label in M. apply seqs_chain in M.
  destruct M as (m1 & _ & m2 & _ & m3 & M & ->).
  apply matches_group in M. destruct M as (m4 & w & _ & _ & S & ->).
  apply spells_plus_cls in S. exists w. split; [reflexivity | exact S].
Qed.

(** X8 ([extract_linkedin]): a returned value is always an address of the
    form http(s)://(www.)linkedin.com/in/handle with a non-empty handle,
    whether it was found as an address or built from a user name. *)
Theorem extract_linkedin_shape (txt u : text) :
  extract_linkedin txt = Some u -> profile_shape (str "linkedin.com/in/") u.
Proof.
  unfold extract_linkedin. intros H.
  destruct (search_text (profile_url "linkedin.com/in/") txt) as [[url cs]|] eqn:E.
  - apply search_text_sound in E. destruct E as (_ & _ & _ & _ & S & _).
    apply spells_profile_url in S.
    destruct S as (s & www & h & -> & Hs & Hw & Hne & Hh).
    apply handle_char_ic_weaken in Hh. inversion H as [Hu]. clear H.
    destruct Hs as [->|[->| ->]].
    + exists (str "https"), www, h.
      destruct Hw as [->| ->]; (split; [reflexivity | auto]).
    + exists (str "http"), www, h. split; [reflexivity | auto].
    + exists (str "https"), www, h. split; [reflexivity | auto].
  - destruct (search_text (profile_label "linkedin") txt) as [[whole cs]|] eqn:E2;
      [|discriminate].
    apply profile_label_group in E2. destruct E2 as (w & Hg & Hne & Hh).
    rewrite Hg in H. inversion H as [Hu]. clear H.
    exists (str "https"), (str "www."), w. split; [reflexivity | auto].
Qed.

Lemma extract_linkedin_shape_witness :
  profile_shape (str "linkedin.com/in/") (str "https://www.linkedin.com/in/jane-doe").
Proof.
  apply (extract_linkedin_shape (str "Profile: www.linkedin.com/in/jane-doe | Pune")).
  vm_compute. reflexivity.
Defined.

(** X9 ([extract_github]): a returned value is always an address of the
    form http(s)://(www.)github.com/handle with a non-empty handle. *)
Theorem extract_github_shape (txt u : text) :
  extract_github txt = Some u -> profile_shape (str "github.com/") u.
Proof.
  unfold extract_github. intros H.
  destruct (search_text (profile_url "github.com/") txt) as [[url cs]|] eqn:E.
  - apply search_text_sound in E. destruct E as (_ & _ & _ & _ & S & _).
    apply spells_profile_url in S.
    destruct S as (s & www & h & -> & Hs & Hw & Hne & Hh).
    apply handle_char_ic_weaken in Hh. inversion H as [Hu]. clear H.
    destruct Hs as [->|[->| ->]].
    + exists (str "https"), www, h.
      destruct Hw as [->| ->]; (split; [reflexivity | auto]).
    + exists (str "http"), www, h. split; [reflexivity | auto].
    + exists (str "https"), www, h. split; [reflexivity | auto].
  - destruct (search_text (profile_label "github") txt) as [[whole cs]|] eqn:E2;
      [|discriminate].
    apply profile_label_group in E2. destruct E2 as (w & Hg & Hne & Hh).
    rewrite Hg in H. inversion H as [Hu]. clear H.
    exists (str "https"), [], w. split; [reflexivity | auto].
Qed.

Lemma extract_github_shape_witness :
  profile_shape (str "github.com/") (str "https://github.com/jdoe").
Proof.
  apply (extract_github_shape (str "GitHub: jdoe")).
  vm_compute. reflexivity.
Defined.

End ContactFacts.

(* ------------------------------------------------------------------ *)
(** ** Squeezing runs of a character class *)

Module RunFacts.
Import Re ReFacts SubFacts NormalizeFacts NormalizeIdem.

Section Runs.
Variable p : char -> bool.

Definition head_out (s : text) : Prop :=
  match s with
  | c :: _ => p c = false
  | [] => True
  end.
Definition last_out (s : text) : Prop := head_out (rev s).

(** No two adjacent characters of the class. *)
Fixpoint no_adj (s : text) : Prop :=
  match s with
  | c1 :: ((c2 :: _) as t) => ~ (p c1 = true /\ p c2 = true) /\ no_adj t
  | _ => True
  end.

(** Every character of the class is [x], and no two are adjacent. *)
Definition squeezed (x : char) (s : text) : Prop :=
  Forall (fun c => p c = true -> c = x) s /\ no_adj s.

Lemma no_adj_cons (c : char) (t : text) :
  (p c = true -> head_out t) -> no_adj t -> no_adj (c :: t).
Proof.
  destruct t as [|c2 t]; simpl; [tauto|]. intros H Ht. split; [|assumption].
  intros [H1 H2]. specialize (H H1). congruence.
Qed.

Lemma no_adj_app_l (a b : text) : no_adj (a ++ b) -> no_adj a.
Proof.
  induction a as [|c a IH]; simpl; [tauto|].
  destruct a as [|c2 a]; simpl in *; [tauto|].
  intros [H1 H2]. split; [assumption|]. apply IH. exact H2.
Qed.

Lemma no_adj_app_r (a b : text) : no_adj (a ++ b) -> no_adj b.
Proof.
  induction a as [|c a IH]; simpl; [tauto|].
  intros H. apply IH. destruct (a ++ b); simpl in *; tauto.
Qed.

Lemma plus_cls_some (q : option char) (c : char) (t : text) :
  p c = true ->
  exists pv', match_here (Plus (Cls p)) q (c :: t)
              = Some (MState pv' (lstrip_by p t) []).
Proof.
  intros Hc. unfold match_here, Plus, start_state.
  rewrite rmatch_seq, rmatch_cls. cbn [rest]. rewrite Hc.
  unfold advance. cbn [caps]. apply star_cls_some.
Qed.

Lemma plus_cls_none (q : option char) (s : text) :
  head_out s -> match_here (Plus (Cls p)) q s = None.
Proof.
  intros H. unfold match_here, Plus, start_state.
  rewrite rmatch_seq, rmatch_cls. cbn [rest].
  destruct s as [|c t]; [reflexivity|]. simpl in H. rewrite H. reflexivity.
Qed.

(** Replacing every run of the class by one character of the class
    squeezes the text. *)
Lemma plus_loop_squeezed (x : char) :
  forall (fuel : nat) (s : text) (q : option char),
    length s < fuel ->
    squeezed x (sub_loop (Plus (Cls p)) [x] fuel q s) /\
    (head_out s -> head_out (sub_loop (Plus (Cls p)) [x] fuel q s)).
Proof.
  induction fuel as [|f IH]; intros s q Hf; [lia|].
  destruct s as [|c t].
  - cbn [sub_loop]. rewrite plus_cls_none by exact I.
    split; [split; [constructor | exact I] | intros _; exact I].
  - destruct (p c) eqn:Hc.
    + destruct (plus_cls_some q c t Hc) as [pv' E].
      cbn [sub_loop]. rewrite E. cbn [rest prev].
      pose proof (lstrip_by_length p t) as Hl.
      rewrite (proj2 (Nat.ltb_lt _ _)) by (simpl; lia).
      destruct (IH (lstrip_by p t) pv') as [[H1 H2] H3]; [simpl in Hf; lia|].
      split; [|simpl; congruence].
      simpl app. split.
      * constructor; [reflexivity | exact H1].
      * apply no_adj_cons; [|exact H2]. intros _. apply H3.
        exact (lstrip_by_head p t).
    + cbn [sub_loop]. rewrite plus_cls_none by exact Hc.
      destruct (IH t (Some c)) as [[H1 H2] H3]; [simpl in Hf; lia|].
      split; [|intros _; exact Hc].
      split.
      * constructor; [congruence | exact H1].
      * apply no_adj_cons; [congruence | exact H2].
Qed.

Lemma sub_plus_squeezed (x : char) (s : text) :
  squeezed x (sub (Plus (Cls p)) [x] s).
Proof. apply (plus_loop_squeezed x (S (length s)) s None). lia. Qed.

Lemma squeezed_app_l (x : char) (a b : text) : squeezed x (a ++ b) -> squeezed x a.
Proof.
  intros [H1 H2]. apply Forall_app in H1. split; [tauto | eapply no_adj_app_l, H2].
Qed.

Lemma squeezed_app_r (x : char) (a b : text) : squeezed x (a ++ b) -> squeezed x b.
Proof.
  intros [H1 H2]. apply Forall_app in H1. split; [tauto | eapply no_adj_app_r, H2].
Qed.

End Runs.

(** Stripping by [q] keeps a squeezed text squeezed and leaves no [q] at
    either end. *)
Lemma strip_by_squeezed (p q : char -> bool) (x : char) (s : text) :
  squeezed p x s -> squeezed p x (strip_by q s).
Proof.
  intros H. unfold strip_by.
  destruct (lstrip_by_suffix q s) as [pre E].
  rewrite E in H. apply squeezed_app_r in H.
  destruct (rstrip_by_prefix q (lstrip_by q s)) as [post E'].
  rewrite E' in H. apply squeezed_app_l in H. exact H.
Qed.

Lemma strip_by_head_out (q : char -> bool) (s : text) : head_out q (strip_by q s).
Proof.
  unfold strip_by. pose proof (lstrip_by_head q s) as H.
  destruct (lstrip_by q s) as [|c t]; [exact I|].
  rewrite rstrip_by_cons by exact H. exact H.
Qed.

Lemma strip_by_last_out (q : char -> bool) (s : text) : last_out q (strip_by q s).
Proof.
  unfold last_out, strip_by, rstrip_by. rewrite rev_involutive.
  apply lstrip_by_head.
Qed.

(** *** In the words of [str] methods *)

Lemma squeezed_no_double (p : char -> bool) (x : char) (s : text) :
  p x = true -> squeezed p x s -> contains [x; x] s = false.
Proof.
  intros Hx [_ H]. induction s as [|c t IH]; [reflexivity|].
  cbn [contains]. rewrite IH by (destruct t; simpl in H; tauto).
  rewrite orb_false_r. destruct t as [|c2 t]; simpl.
  - apply andb_false_r.
  - destruct H as [H _].
    destruct (N.eqb_spec x c) as [<-|]; [|reflexivity].
    destruct (N.eqb_spec x c2) as [<-|]; [|reflexivity].
    exfalso. apply H. auto.
Qed.

Lemma head_out_starts_with (q : char -> bool) (x : char) (s : text) :
  q x = true -> head_out q s -> starts_with [x] s = false.
Proof.
  intros Hx H. destruct s as [|c t]; [reflexivity|]. simpl in *.
  destruct (N.eqb_spec x c) as [<-|]; [congruence | reflexivity].
Qed.

Lemma last_out_ends_with (q : char -> bool) (x : char) (s : text) :
  q x = true -> last_out q s -> ends_with [x] s = false.
Proof. intros Hx H. unfold ends_with. apply (head_out_starts_with q); assumption. Qed.

(** A line without leading, trailing or repeated white space, whose only
    white space is the space character, is its words joined by spaces. *)
Lemma join_split_ws_from :
  forall (l cur : text),
    squeezed isspace SP l -> (cur <> [] \/ head_out isspace l) ->
    last_out isspace l ->
    join [SP] (split_ws_from cur l) = rev cur ++ l.
Proof.
  induction l as [|c t IH]; intros cur Hs Hh Hl.
  - simpl. destruct cur; [reflexivity|]. simpl. rewrite app_nil_r. reflexivity.
  - assert (Ht : squeezed isspace SP t) by (apply (squeezed_app_r _ _ [c]), Hs).
    assert (Hlt : t <> [] -> last_out isspace t).
    { intros Hne. unfold last_out in *. simpl rev in Hl.
      destruct (rev t) as [|y r] eqn:Er; [|exact Hl].
      apply (f_equal (@rev char)) in Er. rewrite rev_involutive in Er. contradiction. }
    cbn [split_ws_from]. destruct (isspace c) eqn:Hc.
    + destruct Hh as [Hh|Hh]; [|simpl in Hh; congruence].
      assert (Ec : c = SP).
      { destruct Hs as [Hs _]. inversion Hs; subst. auto. }
      assert (Hne : t <> []).
      { intros ->. unfold last_out in Hl. simpl in Hl. congruence. }
      assert (Hht : head_out isspace t).
      { destruct Hs as [_ Hs]. destruct t as [|c2 t]; [exact I|]. simpl in *.
        destruct (isspace c2) eqn:E2; [|reflexivity]. exfalso. apply Hs. auto. }
      specialize (IH [] Ht (or_intror Hht) (Hlt Hne)). simpl rev in IH. simpl app in IH.
      destruct cur as [|c0 cur]; [congruence|].
      destruct (split_ws_from [] t) as [|w ws] eqn:Ews.
      * simpl in IH. congruence.
      * change (join [SP] (rev (c0 :: cur) :: w :: ws))
          with (rev (c0 :: cur) ++ [SP] ++ join [SP] (w :: ws)).
        rewrite IH, Ec. reflexivity.
    + destruct t as [|c2 t'] eqn:Et.
      * simpl. reflexivity.
      * rewrite <- Et in *. rewrite IH.
        -- simpl. rewrite <- app_assoc. reflexivity.
        -- exact Ht.
        -- left. discriminate.
        -- apply Hlt. subst t. discriminate.
Qed.

Lemma join_split_ws (l : text) :
  squeezed isspace SP l -> head_out isspace l -> last_out isspace l ->
  join [SP] (split_ws l) = l.
Proof.
  intros Hs Hh Hl. unfold split_ws. rewrite join_split_ws_from; auto.
Qed.

End RunFacts.

(* ------------------------------------------------------------------ *)
(** ** The lines of the sections *)

Module SegmenterLines.
Import Re NormalizeFacts TextFacts RunFacts SegmenterFacts.

(** [" ".join(l.split()) == l] for a non-empty line. *)
Definition tidy_line (l : text) : Prop := l <> [] /\ join [SP] (split_ws l) = l.

(** [v.split("\n") if v else []] *)
Definition text_lines (v : text) : list text :=
  match v with
  | [] => []
  | _ => split_on NL v
  end.

(** The cleaning of line 934. *)
Definition squeeze (l : text) : text := strip (sub RE_WS_RUN [SP] l).

Lemma clean_lines_eq (ls : list text) :
  clean_lines ls = filter (fun l => negb (is_empty l)) (map squeeze ls).
Proof. reflexivity. Qed.

Lemma squeeze_shape (l : text) :
  squeezed isspace SP (squeeze l) /\ head_out isspace (squeeze l)
  /\ last_out isspace (squeeze l).
Proof.
  unfold squeeze, strip. split; [|split].
  - apply strip_by_squeezed. apply sub_plus_squeezed.
  - apply strip_by_head_out.
  - apply strip_by_last_out.
Qed.

Lemma squeeze_no_NL (l : text) : Forall (fun c => c <> NL) (squeeze l).
Proof.
  destruct (squeeze_shape l) as [[H _] _].
  eapply Forall_impl; [|exact H]. intros c Hc E. subst c.
  specialize (Hc eq_refl). discriminate.
Qed.

Lemma clean_lines_In (ls : list text) (l : text) :
  In l (clean_lines ls) -> l <> [] /\ exists l0, In l0 ls /\ l = squeeze l0.
Proof.
  rewrite clean_lines_eq. intros H. apply filter_In in H. destruct H as [H Hne].
  apply in_map_iff in H. destruct H as (l0 & E & Hin). split.
  - destruct l; [discriminate | discriminate].
  - exists l0. auto.
Qed.

Lemma clean_lines_tidy (ls : list text) : Forall tidy_line (clean_lines ls).
Proof.
  apply Forall_forall. intros l H. apply clean_lines_In in H.
  destruct H as (Hne & l0 & _ & ->). split; [exact Hne|].
  destruct (squeeze_shape l0) as (H1 & H2 & H3). apply join_split_ws; assumption.
Qed.

Lemma clean_lines_no_NL (ls : list text) :
  Forall (Forall (fun c => c <> NL)) (clean_lines ls).
Proof.
  apply Forall_forall. intros l H. apply clean_lines_In in H.
  destruct H as (_ & l0 & _ & ->). apply squeeze_no_NL.
Qed.

(** The lines of a joined text are the lines that were joined. *)
Lemma text_lines_join (ls : list text) :
  Forall (fun l => l <> []) ls -> Forall (Forall (fun c => c <> NL)) ls ->
  text_lines (join [NL] ls) = ls.
Proof.
  intros Hne Hnl. destruct ls as [|l ls]; [reflexivity|].
  unfold text_lines.
  destruct (join [NL] (l :: ls)) as [|c t] eqn:E.
  - exfalso. inversion Hne as [|? ? Hl _]; subst.
    destruct ls; simpl in E; [contradiction|].
    destruct l; [contradiction | discriminate].
  - rewrite <- E. apply split_on_join; [discriminate | exact Hnl].
Qed.

Lemma text_lines_clean (ls : list text) :
  text_lines (join [NL] (clean_lines ls)) = clean_lines ls.
Proof.
  apply text_lines_join; [|apply clean_lines_no_NL].
  eapply Forall_impl; [|apply clean_lines_tidy]. intros l [H _]. exact H.
Qed.

(** X10 ([extract_sections_with_pymupdf]): the segmenter always returns,
    and every line of every section's text is non-empty and equal to its
    words joined by single spaces (no leading, trailing or repeated white
    space; a section without lines has the empty text). *)
Theorem section_lines_are_tidy (doc : document) :
  exists secs,
    extract_sections_with_pymupdf doc = Some secs /\
    Forall (fun kv => Forall tidy_line (text_lines (snd kv))) secs.
Proof.
  destruct (process_lines_inv (document_lines doc) _ initial_inv)
    as ([parsed current] & E & _).
  unfold extract_sections_with_pymupdf. rewrite E.
  eexists. split; [reflexivity|].
  unfold final_sections. apply Forall_forall. intros kv H.
  apply in_map_iff in H. destruct H as ([k ls] & <- & _). simpl.
  rewrite text_lines_clean. apply clean_lines_tidy.
Qed.

(** *** No line is lost *)

(** The stripped text of a line of the document (lines 903-915). *)
Definition line_text (ln : line) : text := strip (fst (fst (line_info ln))).

Definition nonempty (l : text) : bool := negb (is_empty l).

Lemma dict_append_concat (d d' : sections_dict) (key v : text) :
  dict_append d key v = Some d' ->
  Permutation (concat (map snd d')) (v :: concat (map snd d)).
Proof.
  revert d'. induction d as [|[k vs] d IH]; intros d' H; simpl in H; [discriminate|].
  destruct (text_eqb k key).
  - inversion H; subst. simpl. rewrite <- app_assoc.
    apply Permutation_sym. apply (Permutation_middle vs).
  - destruct (dict_append d key v) as [d''|]; [|discriminate].
    inversion H; subst. simpl.
    eapply Permutation_trans; [apply Permutation_app_head, IH; reflexivity|].
    apply Permutation_sym. apply Permutation_middle.
Qed.

Lemma process_line_concat (st st' : seg_state) (ln : line) :
  process_line st ln = Some st' ->
  Permutation (concat (map snd (fst st')))
              (filter nonempty [line_text ln] ++ concat (map snd (fst st))).
Proof.
  destruct st as [parsed cur]. unfold process_line, line_text.
  destruct (line_info ln) as [[t is_bold] font_size]. simpl fst.
  unfold nonempty. cbn [filter].
  destruct (is_empty (strip t)) eqn:Ee; cbn [negb].
  - intros H. inversion H; subst. simpl. apply Permutation_refl.
  - destruct (dict_append parsed _ (strip t)) as [d'|] eqn:Ed; [|discriminate].
    intros H. inversion H; subst. simpl. eapply dict_append_concat. exact Ed.
Qed.

Lemma process_lines_concat (lns : list line) :
  forall st st',
    process_lines st lns = Some st' ->
    Permutation (concat (map snd (fst st')))
                (filter nonempty (map line_text lns) ++ concat (map snd (fst st))).
Proof.
  induction lns as [|ln lns IH]; intros st st' H; simpl in H.
  - inversion H; subst. apply Permutation_refl.
  - destruct (process_line st ln) as [st1|] eqn:E; [|discriminate].
    apply IH in H. apply process_line_concat in E.
    eapply Permutation_trans; [exact H|].
    eapply Permutation_trans; [apply Permutation_app_head, E|].
    rewrite app_assoc. apply Permutation_app_tail.
    change (map line_text (ln :: lns)) with ([line_text ln] ++ map line_text lns).
    rewrite filter_app. apply Permutation_app_comm.
Qed.

Lemma squeeze_nil : squeeze [] = [].
Proof. reflexivity. Qed.

Lemma clean_lines_nonempty (ls : list text) :
  clean_lines (filter nonempty ls) = clean_lines ls.
Proof.
  rewrite !clean_lines_eq. induction ls as [|l ls IH]; [reflexivity|].
  destruct l as [|c l].
  - simpl filter at 2. simpl map at 2. rewrite squeeze_nil. simpl. exact IH.
  - change (filter nonempty ((c :: l) :: ls)) with ((c :: l) :: filter nonempty ls).
    simpl map. simpl filter. rewrite IH. reflexivity.
Qed.

Lemma clean_lines_concat (lss : list (list text)) :
  clean_lines (concat lss) = concat (map clean_lines lss).
Proof.
  rewrite clean_lines_eq.
  induction lss as [|ls lss IH]; [reflexivity|].
  simpl. rewrite map_app, filter_app, IH. reflexivity.
Qed.

Lemma clean_lines_perm (a b : list text) :
  Permutation a b -> Permutation (clean_lines a) (clean_lines b).
Proof.
  intros H. rewrite !clean_lines_eq.
  induction H as [|x a b H IH|x y a|a b c H1 IH1 H2 IH2].
  - constructor.
  - simpl. destruct (negb (is_empty (squeeze x))); [constructor|]; exact IH.
  - simpl. destruct (negb (is_empty (squeeze x))), (negb (is_empty (squeeze y)));
      try apply Permutation_refl. apply perm_swap.
  - eapply Permutation_trans; eassumption.
Qed.

(** *** All the lines of the document *)

(** The lines of a block; a block without the key "lines" has none. *)
Definition lines_of_block (b : block) : list line :=
  match block_lines b with Some ls => ls | None => [] end.

(** The lines of all blocks of all pages, in the order of the page
    dictionaries. *)
Definition all_lines (doc : document) : list line :=
  flat_map (fun p => flat_map lines_of_block (page_blocks p)) doc.

Lemma insert_by_y0_perm (b : block) (l : list block) :
  Permutation (insert_by_y0 b l) (b :: l).
Proof.
  induction l as [|b' l IH]; simpl; [apply Permutation_refl|].
  destruct (Qle_bool _ _); [apply Permutation_refl|].
  eapply Permutation_trans; [apply perm_skip, IH | apply perm_swap].
Qed.

Lemma sort_by_y0_perm (l : list block) : Permutation (sort_by_y0 l) l.
Proof.
  induction l as [|b l IH]; simpl; [constructor|].
  eapply Permutation_trans; [apply insert_by_y0_perm | apply perm_skip, IH].
Qed.

(** The two columns together are the blocks. *)
Lemma columns_perm (q : block -> bool) (l : list block) :
  Permutation (filter q l ++ filter (fun b => negb (q b)) l) l.
Proof.
  induction l as [|b l IH]; simpl; [constructor|].
  destruct (q b); simpl.
  - apply perm_skip, IH.
  - eapply Permutation_trans; [apply Permutation_sym, Permutation_middle|].
    apply perm_skip, IH.
Qed.

(** A block without lines adds no line. *)
Lemma lines_of_has_lines (l : list block) :
  flat_map lines_of_block (filter has_lines l) = flat_map lines_of_block l.
Proof.
  induction l as [|b l IH]; simpl; [reflexivity|].
  unfold has_lines at 1, lines_of_block at 2.
  destruct (block_lines b) as [ls|] eqn:E; simpl.
  - unfold lines_of_block at 1. rewrite E, IH. reflexivity.
  - exact IH.
Qed.

(** The two columns of a page, each from top to bottom, hold every line of
    every block of the page once. *)
Lemma page_lines_perm (p : page) :
  Permutation (page_lines p) (flat_map lines_of_block (page_blocks p)).
Proof.
  unfold page_lines. fold lines_of_block.
  rewrite <- (lines_of_has_lines (page_blocks p)).
  apply Permutation_flat_map.
  eapply Permutation_trans; [|apply columns_perm].
  apply Permutation_app; apply sort_by_y0_perm.
Qed.

Lemma document_lines_perm (doc : document) :
  Permutation (document_lines doc) (all_lines doc).
Proof.
  unfold document_lines, all_lines.
  induction doc as [|p doc IH]; simpl; [constructor|].
  apply Permutation_app; [apply page_lines_perm | exact IH].
Qed.

(** *** The words of a line *)

Lemma split_ws_lead (pre s : text) :
  forallb isspace pre = true -> split_ws_from [] (pre ++ s) = split_ws_from [] s.
Proof.
  induction pre as [|c pre IH]; simpl; [reflexivity|].
  rewrite andb_true_iff. intros [-> H]. apply IH, H.
Qed.

Lemma split_ws_spaces (post : text) :
  forallb isspace post = true -> split_ws_from [] post = [].
Proof.
  intros H. rewrite <- (app_nil_r post). rewrite split_ws_lead by exact H.
  reflexivity.
Qed.

Lemma split_ws_trail (post : text) :
  forallb isspace post = true ->
  forall s cur, split_ws_from cur (s ++ post) = split_ws_from cur s.
Proof.
  intros Hp. induction s as [|c s IH]; intros cur.
  - simpl. destruct post as [|w post]; [reflexivity|].
    simpl in Hp. apply andb_true_iff in Hp. destruct Hp as [Hw Hp].
    simpl. rewrite Hw, (split_ws_spaces post Hp). destruct cur; reflexivity.
  - simpl. destruct (isspace c).
    + rewrite IH. reflexivity.
    + apply IH.
Qed.

Lemma split_ws_strip (s : text) : split_ws (strip s) = split_ws s.
Proof.
  unfold split_ws, strip, strip_by.
  destruct (FooterFacts.lstrip_by_split isspace s) as (pre & E1 & Hpre).
  destruct (FooterFacts.rstrip_by_split isspace (lstrip_by isspace s))
    as (post & E2 & Hpost).
  rewrite E1 at 2. rewrite split_ws_lead by exact Hpre.
  rewrite E2 at 2. rewrite split_ws_trail by exact Hpost. reflexivity.
Qed.

(** Replacing every run of white space by one space keeps the words. *)
Lemma split_ws_sub_loop :
  forall (fuel : nat) (s : text) (q : option char) (cur : text),
    length s < fuel ->
    split_ws_from cur (sub_loop RE_WS_RUN [SP] fuel q s) = split_ws_from cur s.
Proof.
  unfold RE_WS_RUN, ws.
  induction fuel as [|f IH]; intros s q cur Hf; [lia|].
  destruct s as [|c t].
  - cbn [sub_loop]. rewrite RunFacts.plus_cls_none by exact I. reflexivity.
  - destruct (isspace c) eqn:Hc.
    + destruct (RunFacts.plus_cls_some isspace q c t Hc) as [pv' E].
      cbn [sub_loop]. rewrite E. cbn [rest prev].
      pose proof (NormalizeIdem.lstrip_by_length isspace t) as Hl.
      rewrite (proj2 (Nat.ltb_lt _ _)) by (simpl; lia).
      assert (G : split_ws_from [] (sub_loop (Plus (Cls isspace)) [SP] f pv'
                                      (lstrip_by isspace t))
                  = split_ws_from [] t).
      { rewrite IH by (simpl in Hf; lia).
        destruct (FooterFacts.lstrip_by_split isspace t) as (pre & E1 & Hpre).
        rewrite E1 at 2. rewrite split_ws_lead by exact Hpre. reflexivity. }
      simpl. rewrite Hc, G. reflexivity.
    + cbn [sub_loop]. rewrite RunFacts.plus_cls_none by exact Hc.
      simpl. rewrite Hc. apply IH. simpl in Hf. lia.
Qed.

(** The cleaning of line 934 gives the words of the line joined by single
    spaces. *)
Lemma squeeze_words (l : text) : squeeze l = join [SP] (split_ws l).
Proof.
  destruct (squeeze_shape l) as (H1 & H2 & H3).
  rewrite <- (RunFacts.join_split_ws (squeeze l) H1 H2 H3) at 1.
  f_equal. unfold squeeze. rewrite split_ws_strip. unfold split_ws, sub.
  apply split_ws_sub_loop. lia.
Qed.

Lemma line_info_text (ln : line) :
  forall acc, fst (fst (fold_left span_step ln acc))
              = fst (fst acc) ++ concat (map span_text ln).
Proof.
  induction ln as [|sp ln IH]; intros [[t b] f]; simpl.
  - rewrite app_nil_r. reflexivity.
  - rewrite IH. simpl. rewrite <- app_assoc. reflexivity.
Qed.

(** The words of a line of the document, joined by single spaces. *)
Definition line_words (ln : line) : text :=
  join [SP] (split_ws (concat (map span_text ln))).

Lemma squeeze_line_text (ln : line) : squeeze (line_text ln) = line_words ln.
Proof.
  unfold line_text, line_words, line_info. rewrite line_info_text. simpl.
  rewrite squeeze_words, split_ws_strip. reflexivity.
Qed.

Lemma clean_lines_words (lns : list line) :
  clean_lines (map line_text lns) = filter nonempty (map line_words lns).
Proof.
  rewrite clean_lines_eq, map_map. unfold nonempty.
  f_equal. apply map_ext. exact squeeze_line_text.
Qed.

(** X11 ([extract_sections_with_pymupdf]): no line is lost or duplicated,
    whatever the column and the height of its block: the lines of all the
    sections' texts together are, up to their order, the lines of all the
    blocks of all the pages, each as its words joined by single spaces,
    those without a word left out. *)
Theorem sections_partition_the_lines (doc : document) :
  exists secs,
    extract_sections_with_pymupdf doc = Some secs /\
    Permutation (flat_map (fun kv => text_lines (snd kv)) secs)
                (filter nonempty (map line_words (all_lines doc))).
Proof.
  destruct (process_lines_inv (document_lines doc) _ initial_inv)
    as ([parsed current] & E & _).
  unfold extract_sections_with_pymupdf. rewrite E.
  eexists. split; [reflexivity|].
  apply process_lines_concat in E. simpl in E. rewrite app_nil_r in E.
  apply clean_lines_perm in E. rewrite clean_lines_nonempty in E.
  rewrite <- clean_lines_words.
  eapply Permutation_trans;
    [|apply clean_lines_perm, Permutation_map, document_lines_perm].
  eapply Permutation_trans; [|exact E].
  rewrite clean_lines_concat. unfold final_sections.
  rewrite flat_map_concat_map, !map_map. simpl.
  erewrite map_ext; [apply Permutation_refl|].
  intros [k ls]. simpl. apply text_lines_clean.
Qed.

End SegmenterLines.

(* ------------------------------------------------------------------ *)
(** ** The text-only fallback *)

Module NaiveFacts.
Import Re NormalizeFacts TextFacts SegmenterFacts SegmenterLines.













End NaiveFacts.

(* ------------------------------------------------------------------ *)
(** ** The batch driver *)

Module DriverFacts.
Import Re NormalizeFacts RunFacts.

(** X13 (batch driver, lines 1160-1167): the stem of the JSON file name is
    either the PDF's own base name, or a non-empty string of ASCII letters,
    digits and underscores that neither starts nor ends with an underscore
    and has no two underscores in a row. *)
Theorem safe_name_is_safe (name base_no_ext : text) :
  let s := safe_name name base_no_ext in
  s = base_no_ext \/
  (s <> [] /\
   Forall (fun c => is_ascii_alnum c = true \/ c = 95%N) s /\
   starts_with (str "_") s = false /\
   ends_with (str "_") s = false /\
   contains (str "__") s = false).
Proof.
  unfold safe_name.
  set (e := if is_empty (strip name) || text_eqb (lower (strip name)) (str "unknown")
            then base_no_ext else strip name).
  set (p := fun c : char => negb (is_ascii_alnum c)).
  set (q := fun c : char => existsb (N.eqb c) (str "_")).
  assert (Hs : squeezed p 95%N (strip_chars (str "_") (sub RE_NON_ALNUM (str "_") e))).
  { apply (strip_by_squeezed p q). apply (sub_plus_squeezed p). }
  assert (Hh : head_out q (strip_chars (str "_") (sub RE_NON_ALNUM (str "_") e)))
    by exact (strip_by_head_out q _).
  assert (Hl : last_out q (strip_chars (str "_") (sub RE_NON_ALNUM (str "_") e)))
    by exact (strip_by_last_out q _).
  destruct (strip_chars (str "_") (sub RE_NON_ALNUM (str "_") e)) as [|c t] eqn:E;
    [left; reflexivity|].
  right. simpl is_empty. cbv iota. split; [discriminate|].
  split; [|split; [|split]].
  - destruct Hs as [Hs _]. eapply Forall_impl; [|exact Hs].
    intros x Hx. unfold p in Hx. destruct (is_ascii_alnum x); [left; reflexivity|].
    right. apply Hx. reflexivity.
  - apply (head_out_starts_with q); [reflexivity | exact Hh].
  - apply (last_out_ends_with q); [reflexivity | exact Hl].
  - apply (squeezed_no_double p); [reflexivity | exact Hs].
Qed.

End DriverFacts.

(* ------------------------------------------------------------------ *)
(** ** The shape of normalised text *)

Module NormalizeShape.
Import Re ReFacts SubFacts NormalizeFacts NormalizeIdem ReSpec ReText.

(** The least number of characters a pattern consumes. *)
Fixpoint min_len (r : regex) : nat :=
  match r with
  | Cls _ => 1
  | Seq r1 r2 => min_len r1 + min_len r2
  | Alt r1 r2 => Nat.min (min_len r1) (min_len r2)
  | Group _ r1 => min_len r1
  | _ => 0
  end.

Lemma spells_min_len (r : regex) :
  forall w, Spells r w -> min_len r <= length w.
Proof.
  induction r as [|p|r1 IH1 r2 IH2|r1 IH1 r2 IH2|r1 IH1|r1 IH1|ml|ml| |n r1 IH1];
    intros w H; simpl in *; try lia.
  - destruct H as (c & -> & _). simpl. lia.
  - destruct H as (w1 & w2 & -> & H1 & H2). rewrite length_app.
    specialize (IH1 _ H1). specialize (IH2 _ H2). lia.
  - destruct H as [H|H]; [specialize (IH1 _ H) | specialize (IH2 _ H)]; lia.
  - apply IH1, H.
Qed.

(** A match consumes at least [min_len] characters. *)
Lemma match_here_min_len (r : regex) (p : option char) (s : text) (st : mstate) :
  match_here r p s = Some st -> min_len r + length (rest st) <= length s.
Proof.
  unfold match_here. intros H. apply rmatch_sound in H.
  destruct H as (st' & M & E). inversion E; subst st'.
  apply matches_spells in M. destruct M as (w & Ew & S). simpl in Ew.
  rewrite Ew, length_app. apply spells_min_len in S. lia.
Qed.

(** A substitution whose replacement is no longer than any match does not
    lengthen the text. *)
Lemma sub_loop_length (r : regex) (repl : text) :
  length repl <= min_len r ->
  forall (fuel : nat) (p : option char) (s : text),
    length (sub_loop r repl fuel p s) <= length s.
Proof.
  intros Hr. induction fuel as [|f IH]; intros p s; [simpl; lia|].
  cbn [sub_loop]. destruct (match_here r p s) as [st|] eqn:E.
  - apply match_here_min_len in E.
    destruct (Nat.ltb_spec (length (rest st)) (length s)) as [Hlt|Hge].
    + rewrite length_app. specialize (IH (prev st) (rest st)). lia.
    + destruct s as [|c t].
      * simpl in *. lia.
      * rewrite length_app. simpl. specialize (IH (Some c) t). simpl in *. lia.
  - destruct s as [|c t]; [simpl; lia|]. simpl. specialize (IH (Some c) t). lia.
Qed.

Lemma sub_length (r : regex) (repl s : text) :
  length repl <= min_len r -> length (sub r repl s) <= length s.
Proof. intros H. apply sub_loop_length. exact H. Qed.

Lemma strip_length (s : text) : length (strip s) <= length s.
Proof.
  unfold strip, strip_by.
  destruct (lstrip_by_suffix isspace s) as [pre E].
  destruct (rstrip_by_prefix isspace (lstrip_by isspace s)) as [post E'].
  rewrite E at 2. rewrite E' at 2. rewrite !length_app. lia.
Qed.

Lemma normalize_ws_length (s : text) : length (normalize_ws s) <= length s.
Proof.
  unfold normalize_ws.
  eapply Nat.le_trans; [apply sub_length; vm_compute; lia|].
  eapply Nat.le_trans; [apply sub_length; vm_compute; lia|].
  eapply Nat.le_trans; [apply sub_length; vm_compute; lia|].
  eapply Nat.le_trans; [apply sub_length; vm_compute; lia|].
  unfold replace_nbsp. rewrite length_map. apply Nat.le_refl.
Qed.

Lemma normalize_text_block_plain (s : text) : Forall plain (_normalize_text_block s).
Proof.
  destruct s as [|c s]; [constructor|].
  unfold _normalize_text_block, remove_page_footer.
  apply strip_Forall. apply sub_Forall; [constructor|].
  apply normalize_ws_shape.
Qed.

(** X14 ([_normalize_text_block]): the normalised text has no tab, no
    carriage return and no non-breaking space, no white space at either
    end, and is never longer than the text given. *)
Theorem normalize_text_block_shape (s : text) :
  Forall (fun c => c <> TAB /\ c <> CR /\ c <> NBSP) (_normalize_text_block s) /\
  strip (_normalize_text_block s) = _normalize_text_block s /\
  length (_normalize_text_block s) <= length s.
Proof.
  split; [|split].
  - eapply Forall_impl; [|apply normalize_text_block_plain].
    intros c (H1 & H2 & H3). auto.
  - destruct s as [|c s]; [reflexivity|]. apply strip_idem.
  - destruct s as [|c s]; [simpl; lia|].
    unfold _normalize_text_block, remove_page_footer.
    eapply Nat.le_trans; [apply strip_length|].
    eapply Nat.le_trans; [apply sub_length; simpl; lia|].
    apply normalize_ws_length.
Qed.

End NormalizeShape.

(* ------------------------------------------------------------------ *)
(** ** The texts the normaliser leaves unchanged *)

Module NormalizeFixed.
Import Re ReFacts SubFacts NormalizeFacts NormalizeIdem ReSpec ReText.
Import FooterFacts NormalizeShape NormalizeClaim.










(** The footer pattern reads the decimal digits of every script: a footer
    in full-width digits is removed like one in ASCII digits. *)
Example footer_in_fullwidth_digits :
  _normalize_text_block
    (str "a" ++ [NL] ++ str "Page " ++ [65297%N] ++ str " of " ++ [65299%N]
     ++ [NL] ++ str "b")
  = str "a" ++ [NL; NL] ++ str "b".
Proof. vm_compute. reflexivity. Qed.



End NormalizeFixed.

(* ------------------------------------------------------------------ *)
(** ** The text of the extraction engines *)

Module EngineFacts.
Import Re NormalizeFacts TextFacts DehyphenFacts NormalizeShape.

(** A character the engines can leave in their text: not one the
    normaliser rewrites, and no line boundary other than the newline. *)
Definition engine_char (c : char) : Prop :=
  plain c /\ (is_linebreak c = true -> c = NL).

Definition nonblank (l : text) : bool := negb (is_empty (strip l)).

(** The text of pages of plain characters has lines that are not blank,
    and the newline is its only line boundary. *)
Lemma join_pages_shape (pages_text : list text) :
  Forall (Forall plain) pages_text ->
  Forall engine_char (join_pages pages_text) /\
  (join_pages pages_text = [] \/
   Forall (fun l => nonblank l = true) (split_on NL (join_pages pages_text))).
Proof.
  intros Hp. unfold join_pages.
  set (ls := filter _ (_dehyphenate_lines (flat_map splitlines pages_text))).
  assert (Hls : Forall (fun l => Forall (fun c => plain c /\ is_linebreak c = false) l
                                 /\ nonblank l = true) ls).
  { apply Forall_forall. intros l Hl. unfold ls in Hl.
    apply filter_In in Hl. destruct Hl as [Hin Hne]. split; [|exact Hne].
    clear Hne. revert l Hin. apply Forall_forall. apply dehyphenate_Forall.
    apply Forall_forall. intros l Hl. apply in_flat_map in Hl.
    destruct Hl as (pg & Hpg & Hl).
    rewrite Forall_forall in Hp. specialize (Hp pg Hpg).
    pose proof (splitlines_Forall plain pg Hp) as H1.
    pose proof (splitlines_no_break pg) as H2.
    rewrite Forall_forall in H1, H2. specialize (H1 l Hl). specialize (H2 l Hl).
    rewrite Forall_forall in H1, H2. apply Forall_forall. intros c Hc. auto. }
  split.
  - apply join_Forall.
    + constructor; [|constructor]. split; [|reflexivity].
      repeat split; discriminate.
    + eapply Forall_impl; [|exact Hls]. intros l [Hl _].
      eapply Forall_impl; [|exact Hl]. intros c [H1 H2]. split; [exact H1|].
      congruence.
  - destruct ls as [|l ls'] eqn:E; [left; reflexivity|]. right.
    rewrite split_on_join.
    + eapply Forall_impl; [|exact Hls]. intros x [_ Hx]. exact Hx.
    + discriminate.
    + eapply Forall_impl; [|exact Hls]. intros x [Hx _].
      eapply Forall_impl; [|exact Hx]. intros c [_ Hc] Ec. subst c. discriminate.
Qed.

Lemma pymupdf_pages_text_plain (pages : list page_source) :
  forall pages_text,
    pymupdf_pages_text pages = Some pages_text -> Forall (Forall plain) pages_text.
Proof.
  induction pages as [|p pages IH]; intros pt H; simpl in H.
  - inversion H. constructor.
  - destruct (pymupdf_page_text p) as [t|] eqn:Et; [|discriminate].
    destruct (pymupdf_pages_text pages) as [ts|]; [|discriminate].
    inversion H; subst. constructor; [|apply IH; reflexivity].
    unfold pymupdf_page_text in Et. destruct (text_mode p); [|discriminate].
    inversion Et. apply normalize_text_block_plain.
Qed.

(** X15 ([extract_text_with_pymupdf]): whatever the document, the text of
    the engine has no tab, carriage return or non-breaking space, its only
    line boundary is the newline, and it is empty or made of lines none of
    which is blank. *)
Theorem pymupdf_text_shape (doc : option (list page_source)) :
  Forall engine_char (extract_text_with_pymupdf doc) /\
  (extract_text_with_pymupdf doc = [] \/
   Forall (fun l => nonblank l = true)
          (split_on NL (extract_text_with_pymupdf doc))).
Proof.
  unfold extract_text_with_pymupdf.
  destruct doc as [pages|]; [|split; [constructor | left; reflexivity]].
  destruct (pymupdf_pages_text pages) as [pt|] eqn:E;
    [|split; [constructor | left; reflexivity]].
  apply join_pages_shape. eapply pymupdf_pages_text_plain. exact E.
Qed.

(** *** The two texts combined *)

Lemma lstrip_by_app (p : char -> bool) (a b : text) :
  lstrip_by p a <> [] -> lstrip_by p (a ++ b) = lstrip_by p a ++ b.
Proof.
  induction a as [|c a IH]; simpl; [congruence|].
  destruct (p c); [exact IH | reflexivity].
Qed.

Lemma lstrip_by_all_app (p : char -> bool) (a b : text) :
  lstrip_by p a = [] -> lstrip_by p (a ++ b) = lstrip_by p b.
Proof.
  induction a as [|c a IH]; simpl; [reflexivity|].
  destruct (p c); [exact IH | discriminate].
Qed.

Lemma rstrip_by_app (p : char -> bool) (a b : text) :
  rstrip_by p b <> [] -> rstrip_by p (a ++ b) = a ++ rstrip_by p b.
Proof.
  unfold rstrip_by. intros H. rewrite rev_app_distr, lstrip_by_app.
  - rewrite rev_app_distr, rev_involutive. reflexivity.
  - intros E. apply H. rewrite E. reflexivity.
Qed.

Lemma rstrip_by_all_app (p : char -> bool) (a b : text) :
  rstrip_by p b = [] -> rstrip_by p (a ++ b) = rstrip_by p a.
Proof.
  unfold rstrip_by. intros H. rewrite rev_app_distr, lstrip_by_all_app; [reflexivity|].
  apply (f_equal (@rev char)) in H. rewrite rev_involutive in H. exact H.
Qed.

Lemma strip_nl_l (s : text) : strip (NL :: s) = strip s.
Proof. reflexivity. Qed.

Lemma strip_nl_r (s : text) : strip (s ++ [NL]) = strip s.
Proof.
  unfold strip, strip_by.
  destruct (lstrip_by isspace s) as [|c t] eqn:E.
  - rewrite lstrip_by_all_app by exact E. reflexivity.
  - rewrite lstrip_by_app by (rewrite E; discriminate). rewrite E.
    apply rstrip_by_all_app. reflexivity.
Qed.

Lemma strip_blank_l (a b : text) : strip a = [] -> strip (a ++ b) = strip b.
Proof.
  unfold strip, strip_by. intros H.
  assert (E : lstrip_by isspace a = []).
  { pose proof (lstrip_by_head isspace a) as Hh.
    destruct (lstrip_by isspace a) as [|c t]; [reflexivity|].
    rewrite rstrip_by_cons in H by exact Hh. discriminate. }
  rewrite lstrip_by_all_app by exact E. reflexivity.
Qed.

(** X16 ([get_combined_texts]): the combined text has no white space at
    either end; when one engine gives nothing, it is the other engine's
    text, stripped; and it is empty only if both texts are blank. *)
Theorem combined_text_falls_back (txt1 txt2 : text) :
  let combined := fst (fst (get_combined_texts txt1 txt2)) in
  strip combined = combined /\
  (txt1 = [] -> combined = strip txt2) /\
  (txt2 = [] -> combined = strip txt1) /\
  (combined = [] -> strip txt1 = [] /\ strip txt2 = []).
Proof.
  simpl. split; [apply strip_idem|]. split; [|split].
  - intros ->. reflexivity.
  - intros ->. apply strip_nl_r.
  - intros H. assert (H1 : strip txt1 = []).
    { unfold strip, strip_by in *.
      destruct (lstrip_by isspace txt1) as [|c t] eqn:E; [reflexivity|].
      exfalso. rewrite lstrip_by_app in H by (rewrite E; discriminate).
      rewrite E in H. pose proof (lstrip_by_head isspace txt1) as Hh.
      rewrite E in Hh. simpl app in H.
      rewrite rstrip_by_cons in H by exact Hh. discriminate. }
    split; [exact H1|].
    rewrite (strip_blank_l txt1 (NL :: txt2) H1) in H. exact H.
Qed.

End EngineFacts.

(* ------------------------------------------------------------------ *)
(** ** The merged intervals as a union *)

Module ExperienceUnion.
Import Re ExperienceFacts ExperienceMerge.

(** The interval does not end before it starts. *)
Definition ordered (iv : interval) : Prop := dt_leb (fst iv) (snd iv) = true.
(** [a] ends before [b] starts. *)
Definition before (a b : interval) : Prop := dt_ltb (snd a) (fst b) = true.
(** [m] contains [iv]. *)
Definition covers (m iv : interval) : Prop :=
  dt_leb (fst m) (fst iv) = true /\ dt_leb (snd iv) (snd m) = true.

Lemma later_ge_l (a b : datetime) : dt_leb a (later a b) = true.
Proof.
  unfold later. destruct (dt_ltb a b) eqn:E; [|apply dt_leb_refl].
  rewrite dt_ltb_leb in E. apply dt_leb_total.
  destruct (dt_leb b a); [discriminate | reflexivity].
Qed.

Lemma later_ge_r (a b : datetime) : dt_leb b (later a b) = true.
Proof.
  unfold later. destruct (dt_ltb a b) eqn:E; [apply dt_leb_refl|].
  rewrite dt_ltb_leb in E. destruct (dt_leb b a); [reflexivity | discriminate].
Qed.

Lemma later_cases (a b : datetime) : later a b = a \/ later a b = b.
Proof. unfold later. destruct (dt_ltb a b); auto. Qed.

Lemma dt_lt_le_trans (a b c : datetime) :
  dt_ltb a b = true -> dt_leb b c = true -> dt_ltb a c = true.
Proof.
  rewrite !dt_ltb_leb. intros H1 H2.
  destruct (dt_leb c a) eqn:E; [|reflexivity].
  rewrite (dt_leb_trans b c a H2 E) in H1. discriminate.
Qed.

Lemma dt_lt_le (a b : datetime) : dt_ltb a b = true -> dt_leb a b = true.
Proof.
  rewrite dt_ltb_leb. intros H. apply dt_leb_total.
  destruct (dt_leb b a); [discriminate | reflexivity].
Qed.

Lemma covers_refl (a : interval) : covers a a.
Proof. split; apply dt_leb_refl. Qed.

Lemma covers_trans (a b c : interval) : covers a b -> covers b c -> covers a c.
Proof.
  intros [H1 H2] [H3 H4]. split; eapply dt_leb_trans; eassumption.
Qed.

(** The sweep gives intervals that are ordered and apart, each before all
    the later ones. *)
Lemma spec_sweep_apart (rest : list interval) :
  forall cur,
    ordered cur -> Forall ordered rest ->
    Forall ordered (spec_sweep cur rest) /\
    StronglySorted before (spec_sweep cur rest).
Proof.
  induction rest as [|[s e] rest IH]; intros [cs ce] Hc Hr; simpl.
  - split; repeat constructor. exact Hc.
  - inversion Hr as [|? ? Hse Hr']; subst.
    destruct (dt_leb s ce) eqn:E.
    + apply IH; [|exact Hr']. unfold ordered in *. simpl in *.
      eapply dt_leb_trans; [exact Hc | apply later_ge_l].
    + destruct (IH (s, e) Hse Hr') as [H1 H2].
      split; [constructor; assumption|].
      constructor; [exact H2|].
      destruct (spec_sweep_head rest (s, e)) as (e' & tl & Eq).
      rewrite Eq in *. simpl fst in *.
      assert (Hb : before (cs, ce) (s, e')).
      { unfold before. simpl. rewrite dt_ltb_leb, E. reflexivity. }
      constructor; [exact Hb|].
      inversion H2 as [|? ? _ Hall]; subst.
      inversion H1 as [|? ? Ho _]; subst.
      eapply Forall_impl; [|exact Hall].
      intros m Hm. unfold before, ordered in *. simpl in Hm, Hb, Ho |- *.
      eapply dt_lt_le_trans; [exact Hb|].
      eapply dt_leb_trans; [exact Ho|].
      apply dt_lt_le. exact Hm.
Qed.

(** On a list sorted by start, every interval swept lies within one of the
    intervals of the result. *)
Lemma spec_sweep_covers (rest : list interval) :
  forall cur,
    StronglySorted start_le (cur :: rest) ->
    Forall (fun iv => Exists (fun m => covers m iv) (spec_sweep cur rest))
           (cur :: rest).
Proof.
  induction rest as [|[s e] rest IH]; intros [cs ce] Hs; simpl.
  - constructor; [|constructor]. left. apply covers_refl.
  - inversion Hs as [|? ? Hs' Hall]; subst.
    inversion Hall as [|? ? Hcs Hall']; subst.
    inversion Hs' as [|? ? Hs'' Hall'']; subst.
    unfold start_le in Hcs. simpl in Hcs.
    destruct (dt_leb s ce) eqn:E.
    + assert (Hsorted : StronglySorted start_le ((cs, later ce e) :: rest)).
      { constructor; [exact Hs''|]. exact Hall'. }
      specialize (IH _ Hsorted). inversion IH as [|? ? Hcur Hrest]; subst.
      assert (G : forall iv, covers (cs, later ce e) iv ->
                  Exists (fun m => covers m iv) (spec_sweep (cs, later ce e) rest)).
      { intros iv Hiv. apply Exists_exists in Hcur. destruct Hcur as (m & Hin & Hm).
        apply Exists_exists. exists m. split; [exact Hin|].
        eapply covers_trans; eassumption. }
      constructor; [|constructor; [|exact Hrest]].
      * apply G. split; simpl; [apply dt_leb_refl | apply later_ge_l].
      * apply G. split; simpl; [exact Hcs | apply later_ge_r].
    + constructor; [left; apply covers_refl|].
      eapply Forall_impl; [|apply IH, Hs'].
      intros iv Hiv. right. exact Hiv.
Qed.

(** Every end point of the result is an end point of an interval swept. *)
Lemma spec_sweep_ends (rest : list interval) :
  forall cur,
    Forall (fun m => (exists iv, In iv (cur :: rest) /\ fst iv = fst m) /\
                     (exists iv, In iv (cur :: rest) /\ snd iv = snd m))
           (spec_sweep cur rest).
Proof.
  induction rest as [|[s e] rest IH]; intros [cs ce]; simpl.
  - constructor; [|constructor]. split; exists (cs, ce); auto.
  - destruct (dt_leb s ce).
    + eapply Forall_impl; [|apply IH].
      intros m [(iv & [Hi|Hi] & E1) (iv2 & [Hi2|Hi2] & E2)]; split.
      * exists (cs, ce). subst iv. auto.
      * subst iv2. simpl in E2. destruct (later_cases ce e) as [El|El];
          rewrite El in E2; [exists (cs, ce) | exists (s, e)]; auto.
      * exists (cs, ce). subst iv. auto.
      * exists iv2. auto.
      * exists iv. auto.
      * subst iv2. simpl in E2. destruct (later_cases ce e) as [El|El];
          rewrite El in E2; [exists (cs, ce) | exists (s, e)]; auto.
      * exists iv. auto.
      * exists iv2. auto.
    + constructor; [split; exists (cs, ce); auto|].
      eapply Forall_impl; [|apply IH].
      intros m [(iv & Hi & E1) (iv2 & Hi2 & E2)]. split.
      * exists iv. split; [right; exact Hi | exact E1].
      * exists iv2. split; [right; exact Hi2 | exact E2].
Qed.

Lemma experience_intervals_ordered (now : datetime) (experience_text : text) :
  Forall ordered (experience_intervals now experience_text).
Proof.
  apply Forall_forall. intros [s e] H.
  apply collect_intervals_In in H. apply H.
Qed.

(** The instant [t] lies in the interval. *)
Definition inside (t : datetime) (iv : interval) : Prop :=
  dt_leb (fst iv) t = true /\ dt_leb t (snd iv) = true.

Lemma covers_inside (m iv : interval) (t : datetime) :
  covers m iv -> inside t iv -> inside t m.
Proof.
  intros [H1 H2] [H3 H4]. split; eapply dt_leb_trans; eassumption.
Qed.

(** Every instant of an interval of the sweep lies in an interval swept:
    the sweep joins two intervals only when the second starts within the
    first, so it bridges no gap. *)
Lemma spec_sweep_within (rest : list interval) :
  forall cur,
    Forall (fun m => forall t, inside t m ->
                     exists iv, In iv (cur :: rest) /\ inside t iv)
           (spec_sweep cur rest).
Proof.
  induction rest as [|[s e] rest IH]; intros [cs ce]; simpl.
  - constructor; [|constructor]. intros t H. exists (cs, ce). auto.
  - destruct (dt_leb s ce) eqn:E.
    + eapply Forall_impl; [|apply IH].
      intros m Hm t Ht. destruct (Hm t Ht) as (iv & [Hi|Hi] & Hin).
      * subst iv. destruct Hin as [H1 H2]. simpl in H1, H2.
        destruct (dt_leb t ce) eqn:Et.
        -- exists (cs, ce). split; [auto|]. split; assumption.
        -- exists (s, e). split; [auto|]. split; simpl.
           ++ eapply dt_leb_trans; [exact E|]. apply dt_leb_total. exact Et.
           ++ destruct (later_cases ce e) as [El|El]; rewrite El in H2;
                [congruence | exact H2].
      * exists iv. auto.
    + constructor.
      * intros t H. exists (cs, ce). auto.
      * eapply Forall_impl; [|apply IH].
        intros m Hm t Ht. destruct (Hm t Ht) as (iv & Hi & Hin).
        exists iv. split; [right; exact Hi | exact Hin].
Qed.

(** Two jobs with a gap between them and a third that overlaps the first. *)
Definition gap_jobs : list interval :=
  [(first_of_month 2010 1, first_of_month 2012 1);
   (first_of_month 2014 1, first_of_month 2016 1);
   (first_of_month 2011 6, first_of_month 2012 6)].

(** X17 ([calculate_total_experience], lines 1050-1060): the merged
    intervals are the union of the kept ones.  For intervals that do not
    end before they start, as the loop of lines 1035-1045 keeps them: the
    merged intervals are pairwise apart and in increasing order (each ends
    before every later one starts), every kept interval lies within one of
    them, each of their end points is an end point of a kept interval, and
    an instant lies in a merged interval exactly when it lies in a kept
    one, so no gap between jobs is counted.  The intervals kept from a text
    never end before they start.  Two jobs 2010-01 to 2012-01 and 2014-01
    to 2016-01 and a third 2011-06 to 2012-06 merge to 2010-01 to 2012-06
    and 2014-01 to 2016-01. *)
Theorem merged_intervals_are_the_union :
  (forall intervals : list interval,
      Forall ordered intervals ->
      let merged := merged_of intervals in
      StronglySorted before merged /\
      Forall ordered merged /\
      Forall (fun iv => Exists (fun m => covers m iv) merged) intervals /\
      Forall (fun m => (exists iv, In iv intervals /\ fst iv = fst m) /\
                       (exists iv, In iv intervals /\ snd iv = snd m)) merged /\
      (forall t : datetime,
          Exists (inside t) merged <-> Exists (inside t) intervals))
  /\ (forall (now : datetime) (experience_text : text),
         Forall ordered (experience_intervals now experience_text))
  /\ merged_of gap_jobs
     = [(first_of_month 2010 1, first_of_month 2012 6);
        (first_of_month 2014 1, first_of_month 2016 1)].
Proof.
  split; [|split; [exact experience_intervals_ordered | reflexivity]].
  intros intervals Ho merged. subst merged.
  pose proof (sort_by_start_perm intervals) as Hp.
  pose proof (sort_by_start_sorted intervals) as Hs.
  unfold merged_of.
  destruct (sort_by_start intervals) as [|first others] eqn:E.
  - apply Permutation_nil in Hp. subst intervals.
    repeat split; try constructor; intros H; inversion H.
  - rewrite merge_intervals_spec.
    assert (Ho' : Forall ordered (first :: others)).
    { apply Forall_forall. intros iv Hiv. rewrite Forall_forall in Ho.
      apply Ho. eapply Permutation_in; [exact Hp | exact Hiv]. }
    inversion Ho' as [|? ? Hf Hot]; subst.
    destruct (spec_sweep_apart others first Hf Hot) as [H1 H2].
    assert (Hc : Forall (fun iv => Exists (fun m => covers m iv)
                                          (spec_sweep first others)) intervals).
    { pose proof (spec_sweep_covers others first Hs) as Hc.
      apply Forall_forall. intros iv Hiv. rewrite Forall_forall in Hc.
      apply Hc. eapply Permutation_in; [apply Permutation_sym, Hp | exact Hiv]. }
    split; [exact H2|]. split; [exact H1|]. split; [exact Hc|]. split.
    + eapply Forall_impl; [|apply spec_sweep_ends].
      intros m [(iv & Hi & E1) (iv2 & Hi2 & E2)]. split.
      * exists iv. split; [|exact E1]. eapply Permutation_in; [exact Hp | exact Hi].
      * exists iv2. split; [|exact E2]. eapply Permutation_in; [exact Hp | exact Hi2].
    + intros t. rewrite !Exists_exists. split.
      * intros (m & Hm & Ht).
        pose proof (spec_sweep_within others first) as Hw.
        rewrite Forall_forall in Hw.
        destruct (Hw m Hm t Ht) as (iv & Hi & Hin).
        exists iv. split; [|exact Hin]. eapply Permutation_in; [exact Hp | exact Hi].
      * intros (iv & Hi & Ht). rewrite Forall_forall in Hc.
        specialize (Hc iv Hi). apply Exists_exists in Hc.
        destruct Hc as (m & Hm & Hcov). exists m. split; [exact Hm|].
        eapply covers_inside; eassumption.
Qed.

Lemma merged_intervals_are_the_union_witness :
  Forall ordered gap_jobs /\
  StronglySorted before (merged_of gap_jobs) /\
  Exists (inside (first_of_month 2012 3)) (merged_of gap_jobs) /\
  ~ Exists (inside (first_of_month 2013 1)) (merged_of gap_jobs).
Proof.
  assert (Ho : Forall ordered gap_jobs) by (repeat constructor).
  pose proof (proj1 merged_intervals_are_the_union gap_jobs Ho) as H.
  cbv zeta in H. destruct H as (H1 & _ & _ & _ & H5).
  split; [exact Ho|]. split; [exact H1|]. split.
  - apply H5. apply Exists_exists.
    exists (first_of_month 2011 6, first_of_month 2012 6).
    split; [right; right; left; reflexivity | split; reflexivity].
  - intros H. apply H5 in H. apply Exists_exists in H.
    destruct H as (iv & Hin & Hl & Hr).
    destruct Hin as [<-|[<-|[<-|[]]]]; vm_compute in Hl, Hr; discriminate.
Defined.

End ExperienceUnion.

(* ------------------------------------------------------------------ *)
(** *** The two caps on the total *)

Module ExperienceCap.
Import Re ExperienceFacts ExperienceMerge ExperienceClaims.
Open Scope Z_scope.

(** The sum of the whole months of the intervals. *)
Definition months_sum (merged : list interval) : Z :=
  fold_right Z.add 0 (map (fun iv => whole_months (snd iv) (fst iv)) merged).

Lemma sum_months_whole (merged : list interval) :
  sum_months merged = months_sum merged.
Proof.
  unfold sum_months, months_sum. rewrite sum_months_from. simpl.
  induction merged as [|iv merged IH]; simpl; [reflexivity|].
  rewrite IH, delta_months_whole. reflexivity.
Qed.

(** A job whose end lies after the clock of 3 November 2026. *)
Definition running_job : text := str "Jan 2020 to Dec 2030".

(** Three jobs of twenty years each, and a clock in 2045. *)
Definition sixty_years : text :=
  str "Jan 1980 to Dec 1999" ++ [NL] ++ str "Jan 2000 to Dec 2019" ++ [NL]
  ++ str "Jan 2020 to Dec 2039".
Definition now_2045 : datetime := DateTime 2045 6 15 9 30 0 0.

(** C6: when some interval is kept, the number of months that is printed
    is the smallest of three numbers: the sum of the whole months of the
    merged intervals, the whole months from the earliest kept start to the
    clock, and 600; the years printed are its quotient by 12 and the months
    its remainder.  Between a start on the first of a month and a later
    date the whole months are the difference of the calendar months.  With
    the clock at 3 November 2026 the range Jan 2020 to Dec 2030 sums to 131
    months, 82 months have elapsed and "6 years and 10 months" is printed;
    with the clock at 15 June 2045 three ranges of 239 months sum to 717,
    785 months have elapsed and "50 years and 0 months" is printed; the two
    overlapping jobs of 35 months are below both caps. *)
Theorem total_months_capped :
  (forall (now : datetime) (experience_text : text),
      experience_intervals now experience_text <> [] ->
      exists earliest : datetime,
        (exists e, In (earliest, e) (experience_intervals now experience_text))
        /\ (forall s e, In (s, e) (experience_intervals now experience_text) ->
                        dt_leb earliest s = true)
        /\ let raw := months_sum (merged_of (experience_intervals now experience_text)) in
           let elapsed := whole_months now earliest in
           let capped := Z.min (Z.min raw elapsed) 600 in
           calculate_total_experience now experience_text
           = Z_to_text (capped / 12) ++ str " years and "
             ++ Z_to_text (capped mod 12) ++ str " months")
  /\ (forall e s : datetime,
         valid_dt e -> month_start s -> dt_leb s e = true ->
         whole_months e s = (year e - year s) * 12 + (month e - month s))
  /\ (experience_intervals now_2026 running_job
      = [(first_of_month 2020 1, first_of_month 2030 12)]
      /\ months_sum (merged_of (experience_intervals now_2026 running_job)) = 131
      /\ whole_months now_2026 (first_of_month 2020 1) = 82
      /\ calculate_total_experience now_2026 running_job = str "6 years and 10 months")
  /\ (experience_intervals now_2045 sixty_years
      = [(first_of_month 1980 1, first_of_month 1999 12);
         (first_of_month 2000 1, first_of_month 2019 12);
         (first_of_month 2020 1, first_of_month 2039 12)]
      /\ months_sum (merged_of (experience_intervals now_2045 sixty_years)) = 717
      /\ whole_months now_2045 (first_of_month 1980 1) = 785
      /\ calculate_total_experience now_2045 sixty_years = str "50 years and 0 months")
  /\ (months_sum (merged_of (experience_intervals now_2026 two_jobs)) = 35
      /\ whole_months now_2026 (first_of_month 2019 1) = 94
      /\ calculate_total_experience now_2026 two_jobs = str "2 years and 11 months").
Proof.
  split.
  { intros now experience_text Hne.
    destruct (total_months_by_delta now experience_text Hne)
      as (earliest & H1 & H2 & H3).
    exists earliest. split; [exact H1|]. split; [exact H2|].
    cbv zeta in *. rewrite H3. unfold format_experience.
    rewrite sum_months_whole, delta_months_whole, Z.min_assoc. reflexivity. }
  split; [exact whole_months_month_start|].
  split; [repeat split; vm_compute; reflexivity|].
  split; repeat split; vm_compute; reflexivity.
Qed.

Lemma total_months_capped_witness :
  experience_intervals now_2026 running_job <> []
  /\ exists earliest : datetime,
       (exists e, In (earliest, e) (experience_intervals now_2026 running_job))
       /\ (forall s e, In (s, e) (experience_intervals now_2026 running_job) ->
                       dt_leb earliest s = true)
       /\ let raw := months_sum (merged_of (experience_intervals now_2026 running_job)) in
          let elapsed := whole_months now_2026 earliest in
          let capped := Z.min (Z.min raw elapsed) 600 in
          calculate_total_experience now_2026 running_job
          = Z_to_text (capped / 12) ++ str " years and "
            ++ Z_to_text (capped mod 12) ++ str " months".
Proof.
  assert (H : experience_intervals now_2026 running_job <> [])
    by (vm_compute; discriminate).
  split; [exact H|].
  exact (proj1 total_months_capped now_2026 running_job H).
Defined.

End ExperienceCap.

(* ------------------------------------------------------------------ *)
(** ** The classes of a pattern *)

Module ReClasses.
Import Re ReFacts SubFacts ReSpec ReText.

(** [Q] holds of every character class of the pattern. *)
Fixpoint all_cls (Q : (char -> bool) -> Prop) (r : regex) : Prop :=
  match r with
  | Cls p => Q p
  | Seq r1 r2 | Alt r1 r2 => all_cls Q r1 /\ all_cls Q r2
  | Star r1 | LazyStar r1 | Group _ r1 => all_cls Q r1
  | _ => True
  end.

(** [Q] holds of every class a match of the pattern can start with, and
    the pattern cannot match the empty text. *)
Fixpoint first_cls (Q : (char -> bool) -> Prop) (r : regex) : Prop :=
  match r with
  | Cls p => Q p
  | Seq r1 _ => first_cls Q r1
  | Alt r1 r2 => first_cls Q r1 /\ first_cls Q r2
  | Group _ r1 => first_cls Q r1
  | _ => False
  end.

Lemma spells_Forall (q : char -> Prop) (r : regex) :
  all_cls (fun p => forall c, p c = true -> q c) r ->
  forall w, Spells r w -> Forall q w.
Proof.
  induction r as [|p|r1 IH1 r2 IH2|r1 IH1 r2 IH2|r1 IH1|r1 IH1|ml|ml| |n r1 IH1];
    simpl; intros Hq w H; try (subst; constructor).
  - destruct H as (c & -> & Hc). constructor; [auto | constructor].
  - destruct H as (w1 & w2 & -> & H1 & H2). apply Forall_app. split.
    + apply IH1; tauto.
    + apply IH2; tauto.
  - destruct H as [H|H]; [apply IH1 | apply IH2]; tauto.
  - destruct H as (ws & -> & H). induction H as [|x ws Hx _ IH]; [constructor|].
    simpl. apply Forall_app. split; [apply IH1; assumption | exact IH].
  - destruct H as (ws & -> & H). induction H as [|x ws Hx _ IH]; [constructor|].
    simpl. apply Forall_app. split; [apply IH1; assumption | exact IH].
  - apply IH1; assumption.
Qed.

Lemma spells_first (q : char -> Prop) (r : regex) :
  first_cls (fun p => forall c, p c = true -> q c) r ->
  forall w, Spells r w -> exists c t, w = c :: t /\ q c.
Proof.
  induction r as [|p|r1 IH1 r2 IH2|r1 IH1 r2 IH2|r1 IH1|r1 IH1|ml|ml| |n r1 IH1];
    simpl; intros Hq w H; try contradiction.
  - destruct H as (c & -> & Hc). exists c, []. auto.
  - destruct H as (w1 & w2 & -> & H1 & H2).
    destruct (IH1 Hq _ H1) as (c & t & -> & Hc). exists c, (t ++ w2). auto.
  - destruct H as [H|H]; [apply IH1 | apply IH2]; tauto.
  - apply IH1; assumption.
Qed.

(** A class found nowhere holds of no character. *)
Lemma nomatch_all_cls (p : char -> bool) :
  forall (s : text) (q : option char),
    nomatch_all (Cls p) q s -> Forall (fun c => p c = false) s.
Proof.
  induction s as [|c t IH]; intros q H; [constructor|].
  simpl in H. destruct H as [H1 H2].
  constructor; [|apply (IH (Some c)), H2].
  unfold match_here in H1. simpl in H1. destruct (p c); [discriminate | reflexivity].
Qed.

Lemma not_found_cls (p : char -> bool) (s : text) :
  found (Cls p) s = false -> Forall (fun c => p c = false) s.
Proof.
  unfold found, search. intros H.
  destruct (search_from (Cls p) None s) eqn:E; [discriminate|].
  apply search_from_none in E. eapply nomatch_all_cls. exact E.
Qed.

End ReClasses.

(* ------------------------------------------------------------------ *)
(** ** Names *)

Module NameShape.
Import Re ReFacts ReSpec ReLocal ReText ReClasses.

(** A character of a name: an ASCII letter, a space or a full stop. *)
Definition name_char (c : char) : Prop :=
  is_ascii_alpha c = true \/ c = SP \/ c = 46%N.

Definition title_name_body : regex :=
  alts [
    Seq title_word (rep_range 1 5 (Seq (Plus ws) title_word));
    Seq (rep_min 2 upper_az)
        (rep_range 1 5 (Seq (Plus ws) (rep_min 2 upper_az)));
    seqs [rep_range 1 3 (seqs [upper_az; chr 46%N; Star ws]);
          title_word;
          Opt (Seq (Plus ws) title_word)] ].

Lemma title_name_eq :
  TITLE_NAME_RE = seqs [Bol false; Group 1 title_name_body; Eol false].
Proof. reflexivity. Qed.

Lemma in_range_alpha_upper (c : char) : in_range 65 90 c = true -> is_ascii_alpha c = true.
Proof. unfold is_ascii_alpha. intros ->. reflexivity. Qed.

Lemma in_range_alpha_lower (c : char) : in_range 97 122 c = true -> is_ascii_alpha c = true.
Proof. unfold is_ascii_alpha. intros ->. apply orb_true_r. Qed.

Lemma title_name_body_chars (w : text) :
  Spells title_name_body w ->
  Forall (fun c => is_ascii_alpha c = true \/ isspace c = true \/ c = 46%N) w.
Proof.
  apply spells_Forall. unfold title_name_body, title_word, upper_az, lower_az, ws.
  cbn -[in_range isspace N.eqb].
  repeat split; intros c H;
    try (left; apply in_range_alpha_upper; exact H);
    try (left; apply in_range_alpha_lower; exact H);
    try (right; left; exact H);
    try (right; right; apply N.eqb_eq in H; symmetry; exact H).
Qed.

Lemma title_name_body_first (w : text) :
  Spells title_name_body w ->
  exists c t, w = c :: t /\ in_range 65 90 c = true.
Proof.
  apply spells_first. unfold title_name_body, title_word, upper_az.
  cbn -[in_range isspace N.eqb]. repeat split; intros c H; exact H.
Qed.

(** A match of the whole pattern spells the whole text, up to one final
    newline. *)
Lemma title_name_match (s : text) :
  is_some (re_match TITLE_NAME_RE s) = true ->
  exists w, Spells title_name_body w /\ (s = w \/ s = w ++ [NL]).
Proof.
  unfold re_match, match_here.
  destruct (rmatch TITLE_NAME_RE _ _) as [st|] eqn:E; [|discriminate]. intros _.
  apply rmatch_sound in E. destruct E as (st' & M & _).
  rewrite title_name_eq in M. apply seqs_chain in M.
  destruct M as (m1 & (_ & ->) & m2 & M2 & m3 & (He & ->) & _).
  apply matches_group in M2. destruct M2 as (m & w & _ & Ew & S & ->).
  exists w. split; [exact S|]. simpl in Ew, He. unfold at_eol in He. simpl in He.
  destruct (rest m) as [|c [|c2 t]].
  - left. rewrite Ew, app_nil_r. reflexivity.
  - right. rewrite andb_true_r in He. apply N.eqb_eq in He. subst c. exact Ew.
  - rewrite andb_false_r in He. discriminate.
Qed.

(** X18 ([_is_name_shape]): a string accepted as a name has, once cleaned,
    between 2 and 120 characters, starts with a capital ASCII letter and
    consists of ASCII letters, spaces and full stops only: the hyphen and
    the apostrophe, which the character check of line 424 lets through,
    are never accepted. *)
Theorem name_shape_chars (s : text) :
  _is_name_shape s = true ->
  2 <= length (_clean_candidate s) <= 120 /\
  Forall name_char (_clean_candidate s) /\
  exists c t, _clean_candidate s = c :: t /\ in_range 65 90 c = true.
Proof.
  unfold _is_name_shape. generalize (_clean_candidate s). intros c.
  destruct (Nat.ltb_spec (length c) 2) as [|H2]; [discriminate|].
  destruct (Nat.ltb_spec 120 (length c)) as [|H120]; [discriminate|]. simpl.
  destruct (found RE_NOT_NAME_CHAR c) eqn:Ef; [discriminate|].
  apply not_found_cls in Ef. intros Hm.
  apply title_name_match in Hm. destruct Hm as (w & S & Hw).
  assert (Ew : c = w).
  { destruct Hw as [Hw|Hw]; [exact Hw|]. exfalso.
    rewrite Hw in Ef. apply Forall_app in Ef. destruct Ef as [_ Ef].
    inversion Ef as [|? ? Hnl _]; subst. discriminate. }
  subst w. split; [lia|]. split; [|apply title_name_body_first, S].
  apply title_name_body_chars in S.
  rewrite Forall_forall in *. intros x Hx.
  specialize (Ef x Hx). specialize (S x Hx). simpl in Ef.
  apply negb_false_iff in Ef. unfold name_char.
  destruct S as [S|[S|S]]; [left; exact S| |right; right; exact S].
  destruct (is_ascii_alpha x); [left; reflexivity|]. simpl in Ef.
  destruct (N.eqb_spec x 32) as [E|_]; [right; left; exact E|].
  destruct (N.eqb_spec x 46) as [E|_]; [right; right; exact E|].
  destruct (N.eqb_spec x 39) as [E|_]; [rewrite E in S; discriminate|].
  destruct (N.eqb_spec x 45) as [E|_]; [rewrite E in S; discriminate|].
  discriminate.
Qed.

Lemma name_shape_chars_witness :
  2 <= length (_clean_candidate (str "J. K.   Rowling")) <= 120 /\
  Forall name_char (_clean_candidate (str "J. K.   Rowling")) /\
  exists c t, _clean_candidate (str "J. K.   Rowling") = c :: t
              /\ in_range 65 90 c = true.
Proof. apply name_shape_chars. vm_compute. reflexivity. Defined.

(** *** The choice between two names *)

(** X19 ([verify_and_select_name]): the result is one of the two names; it
    is "Unknown" only when both are; and of two different names that are
    both known the longer is chosen, the first on a tie. *)
Theorem verify_and_select_name_prefers_known (name1 name2 : text) :
  let r := verify_and_select_name name1 name2 in
  (r = name1 \/ r = name2) /\
  (r = str "Unknown" -> name1 = str "Unknown" /\ name2 = str "Unknown") /\
  (name1 <> str "Unknown" -> name2 <> str "Unknown" ->
   length r = Nat.max (length name1) (length name2) /\
   (length name2 <= length name1 -> r = name1)).
Proof.
  unfold verify_and_select_name.
  destruct (text_eqb name1 name2) eqn:E12.
  - apply text_eqb_eq in E12. subst name2. simpl.
    split; [auto|]. split; [auto|]. intros _ _. split; [lia | auto].
  - destruct (text_eqb name2 (str "Unknown")) eqn:E2.
    + apply text_eqb_eq in E2. simpl. split; [auto|]. split; [auto|].
      intros _ H. contradiction.
    + simpl. destruct (text_eqb name1 (str "Unknown")) eqn:E1.
      * apply text_eqb_eq in E1. split; [auto|]. split.
        -- intros H. rewrite H, (proj2 (text_eqb_eq _ _) eq_refl) in E2. discriminate.
        -- intros H. contradiction.
      * destruct (Nat.leb_spec (length name2) (length name1)) as [Hle|Hlt].
        -- split; [auto|]. split.
           ++ intros H. rewrite H, (proj2 (text_eqb_eq _ _) eq_refl) in E1. discriminate.
           ++ intros _ _. split; [lia | auto].
        -- split; [auto|]. split.
           ++ intros H. rewrite H, (proj2 (text_eqb_eq _ _) eq_refl) in E2. discriminate.
           ++ intros _ _. split; [lia | lia].
Qed.

End NameShape.

(* ------------------------------------------------------------------ *)
(** ** The characters of a skill *)

Module SkillShape.
Import Re ReFacts ReSpec ReText NormalizeFacts FooterFacts TextFacts SkillFacts.

(** The class of [RE_TOKEN_CHARS]: [[A-Za-z0-9+#./_\- ]]. *)
Definition token_char (c : char) : bool :=
  in_range 65 90 c || in_range 97 122 c || in_range 48 57 c
  || existsb (N.eqb c) (str "+#./_- ").

(** A character of a skill: one of the class, or white space. *)
Definition skill_char (c : char) : Prop := token_char c = true \/ isspace c = true.

Lemma token_chars_eq : RE_TOKEN_CHARS = Plus (Cls token_char).
Proof. reflexivity. Qed.

Lemma token_char_spec (c : char) :
  token_char c = true <->
  (65 <= c <= 90 \/ 97 <= c <= 122 \/ 48 <= c <= 57 \/ c = 43 \/ c = 35 \/ c = 46
   \/ c = 47 \/ c = 95 \/ c = 45 \/ c = 32)%N.
Proof.
  unfold token_char, in_range.
  change (str "+#./_- ") with [43; 35; 46; 47; 95; 45; 32]%N.
  cbn [existsb]. rewrite orb_false_r.
  rewrite !orb_true_iff, !andb_true_iff, !N.leb_le, !N.eqb_eq. tauto.
Qed.

Lemma isspace_spec (c : char) :
  isspace c = true <->
  (9 <= c <= 13 \/ 28 <= c <= 32 \/ c = 133 \/ c = 160 \/ c = 5760
   \/ 8192 <= c <= 8202 \/ c = 8232 \/ c = 8233 \/ c = 8239 \/ c = 8287
   \/ c = 12288)%N.
Proof.
  unfold isspace, in_range.
  rewrite !orb_true_iff, !andb_true_iff, !N.leb_le, !N.eqb_eq. tauto.
Qed.

Lemma isupper_c_spec (c : char) :
  isupper_c c = true <-> (65 <= c <= 90 \/ 192 <= c <= 214 \/ 216 <= c <= 222)%N.
Proof.
  unfold isupper_c, in_range.
  rewrite !orb_true_iff, !andb_true_iff, !N.leb_le. tauto.
Qed.

Lemma skill_char_spec (c : char) :
  skill_char c <->
  (65 <= c <= 90 \/ 97 <= c <= 122 \/ 48 <= c <= 57 \/ c = 43 \/ c = 35 \/ c = 46
   \/ c = 47 \/ c = 95 \/ c = 45
   \/ 9 <= c <= 13 \/ 28 <= c <= 32 \/ c = 133 \/ c = 160 \/ c = 5760
   \/ 8192 <= c <= 8202 \/ c = 8232 \/ c = 8233 \/ c = 8239 \/ c = 8287
   \/ c = 12288)%N.
Proof.
  unfold skill_char. rewrite token_char_spec, isspace_spec. lia.
Qed.

(** Changing the case of a skill character gives skill characters. *)
Lemma lower_c_skill (c : char) : skill_char c -> skill_char (lower_c c).
Proof.
  unfold lower_c. destruct (isupper_c c) eqn:E; [|tauto].
  apply isupper_c_spec in E. rewrite !skill_char_spec. lia.
Qed.

Lemma upper_c_skill (c : char) : skill_char c -> Forall skill_char (upper_c c).
Proof.
  intros H. unfold upper_c.
  destruct (in_range 97 122 c || in_range 224 246 c || in_range 248 254 c) eqn:E1.
  - constructor; [|constructor].
    unfold in_range in E1.
    rewrite !orb_true_iff, !andb_true_iff, !N.leb_le in E1.
    rewrite skill_char_spec in *. lia.
  - destruct (N.eqb_spec c 223) as [E|_].
    { rewrite skill_char_spec in H. lia. }
    destruct (N.eqb_spec c 255) as [E|_].
    { rewrite skill_char_spec in H. lia. }
    destruct (N.eqb_spec c 181) as [E|_].
    { rewrite skill_char_spec in H. lia. }
    constructor; [exact H | constructor].
Qed.

Lemma upper_skill (s : text) : Forall skill_char s -> Forall skill_char (upper s).
Proof.
  unfold upper. induction 1 as [|c s Hc _ IH]; simpl; [constructor|].
  apply Forall_app. split; [apply upper_c_skill, Hc | exact IH].
Qed.

Lemma title_from_skill (s : text) :
  forall b, Forall skill_char s -> Forall skill_char (title_from b s).
Proof.
  induction s as [|c s IH]; intros b H; simpl; [constructor|].
  inversion H as [|? ? Hc Hs]; subst.
  apply Forall_app. split; [|apply IH, Hs].
  destruct (isalpha_c c); [|constructor; [exact Hc | constructor]].
  destruct b; [constructor; [apply lower_c_skill, Hc | constructor]|].
  destruct (N.eqb_spec c 223) as [E|_]; [|apply upper_c_skill, Hc].
  rewrite skill_char_spec in Hc. lia.
Qed.

Lemma split_ws_from_Forall (P : char -> Prop) (s : text) :
  forall cur, Forall P cur -> Forall P s -> Forall (Forall P) (split_ws_from cur s).
Proof.
  induction s as [|c s IH]; intros cur Hcur Hs; simpl.
  - destruct cur; [constructor|]. constructor; [apply Forall_rev, Hcur | constructor].
  - inversion Hs as [|? ? Hc Hs']; subst.
    destruct (isspace c).
    + destruct cur.
      * apply IH; [constructor | exact Hs'].
      * constructor; [apply Forall_rev, Hcur|]. apply IH; [constructor | exact Hs'].
    + apply IH; [constructor; assumption | exact Hs'].
Qed.

Lemma split_ws_Forall (P : char -> Prop) (s : text) :
  Forall P s -> Forall (Forall P) (split_ws s).
Proof. apply split_ws_from_Forall. constructor. Qed.

Lemma skill_casing_skill (val : text) :
  Forall skill_char val -> Forall skill_char (skill_casing val).
Proof.
  intros H. unfold skill_casing.
  destruct (mem (upper val) FORCE_UPPER || mem (lower val) TECH_TERMS);
    [apply upper_skill, H|].
  destruct (Nat.ltb 1 (length (split_ws val))); [|apply title_from_skill, H].
  apply join_Forall.
  - constructor; [|constructor]. right. reflexivity.
  - apply Forall_forall. intros w Hw. apply in_map_iff in Hw.
    destruct Hw as (w0 & <- & Hw0).
    pose proof (split_ws_Forall _ _ H) as Hs. rewrite Forall_forall in Hs.
    specialize (Hs w0 Hw0).
    destruct (mem (lower w0) _); [apply upper_skill | apply title_from_skill]; exact Hs.
Qed.

(** What [re.fullmatch] accepts is spelled by the pattern. *)
Lemma fullmatch_spells (r : regex) (s : text) :
  is_some (fullmatch r s) = true -> Spells r s.
Proof.
  unfold fullmatch. destruct (rmatch r _ _) as [st|] eqn:E; [|discriminate].
  intros _. apply rmatch_sound in E. destruct E as (st' & M & Hk).
  apply matches_spells in M. destruct M as (w & Ew & S). simpl in Ew.
  destruct (rest st'); [|discriminate]. rewrite app_nil_r in Ew. subst w. exact S.
Qed.

(** A token that passes the filter is made of skill characters. *)
Lemma short_tech_token_chars (stop_words_set : list text) (tok : text) :
  is_short_tech_token stop_words_set tok = true -> Forall skill_char tok.
Proof.
  unfold is_short_tech_token.
  destruct (is_empty (strip tok)); [discriminate|].
  destruct (Nat.ltb 4 _); [discriminate|].
  destruct (is_some (fullmatch RE_TOKEN_CHARS (strip tok))) eqn:E; [|discriminate].
  intros _. apply fullmatch_spells in E. rewrite token_chars_eq in E.
  apply spells_plus_cls in E. destruct E as [_ E].
  unfold strip, strip_by in E.
  destruct (lstrip_by_split isspace tok) as (pre & E1 & Hpre).
  destruct (rstrip_by_split isspace (lstrip_by isspace tok)) as (post & E2 & Hpost).
  rewrite E1, E2. rewrite forallb_forall in E, Hpre, Hpost.
  apply Forall_forall. intros c Hc.
  apply in_app_or in Hc. destruct Hc as [Hc|Hc]; [right; apply Hpre, Hc|].
  apply in_app_or in Hc. destruct Hc as [Hc|Hc]; [left; apply E, Hc | right; apply Hpost, Hc].
Qed.

Lemma first_seen_In (cs : list text) :
  forall seen x, In x (first_seen seen cs) -> In x cs.
Proof.
  induction cs as [|c cs IH]; intros seen x H; simpl in H; [contradiction|].
  destruct (mem (lower c) seen).
  - right. eapply IH. exact H.
  - destruct H as [H|H]; [left; exact H | right; eapply IH; exact H].
Qed.

(** X20 ([extract_skills]): every skill returned is made only of the
    characters [A-Za-z0-9+#./_-], spaces and other white space: no comma,
    colon, bracket or non-ASCII letter, whatever the text and the list of
    stop words. *)
Theorem extract_skills_chars (stop_words_set : list text) (txt : text) :
  Forall (Forall skill_char) (extract_skills stop_words_set txt).
Proof.
  apply Forall_forall. intros s Hs. unfold extract_skills in Hs.
  rewrite dedup_skills_first_seen in Hs. apply first_seen_In in Hs.
  unfold skill_candidates in Hs.
  apply in_flat_map in Hs. destruct Hs as (line & _ & Hs).
  apply in_flat_map in Hs. destruct Hs as (token & _ & Hs).
  apply in_flat_map in Hs. destruct Hs as (piece & _ & Hs).
  unfold skill_of_piece in Hs.
  destruct (is_empty _); [contradiction|].
  destruct (is_short_tech_token _ _) eqn:E; [|contradiction].
  destruct Hs as [<-|[]].
  apply skill_casing_skill. eapply short_tech_token_chars. exact E.
Qed.

End SkillShape.
